(** * The programs of the repository

    A shallow embedding of the C++ class [DisjoinSet] (constructor,
    [findUp], [unionByRank], [unionBySize], [isComponent]) and the
    properties its specification states about it, followed by the other
    programs of the repository: the level-order traversal [bfs], the
    shortest-path function [dijkstra] and the notification decorators.

    - [int] is a 32-bit two's complement integer, kept as a [Z] with the
      wrap-around of [+] written out ([add32]).
    - [vector<int>] is a [list Z]; [operator[]] performs no bounds check, so
      an access outside the vector is undefined behaviour ([Undef]).
    - The methods mutate the three vectors of the object: they are functions
      in a state monad over the record [t] whose results are outcomes
      (normal return, C++ exception, undefined behaviour, or a recursion that
      does not come back).
    - The loops of [bfs] and [dijkstra] pass their local variables from one
      round to the next; a loop whose number of rounds is not fixed by its
      form has an allowance of rounds and the outcome [Diverge] beyond it. *)

From stdpp Require Import base tactics option list relations numbers strings.

Local Open Scope Z_scope.

(** ** 32-bit [int] *)

Module Int32.

Definition INT_MIN : Z := - 2 ^ 31.
Definition INT_MAX : Z := 2 ^ 31 - 1.

Definition in_int (z : Z) : Prop := INT_MIN ≤ z ≤ INT_MAX.

(** Two's complement reduction of an integer to 32 bits. *)
Definition wrap (z : Z) : Z := (z + 2 ^ 31) `mod` 2 ^ 32 - 2 ^ 31.

(** [a + b] on [int]. *)
Definition add32 (a b : Z) : Z := wrap (a + b).

(** The conversion [int -> size_t] (64 bits) that [vector::resize]
    applies to its argument. *)
Definition to_size_t (z : Z) : Z := z `mod` 2 ^ 64.

(** [vector<int>::max_size()]: no implementation allows more than
    [2^61] four-byte elements on a 64-bit target. *)
Definition max_size : Z := 2 ^ 61 - 1.

End Int32.

(** ** Outcomes and the state monad of the methods *)

(** The exceptions of <stdexcept> that [std::vector] can raise:
    [resize] raises [length_error]; [at] would raise [out_of_range],
    [operator[]] (the only access the class uses) raises nothing. *)
Inductive exn : Set :=
| length_error
| out_of_range.

Inductive outcome (A : Type) : Type :=
| Ret (a : A)          (* normal return *)
| Throw (e : exn)      (* a C++ exception reaches the caller *)
| Undef                (* undefined behaviour: access outside a vector *)
| Diverge.             (* the recursion does not come back *)

Arguments Ret {A} a.
Arguments Throw {A} e.
Arguments Undef {A}.
Arguments Diverge {A}.

Definition is_Ret {A} (o : outcome A) : bool :=
  match o with Ret _ => true | _ => false end.

(** ** Vectors *)

Module Vec.

(** [v[i]] read: [None] outside the vector. *)
Definition get (l : list Z) (i : Z) : option Z :=
  if decide (0 ≤ i) then l !! Z.to_nat i else None.

(** [v[i] = x]: [None] outside the vector. *)
Definition set (l : list Z) (i x : Z) : option (list Z) :=
  if decide (0 ≤ i < Z.of_nat (length l))
  then Some (<[Z.to_nat i := x]> l) else None.

(** [v.resize(m, x)] on an empty vector. *)
Definition resize (m x : Z) : list Z := replicate (Z.to_nat m) x.

End Vec.

(** ** The class *)

Module DisjoinSet.

Import Int32.

(** The three private fields. *)
Record t : Type := mk { rank : list Z; parent : list Z; size : list Z }.

Definition with_rank (r : list Z) (s : t) : t := mk r (parent s) (size s).
Definition with_parent (p : list Z) (s : t) : t := mk (rank s) p (size s).
Definition with_size (z : list Z) (s : t) : t := mk (rank s) (parent s) z.

(** Methods: state in, outcome with the new state out. *)
Definition M (A : Type) : Type := t → outcome (A * t).

Definition ret {A} (a : A) : M A := λ s, Ret (a, s).

Definition bind {A B} (m : M A) (k : A → M B) : M B :=
  λ s, match m s with
       | Ret (a, s') => k a s'
       | Throw e => Throw e
       | Undef => Undef
       | Diverge => Diverge
       end.

Notation "'do' x <- m ; k" := (bind m (λ x, k))
  (at level 10, x name, m at level 100, k at level 200, only parsing).

(** Field accesses through [operator[]]. *)
Definition read (f : t → list Z) (i : Z) : M Z :=
  λ s, match Vec.get (f s) i with Some x => Ret (x, s) | None => Undef end.

Definition write (f : t → list Z) (upd : list Z → t → t) (i x : Z) : M unit :=
  λ s, match Vec.set (f s) i x with
       | Some l => Ret (tt, upd l s)
       | None => Undef
       end.

Definition read_rank := read rank.
Definition read_parent := read parent.
Definition read_size := read size.
Definition write_rank := write rank with_rank.
Definition write_parent := write parent with_parent.
Definition write_size := write size with_size.

(** *** Constructor

    [rank.resize(n+1,0); parent.resize(n+1); size.resize(n+1,1);
     for (int i = 0; i <= n; i++) parent[i] = i;]

    [n+1] is computed on [int] and converted to [size_t]; a negative value
    becomes a count above [max_size()], for which [resize] raises
    [length_error]. Exhaustion of memory is not modelled. *)

(** The loop [for (; i <= n; i++) parent[i] = i], with [fuel] tests of
    its condition allowed. *)
Fixpoint init_loop (fuel : nat) (n i : Z) : M unit :=
  match fuel with
  | O => λ _, Diverge
  | S k =>
      if decide (i ≤ n) then
        do _ <- write_parent i i;
        init_loop k n (add32 i 1)
      else ret tt
  end.

(** The loop tests its condition [n+2] times when [0 ≤ n+1] and once
    otherwise. *)
Definition create (n : Z) : outcome t :=
  let m := to_size_t (add32 n 1) in
  if decide (m ≤ max_size) then
    let s0 := mk (Vec.resize m 0) (Vec.resize m 0) (Vec.resize m 1) in
    match init_loop (S (Z.to_nat (n + 1))) n 0 s0 with
    | Ret (_, s) => Ret s
    | Throw e => Throw e
    | Undef => Undef
    | Diverge => Diverge
    end
  else Throw length_error.

(** *** findUp

    [if (node == parent[node]) return node;
     return parent[node] = findUp(parent[node]);]

    The recursion is on the parent chain, which the type does not bound:
    [findUp_fuel] counts the calls that may still be made and reports
    [Diverge] when they are used up. *)
Fixpoint findUp_fuel (fuel : nat) (node : Z) : M Z :=
  match fuel with
  | O => λ _, Diverge
  | S k =>
      do p <- read_parent node;
      if decide (node = p) then ret node
      else
        do r <- findUp_fuel k p;
        do _ <- write_parent node r;
        ret r
  end.

(** [findUp] allows one call more than [parent] has entries. A call that
    returns, or reads outside the vector, with any allowance does so with
    this one ([findUp_fuel_adequate] below): its chain consists of distinct
    elements of the vector. Otherwise the chain runs into a cycle and the
    C++ recursion does not return. *)
Definition findUp (node : Z) : M Z :=
  λ s, findUp_fuel (S (length (parent s))) node s.

(** *** unionByRank *)
Definition unionByRank (u v : Z) : M unit :=
  do u_up <- findUp u;
  do v_up <- findUp v;
  do ru <- read_rank u_up;
  do rv <- read_rank v_up;
  if decide (ru < rv) then write_parent u_up v_up
  else
    do ru' <- read_rank u_up;
    do rv' <- read_rank v_up;
    if decide (ru' > rv') then write_parent v_up u_up
    else
      do _ <- write_parent u_up v_up;
      do r <- read_rank v_up;
      write_rank v_up (add32 r 1).

(** *** unionBySize *)
Definition unionBySize (u v : Z) : M unit :=
  do u_up <- findUp u;
  do v_up <- findUp v;
  if decide (u_up < v_up) then
    do _ <- write_parent u_up v_up;
    do a <- read_size u_up;
    do b <- read_size v_up;
    write_size v_up (add32 b a)
  else
    do _ <- write_parent v_up u_up;
    do a <- read_size v_up;
    do b <- read_size u_up;
    write_size u_up (add32 b a).

(** *** isComponent

    [return findUp(v) == findUp(u);] The order of the two calls is not
    fixed by C++; the left one is taken first here. *)
Definition isComponent (v u : Z) : M bool :=
  do a <- findUp v;
  do b <- findUp u;
  ret (bool_decide (a = b)).

End DisjoinSet.

Import Int32 DisjoinSet.

(** * Vocabulary of the properties *)

(** ** Bounds of a vector *)

Module Bounds.

(** The list after [v[i] = x] when [i] is inside. *)
Definition upd (l : list Z) (i x : Z) : list Z := <[Z.to_nat i := x]> l.

Definition inside (l : list Z) (i : Z) : Prop := 0 ≤ i < Z.of_nat (length l).

End Bounds.

Import Bounds.

(** ** The parent vector as a forest *)

Module Forest.

(** [path p x l r]: following [p] from [x] visits the non-root elements
    [l] (starting with [x] itself unless [x] is a root) and stops at the
    self-parented element [r]. *)
Inductive path (p : list Z) : Z → list Z → Z → Prop :=
| path_root x : Vec.get p x = Some x → path p x [] x
| path_step x j l r :
    Vec.get p x = Some j → x ≠ j → path p j l r → path p x (x :: l) r.

Definition root_of (p : list Z) (x r : Z) : Prop := ∃ l, path p x l r.

(** [escape p x l]: following [p] from [x] visits the elements [l] and
    then reads outside the vector. *)
Inductive escape (p : list Z) : Z → list Z → Prop :=
| escape_out x : Vec.get p x = None → escape p x []
| escape_step x j l :
    Vec.get p x = Some j → x ≠ j → escape p j l → escape p x (x :: l).

Definition is_root (p : list Z) (r : Z) : Prop := Vec.get p r = Some r.

(** Every element of the vector reaches a root. *)
Definition forest (p : list Z) : Prop :=
  ∀ x, inside p x → ∃ l r, path p x l r.

(** Path compression: every element of [l] is re-parented to [r], the
    deepest one first (the order of the returns of [findUp]). *)
Definition compress (p : list Z) (l : list Z) (r : Z) : list Z :=
  foldr (λ y q, upd q y r) p l.

(** [k] applications of the parent vector. *)
Fixpoint ancestor (p : list Z) (k : nat) (x : Z) : option Z :=
  match k with
  | O => Some x
  | S k' => match Vec.get p x with
            | Some j => ancestor p k' j
            | None => None
            end
  end.

(** [p'] has the roots of [p]: same length and every element keeps its
    root. *)
Definition keeps_roots (p p' : list Z) : Prop :=
  length p' = length p ∧ ∀ y r, root_of p y r → root_of p' y r.

End Forest.

Import Forest.

(** ** Well-formed states and what the methods do to them *)

Module States.

(** ** Well-formed states *)

Record wf (s : t) : Prop := mk_wf {
  wf_rank : length (rank s) = length (parent s);
  wf_size : length (size s) = length (parent s);
  wf_forest : forest (parent s)
}.

(** The elements of the structure are the indices of [parent]. *)
Definition elem (s : t) (x : Z) : Prop := inside (parent s) x.

(** [s'] is [s] up to path compression. *)
Record compressed (s s' : t) : Prop := mk_compressed {
  cmp_rank : rank s' = rank s;
  cmp_size : size s' = size s;
  cmp_roots : keeps_roots (parent s) (parent s')
}.

(** ** Linking *)

(** [parent[a] = b]. *)
Definition link (a b : Z) (s : t) : t := with_parent (upd (parent s) a b) s.

(** The state in which [unionByRank] leaves a well-formed state, from the
    state [s2] after its two calls of [findUp]. *)
Definition rank_linked (ru rv ka kb : Z) (s2 : t) : t :=
  if decide (ka < kb) then link ru rv s2
  else if decide (ka > kb) then link rv ru s2
  else with_rank (upd (rank s2) rv (add32 kb 1)) (link ru rv s2).

(** The state in which [unionBySize] leaves a well-formed state. *)
Definition size_linked (ru rv za zb : Z) (s2 : t) : t :=
  if decide (ru < rv)
  then with_size (upd (size s2) rv (add32 zb za)) (link ru rv s2)
  else with_size (upd (size s2) ru (add32 za zb)) (link rv ru s2).

(** ** What a union does to the roots *)

(** Every element whose root was [a] now has root [b]; the others keep
    theirs. *)
Definition merged (p p' : list Z) (a b : Z) : Prop :=
  length p' = length p ∧
  ∀ y r, root_of p y r → root_of p' y (if decide (r = a) then b else r).

(** [s'] is [s] with the sets of [u] and [v] united. *)
Definition joined (s s' : t) (u v : Z) : Prop :=
  ∃ a b,
    ((root_of (parent s) u a ∧ root_of (parent s) v b) ∨
     (root_of (parent s) u b ∧ root_of (parent s) v a)) ∧
    merged (parent s) (parent s') a b.

(** The state the constructor builds for [n+1] elements. *)
Definition fresh (n : Z) : t :=
  mk (replicate (Z.to_nat (n + 1)) 0) (seqZ 0 (n + 1))
     (replicate (Z.to_nat (n + 1)) 1).

End States.

Import States.

(** ** A caller: sequences of calls on one object *)

Module Client.

Inductive call : Set :=
| Find (x : Z)
| UnionByRank (u v : Z)
| UnionBySize (u v : Z)
| IsComponent (v u : Z).

(** One call, its return value dropped. *)
Definition exec (c : call) : M unit :=
  match c with
  | Find x => do _ <- findUp x; ret tt
  | UnionByRank u v => unionByRank u v
  | UnionBySize u v => unionBySize u v
  | IsComponent v u => do _ <- isComponent v u; ret tt
  end.

Fixpoint run (cs : list call) : M unit :=
  match cs with
  | [] => ret tt
  | c :: cs' => do _ <- exec c; run cs'
  end.

(** [DisjoinSet ds(n);] followed by the calls [cs] on [ds]. *)
Definition session (n : Z) (cs : list call) : outcome t :=
  match create n with
  | Ret s =>
      match run cs s with
      | Ret (_, s') => Ret s'
      | Throw e => Throw e
      | Undef => Undef
      | Diverge => Diverge
      end
  | Throw e => Throw e
  | Undef => Undef
  | Diverge => Diverge
  end.

(** The arguments of a call are elements of [0..n]. *)
Definition in_range (n : Z) (c : call) : Prop :=
  match c with
  | Find x => 0 ≤ x ≤ n
  | UnionByRank u v | UnionBySize u v | IsComponent u v =>
      0 ≤ u ≤ n ∧ 0 ≤ v ≤ n
  end.

(** The states an object built for [n] can be in. *)
Definition reachable (n : Z) (s : t) : Prop :=
  ∃ cs, Forall (in_range n) cs ∧ session n cs = Ret s.

(** The pairs given to the union calls of a sequence. *)
Fixpoint union_pairs (cs : list call) : list (Z * Z) :=
  match cs with
  | [] => []
  | UnionByRank u v :: cs' | UnionBySize u v :: cs' => (u, v) :: union_pairs cs'
  | _ :: cs' => union_pairs cs'
  end.

(** Connectivity in the undirected graph with the edges [E]. *)
Definition edge (E : list (Z * Z)) : relation Z := λ x y, (x, y) ∈ E.
Definition connected (E : list (Z * Z)) : relation Z := rtsc (edge E).

(** The roots of [p] are the components of the graph [E]. *)
Definition agrees (p : list Z) (E : list (Z * Z)) : Prop :=
  (∀ a b, (a, b) ∈ E → ∃ r, root_of p a r ∧ root_of p b r) ∧
  (∀ x y r, root_of p x r → root_of p y r → connected E x y).

(** The state invariant of an object built for [n]. *)
Definition inv (n : Z) (s : t) : Prop :=
  wf s ∧ length (parent s) = Z.to_nat (n + 1).

(** A step of the caller: what one in-range call does to a state. *)
Inductive step (s s' : t) : call → Prop :=
| step_find x : compressed s s' → step s s' (Find x)
| step_query v u : compressed s s' → step s s' (IsComponent v u)
| step_by_rank u v :
    joined s s' u v → size s' = size s → step s s' (UnionByRank u v)
| step_by_size u v :
    joined s s' u v → rank s' = rank s → step s s' (UnionBySize u v).

(** The root [findUp] returns for [x], if it returns. *)
Definition find_root (s : t) (x : Z) : option Z :=
  match findUp x s with
  | Ret (r, _) => Some r
  | _ => None
  end.

(** The number of elements [y] with [findUp(y) == findUp(x)]. *)
Definition set_count (s : t) (x : Z) : nat :=
  length (filter (λ y, find_root s y = find_root s x)
                 (seqZ 0 (Z.of_nat (length (parent s))))).

(** The number of elements whose root is [r]. *)
Definition root_count (s : t) (r : Z) : nat :=
  length (filter (λ y, find_root s y = Some r)
                 (seqZ 0 (Z.of_nat (length (parent s))))).

(** [size] holds, at every root, the number of elements of its set. *)
Definition sizes_exact (s : t) : Prop :=
  ∀ r, is_root (parent s) r →
       Vec.get (size s) r = Some (Z.of_nat (root_count s r)).

(** The states reached from the constructor by [findUp] and by calls of
    [unionBySize] on elements of two different sets. *)
Inductive careful (n : Z) : t → Prop :=
| careful_create s : create n = Ret s → careful n s
| careful_find s x r s' :
    careful n s → 0 ≤ x ≤ n → findUp x s = Ret (r, s') → careful n s'
| careful_union s u v s' :
    careful n s → 0 ≤ u ≤ n → 0 ≤ v ≤ n →
    find_root s u ≠ find_root s v →
    unionBySize u v s = Ret (tt, s') → careful n s'.

End Client.

Import Client.

(** ** Frames: which fields a method depends on *)

Module Frame.

(** The outcome [o] with its final state changed by [g]. *)
Definition on_state {A} (g : t → t) (o : outcome (A * t)) : outcome (A * t) :=
  match o with
  | Ret (a, s) => Ret (a, g s)
  | Throw e => Throw e
  | Undef => Undef
  | Diverge => Diverge
  end.

(** [m] neither reads nor writes what [g] overwrites: running [m] after
    [g] is running [m] and then overwriting. *)
Definition ignores {A} (g : t → t) (m : M A) : Prop :=
  ∀ s, m (g s) = on_state g (m s).

(** What [findUp] needs of an overwrite: [parent] is left alone. *)
Definition keeps_parent (g : t → t) : Prop :=
  (∀ s, parent (g s) = parent s) ∧
  (∀ l s, with_parent l (g s) = g (with_parent l s)).

End Frame.

Import Frame.

(** ** Union policies *)

Module Policies.

(** Calls other than [unionBySize], and other than [unionByRank]. *)
Definition not_by_size (c : call) : Prop :=
  match c with UnionBySize _ _ => False | _ => True end.

Definition not_by_rank (c : call) : Prop :=
  match c with UnionByRank _ _ => False | _ => True end.

(** Calls that only ask. *)
Definition is_query (c : call) : Prop :=
  match c with Find _ | IsComponent _ _ => True | _ => False end.

(** Two elements have the same root. *)
Definition sameset (s : t) (x y : Z) : Prop :=
  ∃ r, root_of (parent s) x r ∧ root_of (parent s) y r.

(** No parent has a smaller index than its child. *)
Definition upward (p : list Z) : Prop :=
  ∀ x j, Vec.get p x = Some j → x ≤ j.

(** The rank grows from every element to its parent. *)
Definition ranked (s : t) : Prop :=
  ∀ x j, Vec.get (parent s) x = Some j → x ≠ j →
         ∃ a b, Vec.get (rank s) x = Some a ∧ Vec.get (rank s) j = Some b ∧
                a < b.

(** Every rank lies between 0 and [k]. *)
Definition rank_bound (k : Z) (s : t) : Prop :=
  ∀ x a, Vec.get (rank s) x = Some a → 0 ≤ a ≤ k.

(** The number of sets: the number of self-parented elements. *)
Definition set_total (s : t) : nat :=
  length (filter (λ r, Vec.get (parent s) r = Some r)
                 (seqZ 0 (Z.of_nat (length (parent s))))).

End Policies.

Import Policies.

(** * Level-order traversal of a binary tree *)

Module Bfs.

Import Int32.

(** A value of type [TreeNode *]: the null pointer, or a node with its
    [left], [val] and [right] fields. Pointer structures with a cycle are
    outside this type. *)
Inductive TreeNode : Type :=
| nullptr
| Node (left : TreeNode) (val : Z) (right : TreeNode).

(** The three constructors of the class. *)
Definition TreeNode_left_val (left : TreeNode) (val : Z) : TreeNode :=
  Node left val nullptr.
Definition TreeNode_val (val : Z) : TreeNode := Node nullptr val nullptr.
Definition TreeNode_left_val_right (left : TreeNode) (val : Z)
    (right : TreeNode) : TreeNode :=
  Node left val right.

(** [if (x) q.push(x);] *)
Definition push_if (x : TreeNode) (q : list TreeNode) : list TreeNode :=
  match x with nullptr => q | Node _ _ _ => q ++ [x] end.

(** [k] more rounds of [for (int i = 0; i < n; i++)]: the front of the queue
    leaves it, its value goes to the end of [cur], and its children that are
    not null go to the back of the queue. [front] on an empty queue and
    [x->val] through a null pointer are undefined. *)
Fixpoint for_loop (k : nat) (q : list TreeNode) (cur : list Z)
    : outcome (list TreeNode * list Z) :=
  match k with
  | O => Ret (q, cur)
  | S k' =>
      match q with
      | [] => Undef
      | nullptr :: _ => Undef
      | Node l v r :: q' => for_loop k' (push_if r (push_if l q')) (cur ++ [v])
      end
  end.

(** [while (!q.empty())], with an allowance of rounds. [int n = q.size()]
    converts the length to [int]. *)
Fixpoint while_loop (fuel : nat) (q : list TreeNode) (ans : list (list Z))
    : outcome (list (list Z)) :=
  match fuel with
  | O => Diverge
  | S fuel' =>
      match q with
      | [] => Ret ans
      | _ :: _ =>
          let n := wrap (Z.of_nat (length q)) in
          match for_loop (Z.to_nat n) q [] with
          | Ret (q', cur) => while_loop fuel' q' (ans ++ [cur])
          | Throw e => Throw e
          | Undef => Undef
          | Diverge => Diverge
          end
      end
  end.

(** The number of nodes of a tree. *)
Fixpoint nodes (t : TreeNode) : nat :=
  match t with
  | nullptr => O
  | Node l _ r => S (nodes l + nodes r)
  end.

(** [bfs(root)]. Every round of the [while] loop that takes a node from the
    queue takes one of the nodes of the tree, so one round per node and one
    more is all the loop can use unless it stops taking nodes. *)
Definition bfs (root : TreeNode) : outcome (list (list Z)) :=
  match root with
  | nullptr => Ret []
  | Node _ _ _ => while_loop (S (nodes root)) [root] []
  end.

(** ** Vocabulary *)

(** The number of levels of a tree. *)
Fixpoint height (t : TreeNode) : nat :=
  match t with
  | nullptr => O
  | Node l _ r => S (height l `max` height r)
  end.

(** The values at depth [k], from left to right. *)
Fixpoint at_depth (k : nat) (t : TreeNode) {struct t} : list Z :=
  match t with
  | nullptr => []
  | Node l v r =>
      match k with
      | O => [v]
      | S k' => at_depth k' l ++ at_depth k' r
      end
  end.

(** The values of a tree, in preorder. *)
Fixpoint values (t : TreeNode) : list Z :=
  match t with
  | nullptr => []
  | Node l v r => v :: values l ++ values r
  end.

(** The same for a queue of trees. *)
Definition heights (q : list TreeNode) : nat := max_list (height <$> q).
Definition at_depths (k : nat) (q : list TreeNode) : list Z :=
  q ≫= at_depth k.

(** The children of the nodes of a queue, in order. *)
Definition children (t : TreeNode) : list TreeNode :=
  match t with
  | nullptr => []
  | Node l _ r => push_if r (push_if l [])
  end.

Definition is_node (t : TreeNode) : Prop :=
  match t with nullptr => False | Node _ _ _ => True end.

Definition nodes_list (q : list TreeNode) : nat := sum_list (nodes <$> q).

(** The levels of a queue of trees. *)
Definition levels_of (q : list TreeNode) : list (list Z) :=
  (λ k, at_depths k q) <$> seq 0 (heights q).

End Bfs.

(** * Shortest paths from one node: [dijkstra] *)

Module Dijkstra.

Import Int32.

(** [operator<] of [pair<int,int>]: by the first components, then by the
    second. *)
Definition pair_lt (a b : Z * Z) : Prop :=
  a.1 < b.1 ∨ (¬ b.1 < a.1 ∧ a.2 < b.2).

#[export] Instance pair_lt_dec a b : Decision (pair_lt a b).
Proof. unfold pair_lt. apply _. Defined.

(** The priority queue [pq] orders its pairs with [greater<>], so that
    [top] is a least pair. Least pairs being equal pairs, the queue is kept
    as the list of its pairs in increasing order: [push] puts a pair at its
    place, [top] is the head and [pop] leaves the tail. *)
Fixpoint push (x : Z * Z) (pq : list (Z * Z)) : list (Z * Z) :=
  match pq with
  | [] => [x]
  | y :: pq' => if decide (pair_lt y x) then y :: push x pq' else x :: pq
  end.

(** [adj[node]]: [None] outside the vector. *)
Definition row (adj : list (list (Z * Z))) (node : Z)
    : option (list (Z * Z)) :=
  if decide (0 ≤ node) then adj !! Z.to_nat node else None.

(** [for (auto& it : adj[node])] over the pairs [es] that are left:
    [if (d + weight < dis[adjNode])] the entry of [adjNode] becomes
    [d + weight] and the pair of the two is pushed. *)
Fixpoint relax (d : Z) (es : list (Z * Z)) (dis : list Z) (pq : list (Z * Z))
    : outcome (list Z * list (Z * Z)) :=
  match es with
  | [] => Ret (dis, pq)
  | (weight, adjNode) :: es' =>
      match Vec.get dis adjNode with
      | None => Undef
      | Some x =>
          if decide (add32 d weight < x) then
            match Vec.set dis adjNode (add32 d weight) with
            | Some dis' =>
                relax d es' dis' (push (add32 d weight, adjNode) pq)
            | None => Undef
            end
          else relax d es' dis pq
      end
  end.

(** [while (!pq.empty())], with an allowance of [fuel] rounds. *)
Fixpoint while_loop (fuel : nat) (adj : list (list (Z * Z)))
    (dis : list Z) (pq : list (Z * Z)) : outcome (list Z) :=
  match fuel with
  | O => Diverge
  | S fuel' =>
      match pq with
      | [] => Ret dis
      | (d, node) :: pq' =>
          match Vec.get dis node with
          | None => Undef
          | Some x =>
              if decide (d > x) then while_loop fuel' adj dis pq'
              else
                match row adj node with
                | None => Undef
                | Some es =>
                    match relax d es dis pq' with
                    | Ret (dis', pq'') => while_loop fuel' adj dis' pq''
                    | Throw e => Throw e
                    | Undef => Undef
                    | Diverge => Diverge
                    end
                end
          end
      end
  end.

(** [dijkstra(adj, V, s)], the [while] loop being allowed [fuel] rounds.
    [vector<int> dis(V, INT_MAX)] converts [V] to [size_t] and raises
    [length_error] for a count above [max_size()]. *)
Definition dijkstra (fuel : nat) (adj : list (list (Z * Z))) (V s : Z)
    : outcome (list Z) :=
  let m := to_size_t V in
  if decide (m ≤ max_size) then
    match Vec.set (Vec.resize m INT_MAX) s 0 with
    | Some dis => while_loop fuel adj dis (push (0, s) [])
    | None => Undef
    end
  else Throw length_error.

(** ** Vocabulary *)

(** [adj[u]] holds the pair [(w, v)]: an edge from [u] to [v] of weight
    [w]. *)
Definition edge (adj : list (list (Z * Z))) (u w v : Z) : Prop :=
  ∃ es, row adj u = Some es ∧ (w, v) ∈ es.

(** A walk from [s] along edges, with the sum of its weights (as an
    integer, without wrap-around). *)
Inductive walk (adj : list (list (Z * Z))) (s : Z) : Z → Z → Prop :=
| walk_here : walk adj s s 0
| walk_step u v w W :
    walk adj s u W → edge adj u w v → walk adj s v (W + w).

(** [D] is the least weight of a walk from [s] to [v]. *)
Definition shortest (adj : list (list (Z * Z))) (s v D : Z) : Prop :=
  walk adj s v D ∧ ∀ W, walk adj s v W → D ≤ W.

(** The adjacency vector has a row for each of the nodes [0..V-1], and the
    edges of these rows lead to these nodes. *)
Definition fits (adj : list (list (Z * Z))) (V : Z) : Prop :=
  V ≤ Z.of_nat (length adj) ∧
  ∀ u w v, 0 ≤ u < V → edge adj u w v → 0 ≤ v < V.

(** No weight is negative. *)
Definition nonneg (adj : list (list (Z * Z))) : Prop :=
  ∀ u w v, edge adj u w v → 0 ≤ w.

(** None of the pairs [es] can lower an entry any more when they come
    after a node whose entry is [x]. *)
Definition relaxed_on (es : list (Z * Z)) (dis : list Z) (x : Z) : Prop :=
  ∀ w v, (w, v) ∈ es → ∃ y, Vec.get dis v = Some y ∧ y ≤ add32 x w.

(** No edge out of [u] can lower an entry any more, [x] being the entry
    of [u]. *)
Definition settled (adj : list (list (Z * Z))) (dis : list Z) (u x : Z)
    : Prop :=
  ∃ es, row adj u = Some es ∧ relaxed_on es dis x.

(** ** The state of the loop *)

(** The pairs of the queue are in the order of their first components. *)
Fixpoint sorted (pq : list (Z * Z)) : Prop :=
  match pq with
  | [] => True
  | a :: pq' => (∀ b, b ∈ pq' → a.1 ≤ b.1) ∧ sorted pq'
  end.

(** How far the entries are above [INT_MIN], all together; and what
    bounds the rounds that are left: every round takes a pair from the
    queue, and every push lowers an entry. *)
Definition slack (dis : list Z) : Z :=
  foldr (λ x a, (x - INT_MIN) + a) 0 dis.

Definition measure (dis : list Z) (pq : list (Z * Z)) : Z :=
  Z.of_nat (length pq) + 2 * slack dis.

(** Every pair of the queue names a node of [dis], with a distance that
    is not below the entry of the node. *)
Definition queued_ok (dis : list Z) (pq : list (Z * Z)) : Prop :=
  ∀ d u, (d, u) ∈ pq → ∃ x, Vec.get dis u = Some x ∧ x ≤ d.

Definition source_ok (dis : list Z) (s : Z) : Prop :=
  ∃ x, Vec.get dis s = Some x ∧ x ≤ 0.

(** Every node with an entry other than [INT_MAX] waits in the queue with
    that entry, or is settled, or is the one the [for] loop is at
    ([now]). *)
Definition tracked (adj : list (list (Z * Z))) (dis : list Z)
    (pq : list (Z * Z)) (now : Z → Z → Prop) : Prop :=
  ∀ u x, Vec.get dis u = Some x → x ≠ INT_MAX →
         (x, u) ∈ pq ∨ settled adj dis u x ∨ now u x.

Definition nothing (u x : Z) : Prop := False.

(** The [for] loop is at [node], taken from the queue with distance [d],
    and has gone through the pairs [es0]. *)
Definition at_node (node d : Z) (es0 : list (Z * Z)) (dis : list Z)
    (u x : Z) : Prop :=
  u = node ∧ x = d ∧ relaxed_on es0 dis d.

(** What holds of the state whenever the [while] loop tests its
    condition, for every graph. *)
Definition loop_inv (adj : list (list (Z * Z))) (V s : Z) (dis : list Z)
    (pq : list (Z * Z)) : Prop :=
  Z.of_nat (length dis) = V ∧ queued_ok dis pq ∧ source_ok dis s ∧
  tracked adj dis pq nothing.

(** The same inside the [for] loop. *)
Definition for_inv (adj : list (list (Z * Z))) (V s node d : Z)
    (es0 : list (Z * Z)) (dis : list Z) (pq : list (Z * Z)) : Prop :=
  Z.of_nat (length dis) = V ∧ queued_ok dis pq ∧ source_ok dis s ∧
  tracked adj dis pq (at_node node d es0 dis).

(** What holds in addition when no weight is negative and no sum goes
    past [INT_MAX]: the entries and the queued distances are weights of
    walks, and an entry that does not wait in the queue is a least one. *)
Definition least_inv (adj : list (list (Z * Z))) (s : Z) (dis : list Z)
    (pq : list (Z * Z)) : Prop :=
  sorted pq ∧
  (∀ u x, Vec.get dis u = Some x → x ≤ INT_MAX) ∧
  (∀ u x, Vec.get dis u = Some x → x ≠ INT_MAX → walk adj s u x) ∧
  (∀ d u, (d, u) ∈ pq → walk adj s u d ∧ d < INT_MAX) ∧
  (∀ u x, Vec.get dis u = Some x → x ≠ INT_MAX →
          (x, u) ∈ pq ∨ shortest adj s u x).

(** No access of the loop leaves the vectors. *)
Definition safe (V : Z) (dis : list Z) (pq : list (Z * Z)) : Prop :=
  Z.of_nat (length dis) = V ∧ ∀ d u, (d, u) ∈ pq → 0 ≤ u < V.

End Dijkstra.

(** * Notifications and their decorators *)

Module Notification.

(** The objects behind an [INotification *]: a [SimpleNotification] with
    its [text], or a decorator with the [notification] it wraps. *)
Inductive INotification : Type :=
| SimpleNotification (text : string)
| TimestampDecorator (notification : INotification)
| SignatureDecorator (notification : INotification) (signature : string).

Definition newline : string := String (Ascii.ascii_of_nat 10) "".

Definition stamp : string := "[2025-04-13 14:22:00] ".

(** [getContent()], by the class of the object. *)
Fixpoint getContent (n : INotification) : string :=
  match n with
  | SimpleNotification text => text
  | TimestampDecorator n' => stamp +:+ getContent n'
  | SignatureDecorator n' signature =>
      ((getContent n' +:+ (newline +:+ "-- ")) +:+ signature)
      +:+ (newline +:+ newline)
  end.

(** ** Vocabulary *)

(** The text of the notification inside, the number of timestamp
    decorators around it, and the signatures around it from the inside
    out. *)
Fixpoint text_of (n : INotification) : string :=
  match n with
  | SimpleNotification text => text
  | TimestampDecorator n' => text_of n'
  | SignatureDecorator n' _ => text_of n'
  end.

Fixpoint stamps (n : INotification) : nat :=
  match n with
  | SimpleNotification _ => O
  | TimestampDecorator n' => S (stamps n')
  | SignatureDecorator n' _ => stamps n'
  end.

Fixpoint signatures (n : INotification) : list string :=
  match n with
  | SimpleNotification _ => []
  | TimestampDecorator n' => signatures n'
  | SignatureDecorator n' signature => signatures n' ++ [signature]
  end.

(** What one signature adds at the end. *)
Definition signed (signature : string) : string :=
  newline +:+ "-- " +:+ signature +:+ newline +:+ newline.

(** The strings of a list, one after the other. *)
Definition join (l : list string) : string := foldr String.append "" l.

End Notification.

(** * Facts about vectors *)

Module VecFacts.

Lemma get_Some_inside (l : list Z) i x : Vec.get l i = Some x → inside l i.
Proof.
  unfold Vec.get, inside. case_decide; [|done].
  intros Hl%lookup_lt_Some. lia.
Qed.

Lemma get_inside (l : list Z) i : inside l i → is_Some (Vec.get l i).
Proof.
  unfold Vec.get, inside. intros [H0 H1]. rewrite decide_True by done.
  apply lookup_lt_is_Some. lia.
Qed.

Lemma get_outside (l : list Z) i : ¬ inside l i → Vec.get l i = None.
Proof.
  unfold Vec.get, inside. intros Hout. case_decide; [|done].
  apply lookup_ge_None. lia.
Qed.

Lemma set_inside (l : list Z) i x : inside l i → Vec.set l i x = Some (upd l i x).
Proof. unfold Vec.set, inside. intros H. by rewrite decide_True. Qed.

Lemma length_upd (l : list Z) i x : length (upd l i x) = length l.
Proof. apply length_insert. Qed.

Lemma inside_upd (l : list Z) i x j : inside (upd l i x) j ↔ inside l j.
Proof. unfold inside. by rewrite length_upd. Qed.

Lemma get_upd_eq (l : list Z) i x : inside l i → Vec.get (upd l i x) i = Some x.
Proof.
  unfold Vec.get, upd, inside. intros [H0 H1]. rewrite decide_True by done.
  apply list_lookup_insert_eq. lia.
Qed.

Lemma get_upd_ne (l : list Z) i j x :
  0 ≤ i → i ≠ j → Vec.get (upd l i x) j = Vec.get l j.
Proof.
  unfold Vec.get, upd. intros H0 Hne. case_decide; [|done].
  apply list_lookup_insert_ne. lia.
Qed.

Lemma upd_id (l : list Z) i x : Vec.get l i = Some x → upd l i x = l.
Proof.
  unfold Vec.get, upd. case_decide; [|done]. apply list_insert_id.
Qed.

Lemma get_replicate (k : nat) (x : Z) i :
  0 ≤ i < Z.of_nat k → Vec.get (replicate k x) i = Some x.
Proof.
  unfold Vec.get. intros [H0 H1]. rewrite decide_True by done.
  apply lookup_replicate_2. lia.
Qed.

End VecFacts.

Import VecFacts.

(** * Facts about forests *)

Module ForestFacts.

Lemma path_det p x l r l' r' :
  path p x l r → path p x l' r' → l = l' ∧ r = r'.
Proof.
  intros H. revert l' r'.
  induction H as [x Hx | x j l r Hx Hne Hp IH]; intros l' r' H'.
  - inversion H' as [? Hx' | ? j' ? ? Hx' Hne' Hp']; subst; [done|].
    congruence.
  - inversion H' as [? Hx' | ? j' ? ? Hx' Hne' Hp']; subst; [congruence|].
    assert (j' = j) as -> by congruence.
    destruct (IH _ _ Hp') as [-> ->]. done.
Qed.

Lemma path_inside p x l r : path p x l r → inside p x.
Proof. destruct 1; eauto using get_Some_inside. Qed.

Lemma path_end_root p x l r : path p x l r → is_root p r.
Proof. induction 1; eauto. Qed.

Lemma path_of_root p r l r' : is_root p r → path p r l r' → l = [] ∧ r' = r.
Proof.
  intros Hr H. destruct (path_det _ _ _ _ _ _ (path_root p r Hr) H). done.
Qed.

(** Every element on a path has its own path to the same root, a suffix
    of the first. *)
Lemma path_suffix p x l r y :
  path p x l r → y ∈ l →
  ∃ l', path p y (y :: l') r ∧ (length l' < length l)%nat.
Proof.
  induction 1 as [x Hx | x j l r Hx Hne Hp IH]; intros Hy.
  - by apply elem_of_nil in Hy.
  - apply elem_of_cons in Hy as [-> | Hy].
    + exists l. split; [by eapply path_step | simpl; lia].
    + destruct (IH Hy) as (l' & Hl' & Hlen). exists l'. split; [done|].
      simpl. lia.
Qed.

Lemma path_root_not_in p x l r : path p x l r → r ∉ l.
Proof.
  intros H Hin. destruct (path_suffix _ _ _ _ _ H Hin) as (l' & Hl' & _).
  pose proof (path_end_root _ _ _ _ H) as Hr.
  by destruct (path_of_root _ _ _ _ Hr Hl').
Qed.

Lemma path_NoDup p x l r : path p x l r → NoDup l.
Proof.
  induction 1 as [x Hx | x j l r Hx Hne Hp IH]; [constructor|].
  constructor; [|done]. intros Hin.
  destruct (path_suffix _ _ _ _ _ Hp Hin) as (l' & Hl' & Hlen).
  destruct (path_det _ _ _ _ _ _ Hl' (path_step _ _ _ _ _ Hx Hne Hp))
    as [Heq _].
  injection Heq as ->. lia.
Qed.

Lemma path_elem_inside p x l r y : path p x l r → y ∈ l → inside p y.
Proof.
  intros H Hy. destruct (path_suffix _ _ _ _ _ H Hy) as (l' & Hl' & _).
  by eapply path_inside.
Qed.

(** The elements on a path are distinct elements of the vector and the
    root is one more: the path is shorter than the vector. *)
Lemma path_length p x l r : path p x l r → (length l < length p)%nat.
Proof.
  intros H.
  assert (NoDup (r :: l)) as Hnd.
  { constructor; eauto using path_root_not_in, path_NoDup. }
  assert (r :: l ⊆+ seqZ 0 (Z.of_nat (length p))) as Hsub.
  { apply NoDup_submseteq; [done|]. intros y Hy. apply elem_of_seqZ.
    apply elem_of_cons in Hy as [-> | Hy].
    - apply path_end_root, get_Some_inside in H. unfold inside in H. lia.
    - pose proof (path_elem_inside _ _ _ _ _ H Hy) as Hi.
      unfold inside in Hi. lia. }
  apply submseteq_length in Hsub. rewrite length_seqZ in Hsub.
  simpl in Hsub. lia.
Qed.

(** The same for a chain that leaves the vector. *)
Lemma escape_det p x l l' : escape p x l → escape p x l' → l = l'.
Proof.
  intros H. revert l'.
  induction H as [x Hx | x j l Hx Hne Hp IH]; intros l' H'.
  - inversion H'; subst; [done | congruence].
  - inversion H' as [? Hx' | ? j' ? Hx' Hne' Hp']; subst; [congruence|].
    assert (j' = j) as -> by congruence. by rewrite (IH _ Hp').
Qed.

Lemma escape_suffix p x l y :
  escape p x l → y ∈ l →
  inside p y ∧ ∃ l', escape p y (y :: l') ∧ (length l' < length l)%nat.
Proof.
  induction 1 as [x Hx | x j l Hx Hne Hp IH]; intros Hy.
  - by apply elem_of_nil in Hy.
  - apply elem_of_cons in Hy as [-> | Hy].
    + split; [by eapply get_Some_inside|].
      exists l. split; [by eapply escape_step | simpl; lia].
    + destruct (IH Hy) as (Hin & l' & Hl' & Hlen). split; [done|].
      exists l'. split; [done | simpl; lia].
Qed.

Lemma escape_NoDup p x l : escape p x l → NoDup l.
Proof.
  induction 1 as [x Hx | x j l Hx Hne Hp IH]; [constructor|].
  constructor; [|done]. intros Hin.
  destruct (escape_suffix _ _ _ _ Hp Hin) as (_ & l' & Hl' & Hlen).
  pose proof (escape_det _ _ _ _ Hl' (escape_step _ _ _ _ Hx Hne Hp)) as Heq.
  injection Heq as ->. lia.
Qed.

Lemma escape_length p x l : escape p x l → (length l ≤ length p)%nat.
Proof.
  intros H.
  assert (l ⊆+ seqZ 0 (Z.of_nat (length p))) as Hsub.
  { apply NoDup_submseteq; [by eapply escape_NoDup|]. intros y Hy.
    apply elem_of_seqZ.
    destruct (escape_suffix _ _ _ _ H Hy) as [Hin _]. unfold inside in Hin. lia. }
  apply submseteq_length in Hsub. rewrite length_seqZ in Hsub. lia.
Qed.

(** *** Re-parenting one element to its root *)

Lemma path_upd_root p x l r y ly ry :
  path p x l r → path p y ly ry → root_of (upd p x r) y ry.
Proof.
  intros Hx. pose proof (path_inside _ _ _ _ Hx) as Hin.
  pose proof (path_end_root _ _ _ _ Hx) as Hr.
  induction 1 as [y Hy | y j ly ry Hy Hne Hp IH].
  - exists []. apply path_root. destruct (decide (x = y)) as [-> | Hxy].
    + destruct (path_of_root _ _ _ _ Hy Hx) as [_ ->]. by apply get_upd_eq.
    + rewrite get_upd_ne; [done | apply Hin | done].
  - destruct (decide (x = y)) as [-> | Hxy].
    + destruct (path_det _ _ _ _ _ _ Hx (path_step _ _ _ _ _ Hy Hne Hp))
        as [_ ->].
      assert (y ≠ ry) as Hyr by (unfold is_root in Hr; congruence).
      exists [y]. eapply path_step; [by apply get_upd_eq | done |].
      apply path_root. rewrite get_upd_ne; [done | apply Hin | done].
    + destruct IH as [l' Hl']. exists (y :: l').
      eapply path_step; [|done|done].
      rewrite get_upd_ne; [done | apply Hin | done].
Qed.

Lemma keeps_roots_refl p : keeps_roots p p.
Proof. by split. Qed.

Lemma keeps_roots_trans p1 p2 p3 :
  keeps_roots p1 p2 → keeps_roots p2 p3 → keeps_roots p1 p3.
Proof. intros [L1 H1] [L2 H2]. split; [congruence | eauto]. Qed.

Lemma keeps_roots_forest p p' : forest p → keeps_roots p p' → forest p'.
Proof.
  intros Hf [Hlen Hk] x Hx.
  destruct (Hf x) as (l & r & Hp); [unfold inside in *; by rewrite <- Hlen|].
  destruct (Hk x r) as [l' Hl']; [by exists l|]. by exists l', r.
Qed.

(** With [p] a forest the roots are kept in both directions. *)
Lemma keeps_roots_inv p p' y r :
  forest p → keeps_roots p p' → root_of p' y r → root_of p y r.
Proof.
  intros Hf [Hlen Hk] [l' Hl'].
  destruct (Hf y) as (l & r0 & Hp).
  { apply path_inside in Hl'. unfold inside in *. by rewrite <- Hlen. }
  destruct (Hk y r0) as [l0 Hl0]; [by exists l|].
  destruct (path_det _ _ _ _ _ _ Hl' Hl0) as [_ ->]. by exists l.
Qed.

Lemma keeps_roots_upd p x l r : path p x l r → keeps_roots p (upd p x r).
Proof.
  intros Hx. split; [apply length_upd|].
  intros y ry [ly Hy]. by eapply path_upd_root.
Qed.

(** *** Path compression *)

Lemma length_compress p l r : length (compress p l r) = length p.
Proof.
  induction l as [|y l IH]; [done|]. simpl. by rewrite length_upd.
Qed.

Lemma keeps_roots_compress p x l r :
  path p x l r → keeps_roots p (compress p l r).
Proof.
  induction 1 as [x Hx | x j l r Hx Hne Hp IH]; [apply keeps_roots_refl|].
  simpl. eapply keeps_roots_trans; [apply IH|].
  destruct IH as [_ Hk].
  destruct (Hk x r) as [l' Hl']; [exists (x :: l); by eapply path_step|].
  by eapply keeps_roots_upd.
Qed.

Lemma get_compress_other p l r y :
  Forall (inside p) l → y ∉ l → Vec.get (compress p l r) y = Vec.get p y.
Proof.
  induction 1 as [|x l Hx Hl IH]; [done|]. intros Hy.
  apply not_elem_of_cons in Hy as [Hne Hy]. simpl.
  rewrite get_upd_ne; [by apply IH | apply Hx | done].
Qed.

Lemma get_compress_on p l r y :
  Forall (inside p) l → y ∈ l → Vec.get (compress p l r) y = Some r.
Proof.
  induction 1 as [|x l Hx Hl IH]; intros Hy; [by apply elem_of_nil in Hy|].
  simpl. destruct (decide (x = y)) as [-> | Hne].
  - apply get_upd_eq. unfold inside. by rewrite length_compress.
  - apply elem_of_cons in Hy as [-> | Hy]; [done|].
    rewrite get_upd_ne; [by apply IH | apply Hx | done].
Qed.

Lemma path_Forall_inside p x l r : path p x l r → Forall (inside p) l.
Proof.
  intros H. apply list.Forall_forall. intros y Hy.
  exact (path_elem_inside _ _ _ _ _ H Hy).
Qed.

(** After compression the root is still a root and every element of the
    path points at it. *)
Lemma compress_root p x l r : path p x l r → is_root (compress p l r) r.
Proof.
  intros H. unfold is_root. rewrite get_compress_other.
  - by eapply path_end_root.
  - by eapply path_Forall_inside.
  - by eapply path_root_not_in.
Qed.

Lemma compress_flat p x l r y :
  path p x l r → y ∈ l ++ [r] → Vec.get (compress p l r) y = Some r.
Proof.
  intros H Hy. apply elem_of_app in Hy as [Hy | Hy].
  - eapply get_compress_on; eauto using path_Forall_inside.
  - apply list_elem_of_singleton in Hy as ->. by eapply compress_root.
Qed.

(** *** Linking a root under another *)

Lemma path_link p a b y l r :
  is_root p a → is_root p b → path p y l r →
  root_of (upd p a b) y (if decide (r = a) then b else r).
Proof.
  intros Ha Hb. pose proof (get_Some_inside _ _ _ Ha) as Hin.
  induction 1 as [y Hy | y j l r Hy Hne Hp IH].
  - destruct (decide (y = a)) as [-> | Hya].
    + destruct (decide (a = b)) as [<- | Hab].
      * exists []. apply path_root. by apply get_upd_eq.
      * exists [a]. eapply path_step; [by apply get_upd_eq | done |].
        apply path_root. rewrite get_upd_ne; [done | apply Hin | done].
    + exists []. apply path_root.
      rewrite get_upd_ne; [done | apply Hin | done].
  - assert (a ≠ y) as Hay by (unfold is_root in Ha; congruence).
    destruct IH as [l' Hl']. exists (y :: l').
    eapply path_step; [|done|done].
    rewrite get_upd_ne; [done | apply Hin | done].
Qed.

Lemma forest_link p a b :
  forest p → is_root p a → is_root p b → forest (upd p a b).
Proof.
  intros Hf Ha Hb x Hx. apply (proj1 (inside_upd _ _ _ _)) in Hx.
  destruct (Hf x Hx) as (l & r & Hp).
  destruct (path_link p a b x l r Ha Hb Hp) as [l' Hl']. eauto.
Qed.

Lemma root_of_det p x r r' : root_of p x r → root_of p x r' → r = r'.
Proof. intros [l H] [l' H']. by destruct (path_det _ _ _ _ _ _ H H'). Qed.

Lemma root_of_inside p x r : root_of p x r → inside p x ∧ inside p r.
Proof.
  intros [l H]. split; [by eapply path_inside|].
  eapply get_Some_inside, path_end_root, H.
Qed.

End ForestFacts.

Import ForestFacts.

(** * The methods on well-formed states *)

Module Methods.

(** ** Monad and field accesses *)

Lemma bind_Ret {A B} (m : M A) (k : A → M B) s a s' :
  m s = Ret (a, s') → bind m k s = k a s'.
Proof. unfold bind. by intros ->. Qed.

Lemma read_Ret f i s x : Vec.get (f s) i = Some x → read f i s = Ret (x, s).
Proof. unfold read. by intros ->. Qed.

Lemma read_Undef f i s : ¬ inside (f s) i → read f i s = Undef.
Proof. unfold read. intros H. by rewrite get_outside. Qed.

Lemma write_Ret f u i x s :
  inside (f s) i → write f u i x s = Ret (tt, u (upd (f s) i x) s).
Proof. unfold write. intros H. by rewrite set_inside. Qed.

Lemma with_parent_id s : with_parent (parent s) s = s.
Proof. by destruct s. Qed.

Lemma compressed_trans s1 s2 s3 :
  compressed s1 s2 → compressed s2 s3 → compressed s1 s3.
Proof.
  intros [R1 S1 K1] [R2 S2 K2].
  split; [congruence | congruence | by eapply keeps_roots_trans].
Qed.

Lemma compressed_wf s s' : wf s → compressed s s' → wf s'.
Proof.
  intros [Hr Hs Hf] [R S K]. pose proof K as [Hlen _].
  split; [congruence | congruence | by eapply keeps_roots_forest].
Qed.

Lemma compressed_elem s s' x : compressed s s' → elem s' x ↔ elem s x.
Proof. intros [_ _ [Hlen _]]. unfold elem, inside. by rewrite Hlen. Qed.

(** ** findUp *)

(** Fuel beyond what a call needs does not change its result. *)
Lemma findUp_fuel_mono k k' x s :
  is_Ret (findUp_fuel k x s) = true → (k ≤ k')%nat →
  findUp_fuel k' x s = findUp_fuel k x s.
Proof.
  revert k' x. induction k as [|k IH]; intros k' x Hret Hle; [done|].
  destruct k' as [|k']; [lia|]. simpl in *. unfold bind in *.
  destruct (read_parent x s) as [[p s1]| | |] eqn:Hrd; try done.
  assert (s1 = s) as ->.
  { unfold read_parent, read in Hrd. by destruct (Vec.get _ _); simplify_eq. }
  case_decide; [done|].
  destruct (findUp_fuel k p s) as [[r s2]| | |] eqn:Hrec; try done.
  rewrite (IH k' p); [by rewrite Hrec | by rewrite Hrec | lia].
Qed.

Lemma findUp_fuel_path s x l r fuel :
  path (parent s) x l r → (length l < fuel)%nat →
  findUp_fuel fuel x s = Ret (r, with_parent (compress (parent s) l r) s).
Proof.
  intros H. revert fuel.
  induction H as [x Hx | x j l r Hx Hne Hp IH]; intros fuel Hfuel.
  - destruct fuel as [|k]; [simpl in Hfuel; lia|]. simpl.
    erewrite bind_Ret by (by apply read_Ret).
    rewrite decide_True by done. unfold ret. by rewrite with_parent_id.
  - destruct fuel as [|k]; [simpl in Hfuel; lia|]. simpl in *.
    erewrite bind_Ret by (by apply read_Ret).
    rewrite decide_False by done.
    erewrite bind_Ret by (apply IH; lia).
    erewrite bind_Ret; [done|]. unfold write_parent.
    rewrite write_Ret; [done|]. simpl. unfold inside.
    rewrite length_compress. by eapply get_Some_inside.
Qed.

(** [findUp] on an element of a well-formed state: it returns the root of
    the element and leaves the state with the path compressed. *)
Lemma findUp_path s x l r :
  path (parent s) x l r →
  findUp x s = Ret (r, with_parent (compress (parent s) l r) s).
Proof.
  intros H. unfold findUp. apply findUp_fuel_path; [done|].
  apply path_length in H. lia.
Qed.

(** A call that returns with some number of calls allowed has followed a
    path to a root, and [findUp], with its fixed allowance, returns the
    same. *)
Lemma findUp_fuel_Ret_path k x s r s' :
  findUp_fuel k x s = Ret (r, s') →
  ∃ l, path (parent s) x l r ∧ (length l < k)%nat.
Proof.
  revert x r s'. induction k as [|k IH]; intros x r s' H; [done|].
  simpl in H. unfold bind, read_parent, read in H.
  destruct (Vec.get (parent s) x) as [p|] eqn:Hx; [|done].
  destruct (decide (x = p)) as [<- | Hne].
  - unfold ret in H. simplify_eq. exists []. split; [by constructor | simpl; lia].
  - destruct (findUp_fuel k p s) as [[r0 s0]| | |] eqn:Hrec; try done.
    destruct (IH _ _ _ Hrec) as (l & Hl & Hlen).
    unfold write_parent, write in H.
    destruct (Vec.set (parent s0) x r0); [|done].
    unfold ret in H. simplify_eq.
    exists (x :: l). split; [by eapply path_step | simpl; lia].
Qed.

Lemma findUp_fuel_enough k x s a :
  findUp_fuel k x s = Ret a → findUp x s = Ret a.
Proof.
  destruct a as [r s']. intros H.
  destruct (findUp_fuel_Ret_path _ _ _ _ _ H) as (l & Hl & Hlen).
  rewrite (findUp_path _ _ _ _ Hl).
  by rewrite (findUp_fuel_path _ _ _ _ _ Hl Hlen) in H.
Qed.

(** Likewise for the calls that end in a read outside the vector, so that
    [findUp] has the outcome of [findUp_fuel] with any number of calls that
    is not used up. *)
Lemma findUp_fuel_escape s x l fuel :
  escape (parent s) x l → (length l < fuel)%nat →
  findUp_fuel fuel x s = Undef.
Proof.
  intros H. revert fuel.
  induction H as [x Hx | x j l Hx Hne Hp IH]; intros fuel Hfuel;
    (destruct fuel as [|k]; [simpl in Hfuel; lia|]); simpl.
  - unfold bind, read_parent, read. by rewrite Hx.
  - erewrite bind_Ret by (by apply read_Ret).
    rewrite decide_False by done. unfold bind.
    rewrite IH; [done | simpl in Hfuel; lia].
Qed.

Lemma findUp_fuel_Undef_escape k x s :
  findUp_fuel k x s = Undef →
  ∃ l, escape (parent s) x l ∧ (length l < k)%nat.
Proof.
  revert x. induction k as [|k IH]; intros x H; [done|].
  simpl in H. unfold bind, read_parent, read in H.
  destruct (Vec.get (parent s) x) as [p|] eqn:Hx.
  - destruct (decide (x = p)) as [<- | Hne]; [done|].
    destruct (findUp_fuel k p s) as [[r0 s0]| | |] eqn:Hrec; try done.
    + destruct (findUp_fuel_Ret_path _ _ _ _ _ Hrec) as (l & Hl & Hlen).
      rewrite (findUp_fuel_path _ _ _ _ _ Hl Hlen) in Hrec. simplify_eq.
      unfold write_parent in H. rewrite write_Ret in H; [done|].
      simpl. unfold inside. rewrite length_compress.
      by eapply get_Some_inside.
    + destruct (IH _ Hrec) as (l & Hl & Hlen).
      exists (x :: l). split; [by eapply escape_step | simpl; lia].
  - exists []. split; [by constructor | simpl; lia].
Qed.

Lemma findUp_fuel_not_Throw k x s e : findUp_fuel k x s ≠ Throw e.
Proof.
  revert x. induction k as [|k IH]; intros x; [done|].
  simpl. unfold bind, read_parent, read, write_parent, write, ret.
  destruct (Vec.get (parent s) x) as [p|]; [|done].
  case_decide; [done|]. specialize (IH p).
  destruct (findUp_fuel k p s) as [[r0 s0]| | |]; try done.
  by destruct (Vec.set _ _ _).
Qed.

Lemma findUp_fuel_adequate k x s :
  findUp_fuel k x s ≠ Diverge → findUp x s = findUp_fuel k x s.
Proof.
  intros Hk. destruct (findUp_fuel k x s) as [a|e| |] eqn:H.
  - by apply findUp_fuel_enough in H.
  - by apply findUp_fuel_not_Throw in H.
  - destruct (findUp_fuel_Undef_escape _ _ _ H) as (l & Hl & Hlen).
    unfold findUp. apply (findUp_fuel_escape _ _ l); [done|].
    apply escape_length in Hl. lia.
  - done.
Qed.

Lemma findUp_wf s x :
  wf s → elem s x →
  ∃ l r, path (parent s) x l r ∧
         findUp x s = Ret (r, with_parent (compress (parent s) l r) s).
Proof.
  intros Hwf Hx. destruct (wf_forest _ Hwf x Hx) as (l & r & Hp).
  exists l, r. split; [done | by apply findUp_path].
Qed.

Lemma compressed_compress s x l r :
  path (parent s) x l r →
  compressed s (with_parent (compress (parent s) l r) s).
Proof. intros H. split; [done | done | by eapply keeps_roots_compress]. Qed.

(** Outside the vector the first read of [parent] is already undefined,
    however many calls are allowed. *)
Lemma findUp_fuel_outside k s x : ¬ elem s x → findUp_fuel (S k) x s = Undef.
Proof.
  intros H. simpl. unfold bind, read_parent. by rewrite read_Undef.
Qed.

Lemma findUp_outside s x : ¬ elem s x → findUp x s = Undef.
Proof. intros H. unfold findUp. by apply findUp_fuel_outside. Qed.

Lemma findUp_spec s x :
  wf s → elem s x →
  ∃ r s', findUp x s = Ret (r, s') ∧ root_of (parent s) x r ∧
          compressed s s' ∧ is_root (parent s') r ∧ wf s'.
Proof.
  intros Hwf Hx. destruct (findUp_wf s x Hwf Hx) as (l & r & Hp & Hf).
  pose proof (compressed_compress s x l r Hp) as Hc.
  eexists r, _. split; [exact Hf|]. split; [by exists l|].
  split; [done|]. split; [by eapply compress_root | by eapply compressed_wf].
Qed.

Lemma is_root_keeps p p' r : keeps_roots p p' → is_root p r → is_root p' r.
Proof.
  intros [_ Hk] Hr. destruct (Hk r r) as [l Hl]; [by exists []; constructor|].
  by eapply path_end_root.
Qed.

(** The two calls of [findUp] that open [unionByRank], [unionBySize] and
    [isComponent]. *)
Lemma two_finds s u v :
  wf s → elem s u → elem s v →
  ∃ ru s1 rv s2,
    findUp u s = Ret (ru, s1) ∧ findUp v s1 = Ret (rv, s2) ∧
    root_of (parent s) u ru ∧ root_of (parent s) v rv ∧
    compressed s s2 ∧ is_root (parent s2) ru ∧ is_root (parent s2) rv ∧
    wf s2.
Proof.
  intros Hwf Hu Hv.
  destruct (findUp_spec s u Hwf Hu) as (ru & s1 & F1 & R1 & C1 & I1 & W1).
  assert (elem s1 v) as Hv1 by by apply (compressed_elem s s1).
  destruct (findUp_spec s1 v W1 Hv1) as (rv & s2 & F2 & R2 & C2 & I2 & W2).
  exists ru, s1, rv, s2. split_and!; try done.
  - eapply keeps_roots_inv; [by apply wf_forest | apply C1 | done].
  - by eapply compressed_trans.
  - eapply is_root_keeps; [apply C2 | done].
Qed.

Lemma link_wf a b s :
  wf s → is_root (parent s) a → is_root (parent s) b → wf (link a b s).
Proof.
  intros [Hr Hs Hf] Ha Hb. split; simpl; rewrite ?length_upd; try done.
  by apply forest_link.
Qed.

Lemma with_rank_wf l s : length l = length (rank s) → wf s → wf (with_rank l s).
Proof. intros Hl [Hr Hs Hf]. split; simpl; [congruence..|done]. Qed.

Lemma with_size_wf l s : length l = length (size s) → wf s → wf (with_size l s).
Proof. intros Hl [Hr Hs Hf]. split; simpl; [congruence..|done]. Qed.

Lemma inside_rank s x : wf s → elem s x → inside (rank s) x.
Proof. intros [Hr _ _]. unfold elem, inside. by rewrite Hr. Qed.

Lemma inside_size s x : wf s → elem s x → inside (size s) x.
Proof. intros [_ Hs _]. unfold elem, inside. by rewrite Hs. Qed.

Lemma is_root_elem s r : is_root (parent s) r → elem s r.
Proof. apply get_Some_inside. Qed.

Lemma unionByRank_result s u v ru s1 rv s2 ka kb :
  findUp u s = Ret (ru, s1) → findUp v s1 = Ret (rv, s2) →
  elem s2 ru → elem s2 rv →
  Vec.get (rank s2) ru = Some ka → Vec.get (rank s2) rv = Some kb →
  unionByRank u v s = Ret (tt, rank_linked ru rv ka kb s2).
Proof.
  intros F1 F2 Eu Ev Ka Kb. unfold unionByRank, rank_linked.
  rewrite (bind_Ret _ _ _ _ _ F1), (bind_Ret _ _ _ _ _ F2).
  rewrite (bind_Ret _ _ _ _ _ (read_Ret rank ru s2 ka Ka)).
  rewrite (bind_Ret _ _ _ _ _ (read_Ret rank rv s2 kb Kb)).
  destruct (decide (ka < kb)).
  { unfold write_parent. by rewrite write_Ret. }
  rewrite (bind_Ret _ _ _ _ _ (read_Ret rank ru s2 ka Ka)).
  rewrite (bind_Ret _ _ _ _ _ (read_Ret rank rv s2 kb Kb)).
  destruct (decide (ka > kb)).
  { unfold write_parent. by rewrite write_Ret. }
  unfold write_parent.
  rewrite (bind_Ret _ _ _ _ _ (write_Ret parent with_parent ru rv s2 Eu)).
  erewrite bind_Ret by (apply read_Ret; simpl; exact Kb).
  unfold write_rank. rewrite write_Ret; [done|].
  simpl. by eapply get_Some_inside.
Qed.

Lemma unionBySize_result s u v ru s1 rv s2 za zb :
  findUp u s = Ret (ru, s1) → findUp v s1 = Ret (rv, s2) →
  elem s2 ru → elem s2 rv →
  Vec.get (size s2) ru = Some za → Vec.get (size s2) rv = Some zb →
  unionBySize u v s = Ret (tt, size_linked ru rv za zb s2).
Proof.
  intros F1 F2 Eu Ev Za Zb. unfold unionBySize, size_linked.
  rewrite (bind_Ret _ _ _ _ _ F1), (bind_Ret _ _ _ _ _ F2).
  unfold write_parent, write_size.
  destruct (decide (ru < rv)).
  - rewrite (bind_Ret _ _ _ _ _ (write_Ret parent with_parent ru rv s2 Eu)).
    erewrite bind_Ret by (apply read_Ret; simpl; exact Za).
    erewrite bind_Ret by (apply read_Ret; simpl; exact Zb).
    rewrite write_Ret; [done|]. simpl. by eapply get_Some_inside.
  - rewrite (bind_Ret _ _ _ _ _ (write_Ret parent with_parent rv ru s2 Ev)).
    erewrite bind_Ret by (apply read_Ret; simpl; exact Zb).
    erewrite bind_Ret by (apply read_Ret; simpl; exact Za).
    rewrite write_Ret; [done|]. simpl. by eapply get_Some_inside.
Qed.

Lemma merged_link p p2 a b :
  keeps_roots p p2 → is_root p2 a → is_root p2 b → merged p (upd p2 a b) a b.
Proof.
  intros [Hlen Hk] Ha Hb. split; [by rewrite length_upd|].
  intros y r Hy. destruct (Hk y r Hy) as [l Hl]. by eapply path_link.
Qed.

Lemma unionByRank_spec s u v :
  wf s → elem s u → elem s v →
  ∃ ru rv s2 ka kb,
    root_of (parent s) u ru ∧ root_of (parent s) v rv ∧
    compressed s s2 ∧ is_root (parent s2) ru ∧ is_root (parent s2) rv ∧
    wf s2 ∧
    Vec.get (rank s2) ru = Some ka ∧ Vec.get (rank s2) rv = Some kb ∧
    unionByRank u v s = Ret (tt, rank_linked ru rv ka kb s2).
Proof.
  intros Hwf Hu Hv.
  destruct (two_finds s u v Hwf Hu Hv)
    as (ru & s1 & rv & s2 & F1 & F2 & R1 & R2 & C & I1 & I2 & W2).
  pose proof (is_root_elem _ _ I1) as E1.
  pose proof (is_root_elem _ _ I2) as E2.
  destruct (get_inside _ _ (inside_rank _ _ W2 E1)) as [ka Ka].
  destruct (get_inside _ _ (inside_rank _ _ W2 E2)) as [kb Kb].
  exists ru, rv, s2, ka, kb. split_and!; try done.
  by eapply unionByRank_result.
Qed.

Lemma unionBySize_spec s u v :
  wf s → elem s u → elem s v →
  ∃ ru rv s2 za zb,
    root_of (parent s) u ru ∧ root_of (parent s) v rv ∧
    compressed s s2 ∧ is_root (parent s2) ru ∧ is_root (parent s2) rv ∧
    wf s2 ∧
    Vec.get (size s2) ru = Some za ∧ Vec.get (size s2) rv = Some zb ∧
    unionBySize u v s = Ret (tt, size_linked ru rv za zb s2).
Proof.
  intros Hwf Hu Hv.
  destruct (two_finds s u v Hwf Hu Hv)
    as (ru & s1 & rv & s2 & F1 & F2 & R1 & R2 & C & I1 & I2 & W2).
  pose proof (is_root_elem _ _ I1) as E1.
  pose proof (is_root_elem _ _ I2) as E2.
  destruct (get_inside _ _ (inside_size _ _ W2 E1)) as [za Za].
  destruct (get_inside _ _ (inside_size _ _ W2 E2)) as [zb Zb].
  exists ru, rv, s2, za, zb. split_and!; try done.
  by eapply unionBySize_result.
Qed.

Lemma rank_linked_wf ru rv ka kb s2 :
  wf s2 → is_root (parent s2) ru → is_root (parent s2) rv →
  wf (rank_linked ru rv ka kb s2).
Proof.
  intros W I1 I2. unfold rank_linked.
  repeat case_decide; try by apply link_wf.
  apply with_rank_wf; [apply length_upd | by apply link_wf].
Qed.

Lemma size_linked_wf ru rv za zb s2 :
  wf s2 → is_root (parent s2) ru → is_root (parent s2) rv →
  wf (size_linked ru rv za zb s2).
Proof.
  intros W I1 I2. unfold size_linked.
  case_decide; (apply with_size_wf; [apply length_upd | by apply link_wf]).
Qed.

Lemma joined_link s s2 s' u v ru rv :
  root_of (parent s) u ru → root_of (parent s) v rv →
  compressed s s2 → is_root (parent s2) ru → is_root (parent s2) rv →
  parent s' = upd (parent s2) ru rv ∨ parent s' = upd (parent s2) rv ru →
  joined s s' u v.
Proof.
  intros R1 R2 [_ _ K] I1 I2 [Hp | Hp]; unfold joined; rewrite Hp.
  - exists ru, rv. split; [by left | by apply merged_link].
  - exists rv, ru. split; [by right | by apply merged_link].
Qed.

Lemma unionByRank_joined s u v :
  wf s → elem s u → elem s v →
  ∃ s', unionByRank u v s = Ret (tt, s') ∧ wf s' ∧ joined s s' u v ∧
        size s' = size s.
Proof.
  intros Hwf Hu Hv.
  destruct (unionByRank_spec s u v Hwf Hu Hv)
    as (ru & rv & s2 & ka & kb & R1 & R2 & C & I1 & I2 & W2 & _ & _ & U).
  eexists. split; [exact U|]. split; [by apply rank_linked_wf|]. split.
  - eapply joined_link; try done.
    unfold rank_linked. repeat case_decide; simpl; auto.
  - unfold rank_linked. repeat case_decide; simpl; apply C.
Qed.

Lemma unionBySize_joined s u v :
  wf s → elem s u → elem s v →
  ∃ s', unionBySize u v s = Ret (tt, s') ∧ wf s' ∧ joined s s' u v ∧
        rank s' = rank s.
Proof.
  intros Hwf Hu Hv.
  destruct (unionBySize_spec s u v Hwf Hu Hv)
    as (ru & rv & s2 & za & zb & R1 & R2 & C & I1 & I2 & W2 & _ & _ & U).
  eexists. split; [exact U|]. split; [by apply size_linked_wf|]. split.
  - eapply joined_link; try done.
    unfold size_linked. case_decide; simpl; auto.
  - unfold size_linked. case_decide; simpl; apply C.
Qed.

(** [isComponent] compares the two roots. *)
Lemma isComponent_spec s v u :
  wf s → elem s v → elem s u →
  ∃ rv ru s',
    isComponent v u s = Ret (bool_decide (rv = ru), s') ∧
    root_of (parent s) v rv ∧ root_of (parent s) u ru ∧
    compressed s s' ∧ wf s'.
Proof.
  intros Hwf Hv Hu.
  destruct (two_finds s v u Hwf Hv Hu)
    as (rv & s1 & ru & s2 & F1 & F2 & R1 & R2 & C & I1 & I2 & W2).
  exists rv, ru, s2. split_and!; try done.
  unfold isComponent.
  by rewrite (bind_Ret _ _ _ _ _ F1), (bind_Ret _ _ _ _ _ F2).
Qed.

(** ** Constructor *)

Lemma add32_small a b : in_int (a + b) → add32 a b = a + b.
Proof.
  unfold in_int, INT_MIN, INT_MAX, add32, wrap. intros H.
  rewrite Z.mod_small; lia.
Qed.

Lemma init_loop_spec k n i s rest :
  parent s = seqZ 0 i ++ rest → Z.of_nat (length rest) = n + 1 - i →
  0 ≤ i → n < INT_MAX → (length rest < k)%nat →
  init_loop k n i s = Ret (tt, with_parent (seqZ 0 (n + 1)) s).
Proof.
  revert i s rest. induction k as [|k IH]; intros i s rest Hp Hl Hi Hn Hk;
    [lia|].
  cbn [init_loop]. case_decide as Hin.
  - destruct rest as [|z rest]; [simpl in Hl; lia|]. simpl in Hl, Hk.
    unfold write_parent.
    assert (inside (parent s) i) as Hi'.
    { unfold inside. rewrite Hp, length_app, length_seqZ. simpl. lia. }
    rewrite (bind_Ret _ _ _ _ _ (write_Ret parent with_parent i i s Hi')).
    rewrite add32_small by (unfold in_int, INT_MIN, INT_MAX in *; lia).
    erewrite (IH (i + 1) _ rest); [done | | lia | lia | lia | lia].
    simpl. unfold upd. rewrite Hp.
    rewrite insert_app_r_alt by (rewrite length_seqZ; lia).
    rewrite length_seqZ, Nat.sub_diag. simpl.
    replace (i + 1) with (Z.of_nat (S (Z.to_nat i))) by lia.
    rewrite seqZ_S, <- app_assoc. simpl.
    by replace (Z.of_nat (Z.to_nat i)) with i by lia.
  - destruct rest as [|z rest]; [|simpl in Hl; lia]. simpl in Hl.
    rewrite app_nil_r in Hp. replace (n + 1) with i by lia.
    rewrite <- Hp. unfold ret. by rewrite with_parent_id.
Qed.

Lemma create_fresh n : -1 ≤ n < INT_MAX → create n = Ret (fresh n).
Proof.
  intros Hn. unfold create.
  rewrite add32_small by (unfold in_int, INT_MIN, INT_MAX in *; lia).
  assert (to_size_t (n + 1) = n + 1) as ->.
  { unfold to_size_t, INT_MAX in *. rewrite Z.mod_small; lia. }
  rewrite decide_True by (unfold max_size, INT_MAX in *; lia).
  erewrite (init_loop_spec _ n 0 _ (replicate (Z.to_nat (n + 1)) 0));
    [done | done | rewrite length_replicate; lia | done | lia |].
  rewrite length_replicate. lia.
Qed.

Lemma create_negative n : INT_MIN ≤ n ≤ -2 → create n = Throw length_error.
Proof.
  intros Hn. unfold create.
  rewrite add32_small by (unfold in_int, INT_MIN, INT_MAX in *; lia).
  rewrite decide_False; [done|].
  unfold to_size_t, max_size, INT_MIN in *.
  replace (n + 1) with ((n + 1 + 2 ^ 64) + (-1) * 2 ^ 64) by lia.
  rewrite Z.mod_add by lia. rewrite Z.mod_small; lia.
Qed.

Lemma get_seqZ n x : 0 ≤ x < n → Vec.get (seqZ 0 n) x = Some x.
Proof.
  intros Hx. unfold Vec.get. rewrite decide_True by lia.
  rewrite lookup_seqZ. split; lia.
Qed.

Lemma fresh_wf n : wf (fresh n).
Proof.
  split; simpl; rewrite ?length_replicate, ?length_seqZ; try done.
  intros x Hx. unfold inside in Hx. rewrite length_seqZ in Hx.
  exists [], x. apply path_root. apply get_seqZ. lia.
Qed.

Lemma fresh_root n x r : root_of (parent (fresh n)) x r → r = x.
Proof.
  intros [l H]. pose proof (path_inside _ _ _ _ H) as Hin.
  unfold inside in Hin. simpl in *. rewrite length_seqZ in Hin.
  assert (is_root (seqZ 0 (n + 1)) x) as Hr by (apply get_seqZ; lia).
  by destruct (path_of_root _ _ _ _ Hr H).
Qed.

End Methods.

Import Methods.

(** * Sequences of calls *)

Module ClientFacts.

Lemma inv_elem n s x : 0 ≤ n → inv n s → elem s x ↔ 0 ≤ x ≤ n.
Proof. intros Hn [_ Hl]. unfold elem, inside. rewrite Hl. lia. Qed.

Lemma inv_elem_in n s x : inv n s → 0 ≤ x ≤ n → inside (parent s) x.
Proof. intros [_ Hl] Hx. unfold inside. rewrite Hl. lia. Qed.

Lemma inv_elem_range n s x : inv n s → inside (parent s) x → 0 ≤ x ≤ n.
Proof. intros [_ Hl]. unfold inside. rewrite Hl. lia. Qed.

Lemma inv_compressed n s s' : inv n s → compressed s s' → inv n s'.
Proof.
  intros [W L] C. split; [by eapply compressed_wf|].
  destruct C as [_ _ [-> _]]. done.
Qed.

Lemma inv_joined n s s' u v : wf s' → inv n s → joined s s' u v → inv n s'.
Proof.
  intros W' [W L] (a & b & _ & [Hl _]). split; [done | congruence].
Qed.

Lemma exec_step n s c :
  0 ≤ n → inv n s → in_range n c →
  ∃ s', exec c s = Ret (tt, s') ∧ inv n s' ∧ step s s' c.
Proof.
  intros Hn Hi Hc. pose proof Hi as [W L].
  destruct c as [x | u v | u v | v u]; simpl in Hc.
  - destruct (findUp_spec s x W) as (r & s' & F & R & C & I & W').
    { by apply (inv_elem n). }
    exists s'. simpl. rewrite (bind_Ret _ _ _ _ _ F).
    split; [done|]. split; [by eapply inv_compressed | by constructor].
  - destruct (unionByRank_joined s u v W) as (s' & U & W' & J & Sz);
      [apply (inv_elem n); tauto..|].
    exists s'. split; [done|].
    split; [by eapply inv_joined | by constructor].
  - destruct (unionBySize_joined s u v W) as (s' & U & W' & J & Rk);
      [apply (inv_elem n); tauto..|].
    exists s'. split; [done|].
    split; [by eapply inv_joined | by constructor].
  - destruct (isComponent_spec s v u W) as (rv & ru & s' & Q & _ & _ & C & W');
      [apply (inv_elem n); tauto..|].
    exists s'. simpl. rewrite (bind_Ret _ _ _ _ _ Q).
    split; [done|]. split; [by eapply inv_compressed | by constructor].
Qed.

Lemma run_inv n cs s :
  0 ≤ n → inv n s → Forall (in_range n) cs →
  ∃ s', run cs s = Ret (tt, s') ∧ inv n s'.
Proof.
  intros Hn Hi Hcs. revert s Hi.
  induction Hcs as [|c cs Hc Hcs IH]; intros s Hi; [by exists s|].
  destruct (exec_step n s c Hn Hi Hc) as (s1 & E & I1 & _).
  destruct (IH s1 I1) as (s' & R & I'). exists s'. split; [|done].
  simpl. by rewrite (bind_Ret _ _ _ _ _ E).
Qed.

Lemma fresh_inv n : 0 ≤ n → inv n (fresh n).
Proof. intros Hn. split; [apply fresh_wf | simpl; by rewrite length_seqZ]. Qed.

Lemma session_run n cs :
  -1 ≤ n < INT_MAX →
  session n cs = match run cs (fresh n) with
                 | Ret (_, s') => Ret s'
                 | Throw e => Throw e
                 | Undef => Undef
                 | Diverge => Diverge
                 end.
Proof. intros Hn. unfold session. by rewrite create_fresh. Qed.

Lemma reachable_below_inv n s : 0 ≤ n < INT_MAX → reachable n s → inv n s.
Proof.
  intros Hn (cs & Hcs & Hs). rewrite session_run in Hs by lia.
  destruct (run_inv n cs (fresh n)) as (s' & R & I);
    [lia | apply fresh_inv; lia | done |].
  rewrite R in Hs. by simplify_eq.
Qed.

(** ** Roots and connectivity *)

Lemma connected_mono E E' x y :
  (∀ e, e ∈ E → e ∈ E') → connected E x y → connected E' x y.
Proof.
  intros Hsub. unfold connected.
  apply (rtsc_congruence id). intros a b. unfold edge. apply Hsub.
Qed.

Lemma connected_sc E x y : sc (edge E) x y → connected E x y.
Proof. intros H. unfold connected, rtsc. by apply rtc_once. Qed.

Lemma connected_trans E x y z :
  connected E x y → connected E y z → connected E x z.
Proof. unfold connected. intros H1 H2. by transitivity y. Qed.

Lemma agrees_ext p E E' :
  (∀ e, e ∈ E ↔ e ∈ E') → agrees p E → agrees p E'.
Proof.
  intros Heq [H1 H2]. split.
  - intros a b Hab. apply H1. by apply Heq.
  - intros x y r Hx Hy. eapply connected_mono; [|by eapply H2].
    intros e. apply Heq.
Qed.

(** The converse of the second half of [agrees]: connected elements
    have the same root. *)
Lemma agrees_connected p E x y r :
  agrees p E → connected E x y → root_of p x r → root_of p y r.
Proof.
  intros [H1 _] Hc. revert r. unfold connected, rtsc in Hc.
  induction Hc as [x | x y z Hxy Hyz IH]; intros r Hx; [done|].
  apply IH. destruct Hxy as [Hxy | Hxy]; unfold edge in Hxy;
    destruct (H1 _ _ Hxy) as (r0 & Ha & Hb).
  - by rewrite (root_of_det _ _ _ _ Hx Ha).
  - by rewrite (root_of_det _ _ _ _ Hx Hb).
Qed.

Lemma agrees_compressed p p' E :
  forest p → keeps_roots p p' → agrees p E → agrees p' E.
Proof.
  intros Hf K [H1 H2]. split.
  - intros a b Hab. destruct (H1 a b Hab) as (r & Ha & Hb).
    exists r. destruct K as [_ K]. auto.
  - intros x y r Hx Hy.
    apply (H2 x y r); by eapply keeps_roots_inv.
Qed.

Lemma agrees_joined s s' E u v :
  wf s → agrees (parent s) E → joined s s' u v →
  agrees (parent s') ((u, v) :: E).
Proof.
  intros W [H1 H2] (a & b & Hor & [Hlen Hm]).
  pose (f := λ r : Z, if decide (r = a) then b else r).
  change (∀ y r, root_of (parent s) y r → root_of (parent s') y (f r)) in Hm.
  assert (f a = b) as Hfa by (unfold f; by rewrite decide_True).
  assert (f b = b) as Hfb by (unfold f; by case_decide).
  assert (∃ ua ub, root_of (parent s) ua a ∧ root_of (parent s) ub b ∧
                   sc (edge ((u, v) :: E)) ua ub) as (ua & ub & Ra & Rb & Hsc).
  { destruct Hor as [[Ru Rv] | [Ru Rv]].
    - exists u, v. split_and!; try done. left. apply list_elem_of_here.
    - exists v, u. split_and!; try done. right. apply list_elem_of_here. }
  assert (∀ x y, connected E x y → connected ((u, v) :: E) x y) as Hmono.
  { intros x y. apply connected_mono. intros e He. by apply elem_of_cons; right. }
  split.
  - intros x y Hxy. apply elem_of_cons in Hxy as [Heq | Hxy].
    + injection Heq as -> ->. exists b.
      destruct Hor as [[Ru Rv] | [Ru Rv]].
      * split; [rewrite <- Hfa | rewrite <- Hfb]; by apply Hm.
      * split; [rewrite <- Hfb | rewrite <- Hfa]; by apply Hm.
    + destruct (H1 x y Hxy) as (r & Rx & Ry). exists (f r). split; by apply Hm.
  - intros x y r' Rx' Ry'.
    assert (∀ z, root_of (parent s') z r' →
                 ∃ rz, root_of (parent s) z rz ∧ f rz = r') as Hback.
    { intros z Rz'. destruct (wf_forest _ W z) as (l & rz & Hp).
      { apply root_of_inside in Rz' as [Hin _]. unfold inside in *.
        by rewrite <- Hlen. }
      exists rz. split; [by exists l|].
      eapply root_of_det; [apply Hm; by exists l | done]. }
    destruct (Hback x Rx') as (rx & Rx & Fx).
    destruct (Hback y Ry') as (ry & Ry & Fy).
    clear Hfa Hfb Hback Hm. unfold f in Fx, Fy. clear f.
    destruct (decide (rx = a)) as [-> | Nx], (decide (ry = a)) as [-> | Ny];
      subst.
    + apply Hmono. by eapply H2.
    + apply (connected_trans _ _ ua); [apply Hmono; by eapply H2|].
      apply (connected_trans _ _ ub); [by apply connected_sc|].
      apply Hmono. by eapply H2.
    + apply (connected_trans _ _ ub); [apply Hmono; by eapply H2|].
      apply (connected_trans _ _ ua).
      { apply connected_sc. destruct Hsc; [by right | by left]. }
      apply Hmono. by eapply H2.
    + apply Hmono. by eapply H2.
Qed.

Lemma agrees_step s s' c E :
  wf s → step s s' c → agrees (parent s) E →
  agrees (parent s') (union_pairs [c] ++ E).
Proof.
  intros W St A. destruct St as [x C | v u C | u v J _ | u v J _]; simpl.
  - eapply agrees_compressed; [by apply wf_forest | apply C | done].
  - eapply agrees_compressed; [by apply wf_forest | apply C | done].
  - by eapply agrees_joined.
  - by eapply agrees_joined.
Qed.

Lemma union_pairs_cons c cs :
  union_pairs (c :: cs) = union_pairs [c] ++ union_pairs cs.
Proof. by destruct c. Qed.

Lemma run_agrees n cs s E :
  0 ≤ n → inv n s → agrees (parent s) E → Forall (in_range n) cs →
  ∃ s', run cs s = Ret (tt, s') ∧ inv n s' ∧
        agrees (parent s') (union_pairs cs ++ E).
Proof.
  intros Hn Hi Ha Hcs. revert s E Hi Ha.
  induction Hcs as [|c cs Hc Hcs IH]; intros s E Hi Ha; [by exists s|].
  destruct (exec_step n s c Hn Hi Hc) as (s1 & Ex & I1 & St).
  pose proof (agrees_step s s1 c E (proj1 Hi) St Ha) as A1.
  destruct (IH s1 _ I1 A1) as (s' & R & I' & A').
  exists s'. split; [simpl; by rewrite (bind_Ret _ _ _ _ _ Ex)|].
  split; [done|]. eapply agrees_ext; [|exact A'].
  intros e. rewrite (union_pairs_cons c cs), !elem_of_app. tauto.
Qed.

Lemma fresh_agrees n : agrees (parent (fresh n)) [].
Proof.
  split; [intros a b Hab; by apply elem_of_nil in Hab|].
  intros x y r Hx%fresh_root Hy%fresh_root. by subst.
Qed.

End ClientFacts.

Import ClientFacts.

(** * Frames *)

Module FrameFacts.

Lemma ignores_ret {A} g (a : A) : ignores g (ret a).
Proof. done. Qed.

Lemma ignores_bind {A B} g (m : M A) (k : A → M B) :
  ignores g m → (∀ a, ignores g (k a)) → ignores g (bind m k).
Proof.
  intros Hm Hk s. unfold bind. rewrite Hm.
  destruct (m s) as [[a s']| | |]; simpl; [apply Hk | done..].
Qed.

Lemma ignores_read g f i : (∀ s, f (g s) = f s) → ignores g (read f i).
Proof. intros Hf s. unfold read. rewrite Hf. by destruct (Vec.get _ _). Qed.

Lemma ignores_write g f u i x :
  (∀ s, f (g s) = f s) → (∀ l s, u l (g s) = g (u l s)) →
  ignores g (write f u i x).
Proof.
  intros Hf Hu s. unfold write. rewrite Hf.
  destruct (Vec.set _ _ _); simpl; [by rewrite Hu | done].
Qed.

Lemma ignores_if {A} g (P : Prop) `{Decision P} (m1 m2 : M A) :
  ignores g m1 → ignores g m2 → ignores g (if decide P then m1 else m2).
Proof. by case_decide. Qed.

Lemma keeps_parent_rank r : keeps_parent (with_rank r).
Proof. by split. Qed.

Lemma keeps_parent_size z : keeps_parent (with_size z).
Proof. by split. Qed.

Lemma findUp_fuel_ignores g k x : keeps_parent g → ignores g (findUp_fuel k x).
Proof.
  intros [Hp Hw]. revert x. induction k as [|k IH]; intros x; [done|].
  simpl. apply ignores_bind; [by apply ignores_read|]. intros p.
  apply ignores_if; [apply ignores_ret|].
  apply ignores_bind; [apply IH|]. intros r.
  apply ignores_bind; [by apply ignores_write | intros; apply ignores_ret].
Qed.

Lemma findUp_ignores g x : keeps_parent g → ignores g (findUp x).
Proof.
  intros Hg s. unfold findUp. rewrite (proj1 Hg).
  by apply findUp_fuel_ignores.
Qed.

Lemma isComponent_ignores g v u : keeps_parent g → ignores g (isComponent v u).
Proof.
  intros Hg. unfold isComponent.
  repeat (apply ignores_bind; [by apply findUp_ignores | intros ?]).
  apply ignores_ret.
Qed.

Lemma unionByRank_ignores_size z u v :
  ignores (with_size z) (unionByRank u v).
Proof.
  unfold unionByRank.
  repeat (apply ignores_bind;
          [by apply findUp_ignores, keeps_parent_size | intros ?]).
  repeat first
    [ apply ignores_if
    | apply ignores_bind; [|intros ?]
    | by apply ignores_read
    | by apply ignores_write ].
Qed.

Lemma unionBySize_ignores_rank r u v :
  ignores (with_rank r) (unionBySize u v).
Proof.
  unfold unionBySize.
  repeat (apply ignores_bind;
          [by apply findUp_ignores, keeps_parent_rank | intros ?]).
  repeat first
    [ apply ignores_if
    | apply ignores_bind; [|intros ?]
    | by apply ignores_read
    | by apply ignores_write ].
Qed.

(** An ignored field comes out as it went in. *)
Lemma ignores_size_unchanged {A} (m : M A) s a s' :
  (∀ z, ignores (with_size z) m) → m s = Ret (a, s') → size s' = size s.
Proof.
  intros Hm Hs. pose proof (Hm (size s) s) as H.
  assert (with_size (size s) s = s) as Hid by by destruct s.
  rewrite Hid, Hs in H. simpl in H. by injection H as ->.
Qed.

Lemma ignores_rank_unchanged {A} (m : M A) s a s' :
  (∀ r, ignores (with_rank r) m) → m s = Ret (a, s') → rank s' = rank s.
Proof.
  intros Hm Hs. pose proof (Hm (rank s) s) as H.
  assert (with_rank (rank s) s = s) as Hid by by destruct s.
  rewrite Hid, Hs in H. simpl in H. by injection H as ->.
Qed.

End FrameFacts.

Import FrameFacts.

(** * The properties of the specification *)

Lemma create_int_max : create INT_MAX = Throw length_error.
Proof. by vm_compute. Qed.

Lemma reachable_state_inv n s : 0 ≤ n ≤ INT_MAX → reachable n s → inv n s.
Proof.
  intros Hn Hr. destruct (decide (n = INT_MAX)) as [-> | Hne].
  - destruct Hr as (cs & _ & Hs). unfold session in Hs.
    by rewrite create_int_max in Hs.
  - apply reachable_below_inv; [lia | done].
Qed.

Lemma run_app cs1 cs2 s s1 :
  run cs1 s = Ret (tt, s1) → run (cs1 ++ cs2) s = run cs2 s1.
Proof.
  revert s. induction cs1 as [|c cs1 IH]; intros s H; simpl in *.
  - unfold ret in H. by simplify_eq.
  - unfold bind in *. destruct (exec c s) as [[[] s0]| | |]; try done.
    by apply IH.
Qed.

Lemma reachable_exec n s c s' :
  reachable n s → in_range n c → exec c s = Ret (tt, s') → reachable n s'.
Proof.
  intros (cs & Hcs & Hs) Hc He. exists (cs ++ [c]).
  split; [apply Forall_app; split; [done | by constructor]|].
  unfold session in *. destruct (create n) as [s0| | |]; try done.
  destruct (run cs s0) as [[[] s1]| | |] eqn:Hrun; try done.
  simplify_eq. rewrite (run_app _ _ _ _ Hrun). simpl.
  by rewrite (bind_Ret _ _ _ _ _ He).
Qed.

Lemma ancestor_path p x l r k y :
  path p x l r → ancestor p k x = Some y → path p y (drop k l) r.
Proof.
  intros H. revert k. induction H as [x Hx | x j l r Hx Hne Hp IH]; intros k.
  - induction k as [|k IHk]; simpl.
    + intros [= <-]. by constructor.
    + rewrite Hx. intros Hk. apply IHk in Hk. by rewrite drop_nil in Hk.
  - destruct k as [|k]; simpl.
    + intros [= <-]. by eapply path_step.
    + rewrite Hx. apply IH.
Qed.

(** In a forest the only cycles of the parent vector are the self-loops of
    the roots. *)
Lemma forest_acyclic p i k :
  forest p → inside p i → (0 < k)%nat → ancestor p k i = Some i → is_root p i.
Proof.
  intros Hf Hi Hk Ha. destruct (Hf i Hi) as (l & r & Hp).
  pose proof (ancestor_path _ _ _ _ _ _ Hp Ha) as Hp'.
  destruct (path_det _ _ _ _ _ _ Hp Hp') as [Hl _].
  assert (l = []) as ->.
  { apply (f_equal length) in Hl. rewrite length_drop in Hl.
    destruct l; [done | simpl in Hl; lia]. }
  inversion Hp; subst. done.
Qed.

(** C1: for every universe size [n] the constructor accepts and every
    sequence of calls with arguments in [0..n], the sequence runs to a
    state in which [isComponent u v] returns [true] exactly when [u] and
    [v] are connected in the undirected graph whose edges are the pairs
    given to [unionByRank] and [unionBySize] in the sequence. *)
Theorem isComponent_iff_connected n cs :
  0 ≤ n < INT_MAX → Forall (in_range n) cs →
  ∃ s, session n cs = Ret s ∧
       ∀ u v, 0 ≤ u ≤ n → 0 ≤ v ≤ n →
         ∃ b s', isComponent u v s = Ret (b, s') ∧
                 (b = true ↔ connected (union_pairs cs) u v).
Proof.
  intros Hn Hcs.
  destruct (run_agrees n cs (fresh n) []) as (s & R & I & A);
    [lia | apply fresh_inv; lia | apply fresh_agrees | done |].
  rewrite app_nil_r in A.
  exists s. split; [rewrite session_run by lia; by rewrite R|].
  intros u v Hu Hv. destruct I as [W L].
  destruct (isComponent_spec s u v W) as (ru & rv & s' & Q & Ru & Rv & _);
    [unfold elem, inside; rewrite L; lia..|].
  exists (bool_decide (ru = rv)), s'. split; [done|].
  rewrite bool_decide_eq_true. split.
  - intros ->. destruct A as [_ A2]. by eapply A2.
  - intros Hc. eapply root_of_det; [|exact Rv].
    by eapply agrees_connected.
Qed.

Lemma isComponent_iff_connected_witness :
  ∃ s, session 3 [UnionByRank 0 1; UnionBySize 2 3] = Ret s ∧
       ∀ u v, 0 ≤ u ≤ 3 → 0 ≤ v ≤ 3 →
         ∃ b s', isComponent u v s = Ret (b, s') ∧
                 (b = true ↔
                  connected (union_pairs [UnionByRank 0 1; UnionBySize 2 3]) u v).
Proof.
  apply isComponent_iff_connected.
  - unfold INT_MAX. lia.
  - repeat constructor; simpl; lia.
Defined.

(** C2: in every state reachable from the constructor by calls with
    arguments in [0..n], every element of [0..n] reaches exactly one
    self-parented root of [0..n] along the parent vector, the only cycles of
    the parent vector are the self-loops of the roots, and every further
    call with arguments in [0..n] returns and leaves such a state again. *)
Theorem reachable_partition n s :
  0 ≤ n ≤ INT_MAX → reachable n s →
  (∀ i, 0 ≤ i ≤ n →
     ∃ r, root_of (parent s) i r ∧ is_root (parent s) r ∧ 0 ≤ r ≤ n ∧
          ∀ r', root_of (parent s) i r' → r' = r) ∧
  (∀ i k, 0 ≤ i ≤ n → (0 < k)%nat →
     ancestor (parent s) k i = Some i → is_root (parent s) i) ∧
  (∀ c, in_range n c → ∃ s', exec c s = Ret (tt, s') ∧ reachable n s').
Proof.
  intros Hn Hr. pose proof (reachable_state_inv n s Hn Hr) as Hi.
  pose proof Hi as [W L]. split_and!.
  - intros i Hin.
    destruct (wf_forest _ W i) as (l & r & Hp); [by apply (inv_elem_in n)|].
    exists r. split; [|split; [|split]].
    + by exists l.
    + by eapply path_end_root.
    + apply (inv_elem_range n s); [done|].
      exact (get_Some_inside _ _ _ (path_end_root _ _ _ _ Hp)).
    + intros r' Hr'. eapply root_of_det; [exact Hr' | by exists l].
  - intros i k Hin Hk Ha.
    eapply forest_acyclic; [by apply wf_forest | | done | done].
    by apply (inv_elem_in n s).
  - intros c Hc. destruct (exec_step n s c) as (s' & E & _ & _); try done; [lia|].
    exists s'. split; [done | by eapply reachable_exec].
Qed.

Lemma reachable_partition_witness :
  let s := mk [1; 0; 0] [0; 0; 2] [1; 1; 1] in
  (∀ i, 0 ≤ i ≤ 2 →
     ∃ r, root_of (parent s) i r ∧ is_root (parent s) r ∧ 0 ≤ r ≤ 2 ∧
          ∀ r', root_of (parent s) i r' → r' = r) ∧
  (∀ i k, 0 ≤ i ≤ 2 → (0 < k)%nat →
     ancestor (parent s) k i = Some i → is_root (parent s) i) ∧
  (∀ c, in_range 2 c → ∃ s', exec c s = Ret (tt, s') ∧ reachable 2 s').
Proof.
  apply (reachable_partition 2).
  - unfold INT_MAX. lia.
  - exists [UnionByRank 1 0; Find 1]. split.
    + repeat constructor; simpl; lia.
    + reflexivity.
Defined.

(** ** Union of two elements of one set *)

Lemma rank_linked_same r k s2 :
  is_root (parent s2) r →
  parent (rank_linked r r k k s2) = parent s2 ∧
  size (rank_linked r r k k s2) = size s2.
Proof.
  intros Hr. unfold rank_linked.
  rewrite !decide_False by lia. simpl. by rewrite upd_id.
Qed.

Lemma size_linked_same r z s2 :
  is_root (parent s2) r →
  parent (size_linked r r z z s2) = parent s2 ∧
  rank (size_linked r r z z s2) = rank s2.
Proof.
  intros Hr. unfold size_linked.
  rewrite decide_False by lia. simpl. by rewrite upd_id.
Qed.

(** C3 (the code at the failing input): after [unionByRank(0,1)] on a
    fresh object for [n = 1] both elements have root [1] and [parent] is
    flat: the two calls of [findUp] change nothing. The second
    [unionByRank(0,1)] returns, but not in the same state: with no test for
    equal roots it runs the branch for equal ranks on the pair [(1, 1)],
    and [rank[1]] goes from [1] to [2]. Likewise the second
    [unionBySize(0,1)] runs its [else] branch on [(1, 1)] and takes
    [size[1]] from [2] to [4]. *)
Lemma repeated_union_not_noop :
  let s := mk [0; 1] [1; 1] [1; 1] in
  let z := mk [0; 0] [1; 1] [1; 2] in
  (session 1 [UnionByRank 0 1] = Ret s ∧
   findUp 0 s = Ret (1, s) ∧ findUp 1 s = Ret (1, s) ∧
   unionByRank 0 1 s = Ret (tt, mk [0; 2] [1; 1] [1; 1]) ∧
   unionByRank 0 1 s ≠ Ret (tt, s)) ∧
  (session 1 [UnionBySize 0 1] = Ret z ∧
   findUp 0 z = Ret (1, z) ∧ findUp 1 z = Ret (1, z) ∧
   unionBySize 0 1 z = Ret (tt, mk [0; 0] [1; 1] [1; 4]) ∧
   unionBySize 0 1 z ≠ Ret (tt, z)).
Proof. split_and!; done. Qed.

(** A union inside one set also compresses paths, as every call of
    [findUp] does: after [unionByRank] of (0,1), (2,3), (0,2) the element 0
    hangs two steps below its root 3, and [unionByRank(0,3)] re-parents it
    to 3. *)
Example same_set_union_compresses :
  let c := mk [0; 1; 0; 2] [1; 3; 3; 3] [1; 1; 1; 1] in
  session 3 [UnionByRank 0 1; UnionByRank 2 3; UnionByRank 0 2] = Ret c ∧
  find_root c 0 = Some 3 ∧ find_root c 3 = Some 3 ∧
  unionByRank 0 3 c = Ret (tt, mk [0; 1; 0; 3] [3; 3; 3; 3] [1; 1; 1; 1]).
Proof. split_and!; done. Qed.

(** The same for every pair of one set: the union of two elements of one
    set with root [r] runs the branch for equal ranks, respectively the
    [else] branch, on the pair [(r, r)]: [unionByRank] increments
    [rank[r]] and [unionBySize] adds [size[r]] to itself. *)
Lemma union_same_set_bookkeeping n s u v r :
  0 ≤ n ≤ INT_MAX → reachable n s → 0 ≤ u ≤ n → 0 ≤ v ≤ n →
  root_of (parent s) u r → root_of (parent s) v r →
  ∃ k z,
    Vec.get (rank s) r = Some k ∧ Vec.get (size s) r = Some z ∧
    (∃ sa, unionByRank u v s = Ret (tt, sa) ∧
           rank sa = upd (rank s) r (add32 k 1)) ∧
    (∃ sb, unionBySize u v s = Ret (tt, sb) ∧
           size sb = upd (size s) r (add32 z z)).
Proof.
  intros Hn Hr Hu Hv Ru Rv.
  pose proof (reachable_state_inv n s Hn Hr) as Hi. pose proof Hi as [W L].
  destruct (two_finds s u v W)
    as (ru & s1 & rv & s2 & F1 & F2 & R1 & R2 & C & I1 & I2 & W2);
    [by apply (inv_elem_in n)..|].
  assert (ru = r) as -> by by eapply root_of_det.
  assert (rv = r) as -> by by eapply root_of_det.
  pose proof (is_root_elem _ _ I1) as E1.
  destruct (get_inside _ _ (inside_rank _ _ W2 E1)) as [k Hk].
  destruct (get_inside _ _ (inside_size _ _ W2 E1)) as [z Hz].
  pose proof C as [Crk Csz _].
  exists k, z. split_and!; [by rewrite <- Crk | by rewrite <- Csz | |].
  - eexists. split; [by eapply unionByRank_result|].
    unfold rank_linked. rewrite !decide_False by lia. simpl. by rewrite Crk.
  - eexists. split; [by eapply unionBySize_result|].
    unfold size_linked. rewrite decide_False by lia. simpl. by rewrite Csz.
Qed.

(** ** Sizes *)

Lemma length_filter_iff (P Q : Z → Prop)
    `{∀ y, Decision (P y)} `{∀ y, Decision (Q y)} (l : list Z) :
  (∀ y, y ∈ l → P y ↔ Q y) → length (filter P l) = length (filter Q l).
Proof.
  induction l as [|a l IH]; intros Hpq; [done|].
  rewrite !filter_cons.
  assert (P a ↔ Q a) as Ha by (apply Hpq; apply list_elem_of_here).
  assert (length (filter P l) = length (filter Q l)) as Hl.
  { apply IH. intros y Hy. apply Hpq. by apply list_elem_of_further. }
  repeat case_decide; simpl; tauto || lia.
Qed.

Lemma length_filter_or (P Q R : Z → Prop)
    `{∀ y, Decision (P y)} `{∀ y, Decision (Q y)} `{∀ y, Decision (R y)}
    (l : list Z) :
  (∀ y, y ∈ l → R y ↔ P y ∨ Q y) → (∀ y, y ∈ l → ¬ (P y ∧ Q y)) →
  length (filter R l) = (length (filter P l) + length (filter Q l))%nat.
Proof.
  induction l as [|a l IH]; intros Hr Hpq; [done|].
  rewrite !filter_cons.
  pose proof (Hr a (list_elem_of_here _ _)) as Ha.
  pose proof (Hpq a (list_elem_of_here _ _)) as Hna.
  assert (length (filter R l)
          = (length (filter P l) + length (filter Q l))%nat) as Hl.
  { apply IH; intros y Hy; [apply Hr | apply Hpq]; by apply list_elem_of_further. }
  repeat case_decide; simpl; tauto || lia.
Qed.

Lemma length_filter_absent (r : Z) (l : list Z) :
  r ∉ l → length (filter (λ y, y = r) l) = 0%nat.
Proof.
  induction l as [|a l IH]; intros Hr; [done|].
  apply not_elem_of_cons in Hr as [Hne Hr].
  rewrite filter_cons. rewrite decide_False by done. by apply IH.
Qed.

Lemma length_filter_eq (r : Z) (l : list Z) :
  NoDup l → r ∈ l → length (filter (λ y, y = r) l) = 1%nat.
Proof.
  induction 1 as [|a l Ha Hnd IH]; intros Hr; [by apply elem_of_nil in Hr|].
  rewrite filter_cons. case_decide as Heq.
  - subst a. simpl. by rewrite length_filter_absent.
  - apply IH. by apply elem_of_cons in Hr as [-> | Hr].
Qed.

Lemma find_root_spec s y r :
  wf s → elem s y → find_root s y = Some r ↔ root_of (parent s) y r.
Proof.
  intros W Hy. destruct (findUp_wf s y W Hy) as (l & r0 & Hp & F).
  unfold find_root. rewrite F. split.
  - intros [= <-]. by exists l.
  - intros Hr. f_equal. eapply root_of_det; [by exists l | done].
Qed.

Lemma elem_seqZ_inside s y :
  y ∈ seqZ 0 (Z.of_nat (length (parent s))) ↔ elem s y.
Proof. rewrite elem_of_seqZ. unfold elem, inside. lia. Qed.

Lemma set_count_root s x r :
  find_root s x = Some r → set_count s x = root_count s r.
Proof.
  intros Hx. unfold set_count, root_count.
  apply length_filter_iff. intros y _. by rewrite Hx.
Qed.

Lemma root_count_le s r : (root_count s r ≤ length (parent s))%nat.
Proof.
  unfold root_count. etrans; [apply length_filter|].
  rewrite length_seqZ. lia.
Qed.

Lemma sizes_exact_fresh n : sizes_exact (fresh n).
Proof.
  intros r Hr. pose proof (get_Some_inside _ _ _ Hr) as Hin.
  unfold inside in Hin. simpl in *. rewrite length_seqZ in Hin.
  rewrite get_replicate by lia. do 2 f_equal.
  unfold root_count.
  rewrite (length_filter_iff _ (λ y, y = r)).
  - rewrite length_filter_eq; [done | apply NoDup_seqZ |].
    apply elem_of_seqZ. simpl. rewrite length_seqZ. lia.
  - intros y Hy. apply elem_seqZ_inside in Hy.
    rewrite (find_root_spec _ _ _ (fresh_wf n) Hy). split.
    + by intros ->%fresh_root.
    + intros ->. exists []. by apply path_root.
Qed.

Lemma sizes_exact_compressed s s' :
  wf s → compressed s s' → sizes_exact s → sizes_exact s'.
Proof.
  intros W C Hs r Hr. pose proof (compressed_wf _ _ W C) as W'.
  pose proof C as [_ Csz [Hlen Hk]].
  assert (∀ y ry, elem s y →
            find_root s' y = Some ry ↔ find_root s y = Some ry) as Hfr.
  { intros y ry Hy. rewrite (find_root_spec s y ry W Hy).
    rewrite (find_root_spec s' y ry W') by by apply (compressed_elem s s').
    split; [|apply Hk].
    intros H. eapply keeps_roots_inv; [by apply wf_forest | apply C | done]. }
  assert (is_root (parent s) r) as Hr0.
  { assert (root_of (parent s) r r) as [l Hl].
    { eapply keeps_roots_inv; [by apply wf_forest | apply C |].
      exists []. by apply path_root. }
    by eapply path_end_root. }
  rewrite Csz, (Hs r Hr0). do 2 f_equal.
  unfold root_count. rewrite Hlen. apply length_filter_iff.
  intros y Hy. symmetry. apply Hfr. by apply elem_seqZ_inside.
Qed.

Lemma relabel_hi (lo hi r0 : Z) :
  Some (if decide (r0 = lo) then hi else r0) = Some hi
  ↔ Some r0 = Some hi ∨ Some r0 = Some lo.
Proof. case_decide; subst; intuition congruence. Qed.

Lemma relabel_other (lo hi r r0 : Z) :
  r ≠ lo → r ≠ hi →
  Some (if decide (r0 = lo) then hi else r0) = Some r ↔ Some r0 = Some r.
Proof. intros. case_decide; subst; intuition congruence. Qed.

(** [unionBySize] on two different sets keeps the sizes exact. *)
Lemma sizes_exact_link s2 lo hi zlo zhi :
  wf s2 → Z.of_nat (length (parent s2)) ≤ INT_MAX → sizes_exact s2 →
  is_root (parent s2) lo → is_root (parent s2) hi → lo ≠ hi →
  Vec.get (size s2) lo = Some zlo → Vec.get (size s2) hi = Some zhi →
  sizes_exact (with_size (upd (size s2) hi (add32 zhi zlo)) (link lo hi s2)).
Proof.
  intros W Hmax Hs Ilo Ihi Hne Zlo Zhi.
  set (s' := with_size (upd (size s2) hi (add32 zhi zlo)) (link lo hi s2)).
  assert (wf s') as W'.
  { apply with_size_wf; [apply length_upd | by apply link_wf]. }
  pose proof (get_Some_inside _ _ _ Ilo) as Hlo.
  pose proof (get_Some_inside _ _ _ Ihi) as Hhi.
  assert (∀ y r0, elem s2 y → find_root s2 y = Some r0 →
            find_root s' y = Some (if decide (r0 = lo) then hi else r0)) as Hf.
  { intros y r0 Hy Hy0. apply (find_root_spec s2 y r0 W Hy) in Hy0 as [l Hl].
    apply find_root_spec; [done | by apply inside_upd|].
    by eapply path_link. }
  assert (∀ y, elem s2 y → ∃ r0, find_root s2 y = Some r0) as Hex.
  { intros y Hy. destruct (wf_forest _ W y Hy) as (l & r0 & Hl).
    exists r0. apply find_root_spec; [done | done | by exists l]. }
  rewrite (Hs lo Ilo) in Zlo. rewrite (Hs hi Ihi) in Zhi. simplify_eq.
  assert (length (parent s') = length (parent s2)) as Hlen by apply length_upd.
  assert (root_count s' hi = (root_count s2 hi + root_count s2 lo)%nat) as Hsum.
  { unfold root_count. rewrite Hlen.
    apply (length_filter_or (λ y, find_root s2 y = Some hi)
                            (λ y, find_root s2 y = Some lo)
                            (λ y, find_root s' y = Some hi)).
    - intros y Hy%elem_seqZ_inside. destruct (Hex y Hy) as [r0 H0].
      rewrite (Hf y r0 Hy H0), H0. apply relabel_hi.
    - intros y _ [H1 H2]. congruence. }
  assert (∀ r, r ≠ lo → r ≠ hi → root_count s' r = root_count s2 r) as Hsame.
  { intros r Hrlo Hrhi. unfold root_count. rewrite Hlen.
    apply length_filter_iff.
    intros y Hy%elem_seqZ_inside. destruct (Hex y Hy) as [r0 H0].
    rewrite (Hf y r0 Hy H0), H0. by apply relabel_other. }
  intros r Hr. change (is_root (upd (parent s2) lo hi) r) in Hr.
  change (size s') with (upd (size s2) hi
    (add32 (Z.of_nat (root_count s2 hi)) (Z.of_nat (root_count s2 lo)))).
  unfold is_root in Hr.
  assert (r ≠ lo) as Hrlo.
  { intros ->. rewrite get_upd_eq in Hr by done. by simplify_eq. }
  rewrite get_upd_ne in Hr by (done || apply Hlo).
  destruct (decide (r = hi)) as [-> | Hrhi].
  - rewrite get_upd_eq by (apply (inside_size s2); done).
    f_equal. rewrite Hsum. rewrite add32_small; [lia|].
    pose proof (root_count_le s' hi) as Hle. rewrite Hlen, Hsum in Hle.
    unfold in_int, INT_MIN, INT_MAX in *. lia.
  - rewrite get_upd_ne by (done || apply Hhi).
    rewrite (Hs r Hr). by rewrite Hsame.
Qed.

Lemma careful_inv n s :
  0 ≤ n < INT_MAX → careful n s → inv n s ∧ sizes_exact s.
Proof.
  intros Hn. induction 1 as
    [s Hc | s x r s' Hs [Hi Hz] Hx F | s u v s' Hs [Hi Hz] Hu Hv Hne U].
  - rewrite create_fresh in Hc by lia. simplify_eq.
    split; [apply fresh_inv; lia | apply sizes_exact_fresh].
  - pose proof Hi as [W L].
    destruct (findUp_spec s x W) as (r0 & s0 & F0 & _ & C & _ & _);
      [by apply (inv_elem_in n)|].
    rewrite F in F0. simplify_eq.
    split; [by eapply inv_compressed | by eapply sizes_exact_compressed].
  - pose proof Hi as [W L].
    pose proof (inv_elem_in n s u Hi Hu) as Eu.
    pose proof (inv_elem_in n s v Hi Hv) as Ev.
    destruct (two_finds s u v W Eu Ev)
      as (ru & s1 & rv & s2 & F1 & F2 & R1 & R2 & C & I1 & I2 & W2).
    apply (find_root_spec s u ru W Eu) in R1.
    apply (find_root_spec s v rv W Ev) in R2.
    assert (ru ≠ rv) as Hr by congruence.
    pose proof (is_root_elem _ _ I1) as E1.
    pose proof (is_root_elem _ _ I2) as E2.
    destruct (get_inside _ _ (inside_size _ _ W2 E1)) as [za Za].
    destruct (get_inside _ _ (inside_size _ _ W2 E2)) as [zb Zb].
    rewrite (unionBySize_result s u v ru s1 rv s2 za zb F1 F2 E1 E2 Za Zb) in U.
    simplify_eq.
    pose proof (sizes_exact_compressed s s2 W C Hz) as Hz2.
    pose proof (inv_compressed n s s2 Hi C) as [_ L2].
    assert (Z.of_nat (length (parent s2)) ≤ INT_MAX) as Hmax
      by (rewrite L2; lia).
    split.
    + split; [by apply size_linked_wf|].
      unfold size_linked. case_decide; simpl; by rewrite length_upd.
    + unfold size_linked. case_decide.
      * by apply sizes_exact_link.
      * by apply sizes_exact_link.
Qed.

(** What the claim on sizes states does hold as long as no call of
    [unionBySize] is made on two elements of one set: in the states
    reached from the constructor by [findUp] and by [unionBySize] on elements
    of different sets, [size[findUp(x)]] is the number of elements [y] with
    [findUp(y) == findUp(x)]. *)
Lemma size_is_set_count n s x :
  0 ≤ n < INT_MAX → careful n s → 0 ≤ x ≤ n →
  ∃ r, find_root s x = Some r ∧
       Vec.get (size s) r = Some (Z.of_nat (set_count s x)).
Proof.
  intros Hn Hc Hx. destruct (careful_inv n s Hn Hc) as [Hi Hz].
  pose proof Hi as [W L].
  destruct (wf_forest _ W x) as (l & r & Hp); [by apply (inv_elem_in n)|].
  assert (find_root s x = Some r) as Hr.
  { apply find_root_spec; [done | by apply (inv_elem_in n) | by exists l]. }
  exists r. split; [done|].
  rewrite (set_count_root s x r Hr). apply Hz. by eapply path_end_root.
Qed.

(** C4 (the code at the failing input): a fresh object for [n = 1] after
    [unionBySize(0,1)] twice has [size[findUp(0)] = 4], while the set of 0
    has the two elements 0 and 1. *)
Lemma unionBySize_twice_size :
  ∃ s, session 1 [UnionBySize 0 1; UnionBySize 0 1] = Ret s ∧
       find_root s 0 = Some 1 ∧ Vec.get (size s) 1 = Some 4 ∧
       set_count s 0 = 2%nat.
Proof. eexists. split; [reflexivity|]. by vm_compute. Qed.

(** ** Path compression *)

Lemma path_start_on p x l r : path p x l r → x ∈ l ++ [r].
Proof.
  destruct 1; [apply list_elem_of_here | apply list_elem_of_here].
Qed.

(** An element that already points at its root is found in one step and
    nothing is written that was not there. *)
Lemma findUp_flat s x r :
  Vec.get (parent s) x = Some r → is_root (parent s) r →
  findUp x s = Ret (r, s).
Proof.
  intros Hx Hr. destruct (decide (x = r)) as [-> | Hne].
  - rewrite (findUp_path s r [] r) by by apply path_root.
    simpl. by rewrite with_parent_id.
  - rewrite (findUp_path s x [x] r).
    + simpl. rewrite upd_id by done. by rewrite with_parent_id.
    + eapply path_step; [done | done | by apply path_root].
Qed.

(** C5: on a reachable state [findUp x], for [x] in [0..n], returns the
    root [r] that ends the parent chain [l] of [x]; afterwards [x], every
    element of the chain and [r] itself have parent [r]; a second
    [findUp x] returns [r] again (and changes nothing); every element has
    the root it had before, and [rank] and [size] are as before. *)
Theorem findUp_compresses n s x :
  0 ≤ n ≤ INT_MAX → reachable n s → 0 ≤ x ≤ n →
  ∃ l r s',
    path (parent s) x l r ∧ findUp x s = Ret (r, s') ∧
    (∀ y, y = x ∨ y ∈ l ∨ y = r → Vec.get (parent s') y = Some r) ∧
    findUp x s' = Ret (r, s') ∧
    (∀ y ry, root_of (parent s') y ry ↔ root_of (parent s) y ry) ∧
    rank s' = rank s ∧ size s' = size s.
Proof.
  intros Hn Hr Hx.
  pose proof (reachable_state_inv n s Hn Hr) as Hi. pose proof Hi as [W L].
  destruct (findUp_wf s x W) as (l & r & Hp & F); [by apply (inv_elem_in n)|].
  pose proof (compressed_compress s x l r Hp) as C.
  assert (∀ y, y = x ∨ y ∈ l ∨ y = r →
    Vec.get (parent (with_parent (compress (parent s) l r) s)) y = Some r)
    as Hflat.
  { intros y Hy. simpl. eapply compress_flat; [done|].
    destruct Hy as [-> | [Hy | ->]].
    - by eapply path_start_on.
    - apply elem_of_app. by left.
    - apply elem_of_app. right. apply list_elem_of_here. }
  exists l, r, (with_parent (compress (parent s) l r) s).
  split_and!; try done.
  - apply findUp_flat; [apply Hflat; by left | apply Hflat; by right; right].
  - intros y ry. split.
    + eapply keeps_roots_inv; [by apply wf_forest | apply C].
    + apply C.
Qed.

Lemma findUp_compresses_witness :
  let s := mk [0; 1; 0; 2] [1; 3; 3; 3] [1; 1; 1; 1] in
  ∃ l r s',
    path (parent s) 0 l r ∧ findUp 0 s = Ret (r, s') ∧
    (∀ y, y = 0 ∨ y ∈ l ∨ y = r → Vec.get (parent s') y = Some r) ∧
    findUp 0 s' = Ret (r, s') ∧
    (∀ y ry, root_of (parent s') y ry ↔ root_of (parent s) y ry) ∧
    rank s' = rank s ∧ size s' = size s.
Proof.
  apply (findUp_compresses 3).
  - unfold INT_MAX. lia.
  - exists [UnionByRank 0 1; UnionByRank 2 3; UnionByRank 0 2].
    split; [repeat constructor; simpl; lia | reflexivity].
  - lia.
Defined.

(** ** Arguments outside [0..n] *)

(** C6 (counterexample): [findUp(1)] on the object built for [n = 0]
    reads [parent[1]] of a one-element vector; the outcome is undefined
    behaviour, not an [out_of_range] exception. *)
Lemma findUp_past_end :
  create 0 = Ret (mk [0] [0] [1]) ∧
  findUp 1 (mk [0] [0] [1]) = Undef ∧
  findUp 1 (mk [0] [0] [1]) ≠ Throw out_of_range.
Proof. split_and!; done. Qed.

(** C6 (amended): no method checks its arguments. On a reachable state a
    call with an argument outside [0..n] indexes [parent] outside the
    vector: its outcome is undefined behaviour, for each of the four
    methods, and no exception is raised. *)
Theorem outside_is_undefined n s :
  0 ≤ n ≤ INT_MAX → reachable n s →
  (∀ x, ¬ 0 ≤ x ≤ n →
     findUp x s = Undef ∧ ∀ k, findUp_fuel (S k) x s = Undef) ∧
  (∀ u v, ¬ (0 ≤ u ≤ n ∧ 0 ≤ v ≤ n) →
     unionByRank u v s = Undef ∧ unionBySize u v s = Undef ∧
     isComponent u v s = Undef).
Proof.
  intros Hn Hr.
  pose proof (reachable_state_inv n s Hn Hr) as Hi. pose proof Hi as [W L].
  assert (∀ s0 x, inv n s0 → ¬ 0 ≤ x ≤ n → findUp x s0 = Undef) as Hout.
  { intros s0 x I0 Hx. apply findUp_outside. intros He. apply Hx.
    by apply (inv_elem_range n s0). }
  split.
  { intros x Hx. split; [by apply Hout|]. intros k.
    apply findUp_fuel_outside. intros He. apply Hx.
    by apply (inv_elem_range n s). }
  intros u v Huv. unfold unionByRank, unionBySize, isComponent, bind.
  destruct (decide (0 ≤ u ≤ n)) as [Hu | Hu].
  - destruct (findUp_spec s u W) as (r & s1 & F & _ & C & _ & _);
      [by apply (inv_elem_in n)|].
    rewrite F. rewrite (Hout s1 v); [done | by eapply inv_compressed | tauto].
  - by rewrite (Hout s u).
Qed.

Lemma outside_is_undefined_witness :
  (∀ x, ¬ 0 ≤ x ≤ 1 →
     findUp x (mk [0; 1] [1; 1] [1; 1]) = Undef ∧
     ∀ k, findUp_fuel (S k) x (mk [0; 1] [1; 1] [1; 1]) = Undef) ∧
  (∀ u v, ¬ (0 ≤ u ≤ 1 ∧ 0 ≤ v ≤ 1) →
     unionByRank u v (mk [0; 1] [1; 1] [1; 1]) = Undef ∧
     unionBySize u v (mk [0; 1] [1; 1] [1; 1]) = Undef ∧
     isComponent u v (mk [0; 1] [1; 1] [1; 1]) = Undef).
Proof.
  apply (outside_is_undefined 1).
  - unfold INT_MAX. lia.
  - exists [UnionByRank 0 1]. split; [repeat constructor; simpl; lia | reflexivity].
Defined.

(** ** unionBySize on two sets *)

(** C7: on a reachable state, for [u], [v] in [0..n] with distinct roots
    [ru], [rv], [unionBySize u v] returns; with [lo] the smaller and [hi]
    the larger of the two root indices, whatever their sizes, the parent
    vector left by the two calls of [findUp] gets [parent[lo] = hi] and
    [hi] stays a root; [size[hi]] becomes [size[hi] + size[lo]] (on [int];
    the exact sum when it fits) and no other entry of [size] changes;
    [rank] is not modified, and the call does the same on any other
    [rank] vector. *)
Theorem unionBySize_by_index n s u v ru rv :
  0 ≤ n ≤ INT_MAX → reachable n s → 0 ≤ u ≤ n → 0 ≤ v ≤ n →
  root_of (parent s) u ru → root_of (parent s) v rv → ru ≠ rv →
  ∃ s1 s2 s' zlo zhi,
    findUp u s = Ret (ru, s1) ∧ findUp v s1 = Ret (rv, s2) ∧
    unionBySize u v s = Ret (tt, s') ∧
    parent s' = upd (parent s2) (Z.min ru rv) (Z.max ru rv) ∧
    Vec.get (parent s') (Z.min ru rv) = Some (Z.max ru rv) ∧
    is_root (parent s') (Z.max ru rv) ∧
    Vec.get (size s) (Z.min ru rv) = Some zlo ∧
    Vec.get (size s) (Z.max ru rv) = Some zhi ∧
    size s' = upd (size s) (Z.max ru rv) (add32 zhi zlo) ∧
    (in_int (zhi + zlo) → Vec.get (size s') (Z.max ru rv) = Some (zhi + zlo)) ∧
    rank s' = rank s ∧
    (∀ rk, unionBySize u v (with_rank rk s) = Ret (tt, with_rank rk s')).
Proof.
  intros Hn Hr Hu Hv Ru Rv Hne.
  pose proof (reachable_state_inv n s Hn Hr) as Hi. pose proof Hi as [W L].
  destruct (two_finds s u v W)
    as (ru' & s1 & rv' & s2 & F1 & F2 & R1 & R2 & C & I1 & I2 & W2);
    [by apply (inv_elem_in n)..|].
  assert (ru' = ru) as -> by by eapply root_of_det.
  assert (rv' = rv) as -> by by eapply root_of_det.
  pose proof (is_root_elem _ _ I1) as E1.
  pose proof (is_root_elem _ _ I2) as E2.
  destruct (get_inside _ _ (inside_size _ _ W2 E1)) as [za Za].
  destruct (get_inside _ _ (inside_size _ _ W2 E2)) as [zb Zb].
  pose proof (unionBySize_result s u v ru s1 rv s2 za zb F1 F2 E1 E2 Za Zb) as U.
  pose proof C as [Crk Csz _]. rewrite Csz in Za, Zb.
  assert (∀ lo hi zlo zhi,
    is_root (parent s2) lo → is_root (parent s2) hi → lo ≠ hi →
    Vec.get (size s) lo = Some zlo → Vec.get (size s) hi = Some zhi →
    unionBySize u v s =
      Ret (tt, with_size (upd (size s2) hi (add32 zhi zlo)) (link lo hi s2)) →
    ∃ s' zlo zhi,
      unionBySize u v s = Ret (tt, s') ∧
      parent s' = upd (parent s2) lo hi ∧
      Vec.get (parent s') lo = Some hi ∧ is_root (parent s') hi ∧
      Vec.get (size s) lo = Some zlo ∧ Vec.get (size s) hi = Some zhi ∧
      size s' = upd (size s) hi (add32 zhi zlo) ∧
      (in_int (zhi + zlo) → Vec.get (size s') hi = Some (zhi + zlo)) ∧
      rank s' = rank s ∧
      (∀ rk, unionBySize u v (with_rank rk s) = Ret (tt, with_rank rk s')))
    as Hcase.
  { intros lo hi zlo zhi Ilo Ihi Hlh Zlo Zhi U'.
    eexists _, zlo, zhi. split; [exact U'|]. simpl.
    pose proof (get_Some_inside _ _ _ Ilo) as [Hlo0 _].
    split_and!; try done.
    - apply get_upd_eq. by eapply get_Some_inside.
    - unfold is_root. by rewrite get_upd_ne.
    - by rewrite Csz.
    - intros Hfit. rewrite add32_small by done.
      apply get_upd_eq. rewrite Csz. by eapply get_Some_inside.
    - intros rk. rewrite (unionBySize_ignores_rank rk u v s), U'. done. }
  exists s1, s2.
  destruct (decide (ru < rv)) as [Hlt | Hge].
  - rewrite Z.min_l, Z.max_r by lia.
    destruct (Hcase ru rv za zb) as (s' & zlo & zhi & H); try done.
    { unfold size_linked in U. by rewrite decide_True in U. }
    exists s', zlo, zhi. split; [done|]. split; [done|]. exact H.
  - rewrite Z.min_r, Z.max_l by lia.
    destruct (Hcase rv ru zb za) as (s' & zlo & zhi & H); try done.
    { unfold size_linked in U. by rewrite decide_False in U. }
    exists s', zlo, zhi. split; [done|]. split; [done|]. exact H.
Qed.

Lemma unionBySize_by_index_witness :
  let s := mk [0; 0; 0] [1; 1; 2] [1; 2; 1] in
  ∃ s1 s2 s' zlo zhi,
    findUp 2 s = Ret (2, s1) ∧ findUp 0 s1 = Ret (1, s2) ∧
    unionBySize 2 0 s = Ret (tt, s') ∧
    parent s' = upd (parent s2) (Z.min 2 1) (Z.max 2 1) ∧
    Vec.get (parent s') (Z.min 2 1) = Some (Z.max 2 1) ∧
    is_root (parent s') (Z.max 2 1) ∧
    Vec.get (size s) (Z.min 2 1) = Some zlo ∧
    Vec.get (size s) (Z.max 2 1) = Some zhi ∧
    size s' = upd (size s) (Z.max 2 1) (add32 zhi zlo) ∧
    (in_int (zhi + zlo) → Vec.get (size s') (Z.max 2 1) = Some (zhi + zlo)) ∧
    rank s' = rank s ∧
    (∀ rk, unionBySize 2 0 (with_rank rk s) = Ret (tt, with_rank rk s')).
Proof.
  apply (unionBySize_by_index 2).
  - unfold INT_MAX. lia.
  - exists [UnionBySize 0 1]. split; [repeat constructor; simpl; lia | reflexivity].
  - lia.
  - lia.
  - exists []. by apply path_root.
  - exists [0]. eapply path_step; [reflexivity | lia | by apply path_root].
  - lia.
Defined.

(** The element of the larger set is nevertheless the one re-parented
    when its root has the smaller index: after [unionBySize(0,1)] the set
    of root 1 has two elements and the set of root 2 one, and
    [unionBySize(1,2)] hangs root 1 below root 2. *)
Example unionBySize_ignores_sizes :
  unionBySize 1 2 (mk [0; 0; 0] [1; 1; 2] [1; 2; 1])
  = Ret (tt, mk [0; 0; 0] [1; 2; 2] [1; 2; 3]).
Proof. reflexivity. Qed.

(** ** Construction *)

(** C8 (counterexample): [DisjoinSet(-1)] does not fail: [n+1] is 0, the
    three vectors are resized to length 0 and the loop body never runs. *)
Lemma create_minus_one : create (-1) = Ret (mk [] [] []).
Proof. reflexivity. Qed.

(** C8 (amended): for an [int] [n] below [INT_MAX], the constructor fails
    when [n ≤ -2], with the [length_error] that [vector::resize] raises for
    the count [n+1] converted to [size_t]; for [n = -1] it returns an object
    with empty vectors; for [n ≥ 0] it returns an object whose three
    vectors have [n+1] entries with [parent[i] = i], [rank[i] = 0] and
    [size[i] = 1] for every [i] in [0..n]. *)
Theorem create_outcome n :
  INT_MIN ≤ n < INT_MAX →
  (n ≤ -2 → create n = Throw length_error) ∧
  (n = -1 → create n = Ret (mk [] [] [])) ∧
  (0 ≤ n →
   ∃ s, create n = Ret s ∧
        length (parent s) = Z.to_nat (n + 1) ∧
        length (rank s) = Z.to_nat (n + 1) ∧
        length (size s) = Z.to_nat (n + 1) ∧
        ∀ i, 0 ≤ i ≤ n →
          Vec.get (parent s) i = Some i ∧ Vec.get (rank s) i = Some 0 ∧
          Vec.get (size s) i = Some 1).
Proof.
  intros Hn. split_and!.
  - intros Hneg. apply create_negative. lia.
  - by intros ->.
  - intros Hpos. exists (fresh n). split; [apply create_fresh; lia|].
    simpl. rewrite length_seqZ, !length_replicate. split_and!; try done.
    intros i Hi. split_and!.
    + apply get_seqZ. lia.
    + apply get_replicate. lia.
    + apply get_replicate. lia.
Qed.

Lemma create_outcome_witness :
  create (-2) = Throw length_error ∧
  create (-1) = Ret (mk [] [] []) ∧
  ∃ s, create 2 = Ret s ∧
       length (parent s) = Z.to_nat (2 + 1) ∧
       length (rank s) = Z.to_nat (2 + 1) ∧
       length (size s) = Z.to_nat (2 + 1) ∧
       ∀ i, 0 ≤ i ≤ 2 →
         Vec.get (parent s) i = Some i ∧ Vec.get (rank s) i = Some 0 ∧
         Vec.get (size s) i = Some 1.
Proof.
  split_and!.
  - apply (create_outcome (-2)); unfold INT_MIN, INT_MAX; lia.
  - apply (create_outcome (-1)); unfold INT_MIN, INT_MAX; lia.
  - apply (create_outcome 2); unfold INT_MIN, INT_MAX; lia.
Defined.

(** ** Termination *)

(** C9: on a reachable state every method returns for arguments in
    [0..n]. [findUp x] makes one call per element of the parent chain of
    [x] and one for the root; the chain has at most [n] elements, so any
    number of calls above its length is enough, and the outcome is never
    [Diverge]. *)
Theorem methods_return n s :
  0 ≤ n ≤ INT_MAX → reachable n s →
  (∀ x, 0 ≤ x ≤ n →
     ∃ l r, path (parent s) x l r ∧ (length l ≤ Z.to_nat n)%nat ∧
            (∀ fuel, (length l < fuel)%nat →
               ∃ s', findUp_fuel fuel x s = Ret (r, s')) ∧
            ∃ s', findUp x s = Ret (r, s')) ∧
  (∀ u v, 0 ≤ u ≤ n → 0 ≤ v ≤ n →
     (∃ s', unionByRank u v s = Ret (tt, s')) ∧
     (∃ s', unionBySize u v s = Ret (tt, s')) ∧
     (∃ b s', isComponent u v s = Ret (b, s'))).
Proof.
  intros Hn Hr.
  pose proof (reachable_state_inv n s Hn Hr) as Hi. pose proof Hi as [W L].
  split.
  - intros x Hx.
    destruct (findUp_wf s x W) as (l & r & Hp & F); [by apply (inv_elem_in n)|].
    exists l, r. split_and!; [done | | | by eexists].
    + apply path_length in Hp. lia.
    + intros fuel Hfuel. eexists. by apply findUp_fuel_path.
  - intros u v Hu Hv.
    pose proof (inv_elem_in n s u Hi Hu) as Eu.
    pose proof (inv_elem_in n s v Hi Hv) as Ev.
    split_and!.
    + destruct (unionByRank_joined s u v W Eu Ev) as (s' & U & _). by exists s'.
    + destruct (unionBySize_joined s u v W Eu Ev) as (s' & U & _). by exists s'.
    + destruct (isComponent_spec s u v W Eu Ev) as (a & b & s' & Q & _).
      by eexists _, s'.
Qed.

Lemma methods_return_witness :
  let s := mk [0; 1; 0; 2] [1; 3; 3; 3] [1; 1; 1; 1] in
  (∀ x, 0 ≤ x ≤ 3 →
     ∃ l r, path (parent s) x l r ∧ (length l ≤ Z.to_nat 3)%nat ∧
            (∀ fuel, (length l < fuel)%nat →
               ∃ s', findUp_fuel fuel x s = Ret (r, s')) ∧
            ∃ s', findUp x s = Ret (r, s')) ∧
  (∀ u v, 0 ≤ u ≤ 3 → 0 ≤ v ≤ 3 →
     (∃ s', unionByRank u v s = Ret (tt, s')) ∧
     (∃ s', unionBySize u v s = Ret (tt, s')) ∧
     (∃ b s', isComponent u v s = Ret (b, s'))).
Proof.
  apply (methods_return 3).
  - unfold INT_MAX. lia.
  - exists [UnionByRank 0 1; UnionByRank 2 3; UnionByRank 0 2].
    split; [repeat constructor; simpl; lia | reflexivity].
Defined.

(** ** Bookkeeping *)

(** C10: [unionByRank] ignores [size] and [unionBySize] ignores [rank]:
    run on a state whose vector is overwritten, they have the outcome they
    had, with that vector still as overwritten; [findUp] and [isComponent]
    ignore both. So a call of [unionByRank] returns with [size] as it
    was, a call of [unionBySize] with [rank] as it was, and a call of
    [findUp] or [isComponent] with both as they were. *)
Theorem bookkeeping_frames :
  (∀ z u v, ignores (with_size z) (unionByRank u v)) ∧
  (∀ r u v, ignores (with_rank r) (unionBySize u v)) ∧
  (∀ r z x, ignores (with_rank r) (findUp x) ∧
            ignores (with_size z) (findUp x)) ∧
  (∀ r z v u, ignores (with_rank r) (isComponent v u) ∧
              ignores (with_size z) (isComponent v u)) ∧
  (∀ s u v s', unionByRank u v s = Ret (tt, s') → size s' = size s) ∧
  (∀ s u v s', unionBySize u v s = Ret (tt, s') → rank s' = rank s) ∧
  (∀ s x r s', findUp x s = Ret (r, s') →
               rank s' = rank s ∧ size s' = size s) ∧
  (∀ s v u b s', isComponent v u s = Ret (b, s') →
                 rank s' = rank s ∧ size s' = size s).
Proof.
  split_and!.
  - apply unionByRank_ignores_size.
  - apply unionBySize_ignores_rank.
  - intros. split; apply findUp_ignores;
      [apply keeps_parent_rank | apply keeps_parent_size].
  - intros. split; apply isComponent_ignores;
      [apply keeps_parent_rank | apply keeps_parent_size].
  - intros s u v s' H. eapply ignores_size_unchanged; [|exact H].
    intros z. apply unionByRank_ignores_size.
  - intros s u v s' H. eapply ignores_rank_unchanged; [|exact H].
    intros r. apply unionBySize_ignores_rank.
  - intros s x r s' H. split.
    + eapply ignores_rank_unchanged; [|exact H].
      intros r0. apply findUp_ignores, keeps_parent_rank.
    + eapply ignores_size_unchanged; [|exact H].
      intros z. apply findUp_ignores, keeps_parent_size.
  - intros s v u b s' H. split.
    + eapply ignores_rank_unchanged; [|exact H].
      intros r0. apply isComponent_ignores, keeps_parent_rank.
    + eapply ignores_size_unchanged; [|exact H].
      intros z. apply isComponent_ignores, keeps_parent_size.
Qed.

Lemma bookkeeping_frames_witness :
  size (mk [0; 1] [1; 1] [7; 9]) = size (mk [0; 0] [0; 1] [7; 9]) ∧
  rank (mk [5; 6] [1; 1] [1; 2]) = rank (mk [5; 6] [0; 1] [1; 1]).
Proof.
  split.
  - apply (proj1 (proj2 (proj2 (proj2 (proj2 bookkeeping_frames))))
             (mk [0; 0] [0; 1] [7; 9]) 0 1).
    reflexivity.
  - apply (proj1 (proj2 (proj2 (proj2 (proj2 (proj2 bookkeeping_frames)))))
             (mk [5; 6] [0; 1] [1; 1]) 0 1).
    reflexivity.
Defined.

(** * Further properties of the class *)

(** ** Union of two elements of one set *)

(** X9: on a reachable state, for [u] and [v] of [0..n] with the same
    root [r], both union methods return without error, in a state that
    differs from the one before in two places only. The parent vector is
    the one left by the two calls of [findUp] (paths compressed, every
    element with the root it had). [unionByRank] leaves [size] as it was
    and adds 1 to [rank[r]], and to no other rank; [unionBySize] leaves
    [rank] as it was and adds [size[r]] to itself, changing no other
    size. *)
Theorem union_same_set n s u v r :
  0 ≤ n ≤ INT_MAX → reachable n s → 0 ≤ u ≤ n → 0 ≤ v ≤ n →
  root_of (parent s) u r → root_of (parent s) v r →
  ∃ s1 s2 k z,
    findUp u s = Ret (r, s1) ∧ findUp v s1 = Ret (r, s2) ∧
    (∀ y ry, root_of (parent s2) y ry ↔ root_of (parent s) y ry) ∧
    Vec.get (rank s) r = Some k ∧ Vec.get (size s) r = Some z ∧
    unionByRank u v s
    = Ret (tt, mk (upd (rank s) r (add32 k 1)) (parent s2) (size s)) ∧
    unionBySize u v s
    = Ret (tt, mk (rank s) (parent s2) (upd (size s) r (add32 z z))).
Proof.
  intros Hn Hr Hu Hv Ru Rv.
  pose proof (reachable_state_inv n s Hn Hr) as Hi. pose proof Hi as [W L].
  destruct (two_finds s u v W)
    as (ru & s1 & rv & s2 & F1 & F2 & R1 & R2 & C & I1 & I2 & W2);
    [by apply (inv_elem_in n)..|].
  assert (ru = r) as -> by by eapply root_of_det.
  assert (rv = r) as -> by by eapply root_of_det.
  pose proof (is_root_elem _ _ I1) as E1.
  destruct (get_inside _ _ (inside_rank _ _ W2 E1)) as [k Hk].
  destruct (get_inside _ _ (inside_size _ _ W2 E1)) as [z Hz].
  pose proof C as [Crk Csz _].
  exists s1, s2, k, z. split_and!; try done.
  - intros y ry. split.
    + eapply keeps_roots_inv; [by apply wf_forest | apply C].
    + apply C.
  - by rewrite <- Crk.
  - by rewrite <- Csz.
  - rewrite (unionByRank_result s u v r s1 r s2 k k) by done.
    unfold rank_linked, link. rewrite !decide_False by lia.
    unfold is_root in I1. destruct s2 as [rk2 p2 sz2]. simpl in *.
    by rewrite (upd_id p2 r r I1), Crk, Csz.
  - rewrite (unionBySize_result s u v r s1 r s2 z z) by done.
    unfold size_linked, link. rewrite decide_False by lia.
    unfold is_root in I1. destruct s2 as [rk2 p2 sz2]. simpl in *.
    by rewrite (upd_id p2 r r I1), Crk, Csz.
Qed.

Lemma union_same_set_witness :
  let s := mk [0; 1] [1; 1] [1; 1] in
  ∃ s1 s2 k z,
    findUp 0 s = Ret (1, s1) ∧ findUp 1 s1 = Ret (1, s2) ∧
    (∀ y ry, root_of (parent s2) y ry ↔ root_of (parent s) y ry) ∧
    Vec.get (rank s) 1 = Some k ∧ Vec.get (size s) 1 = Some z ∧
    unionByRank 0 1 s
    = Ret (tt, mk (upd (rank s) 1 (add32 k 1)) (parent s2) (size s)) ∧
    unionBySize 0 1 s
    = Ret (tt, mk (rank s) (parent s2) (upd (size s) 1 (add32 z z))).
Proof.
  apply (union_same_set 1).
  - unfold INT_MAX. lia.
  - exists [UnionByRank 0 1]. split; [repeat constructor; simpl; lia | reflexivity].
  - lia.
  - lia.
  - exists [0]. eapply path_step; [reflexivity | lia | by apply path_root].
  - exists []. by apply path_root.
Defined.

(** ** unionByRank on two sets *)

(** X1: on a reachable state, for [u], [v] in [0..n] with distinct roots
    [ru], [rv] of ranks [ka], [kb], [unionByRank u v] returns; on the
    parent vector left by its two calls of [findUp] it sets
    [parent[ru] = rv] when [ka < kb], [parent[rv] = ru] when [ka > kb],
    and for equal ranks [parent[ru] = rv] with [rank[rv]] incremented
    (on [int]); no other entry of [rank] and no entry of [size] changes. *)
Theorem unionByRank_by_rank n s u v ru rv :
  0 ≤ n ≤ INT_MAX → reachable n s → 0 ≤ u ≤ n → 0 ≤ v ≤ n →
  root_of (parent s) u ru → root_of (parent s) v rv → ru ≠ rv →
  ∃ s1 s2 s' ka kb,
    findUp u s = Ret (ru, s1) ∧ findUp v s1 = Ret (rv, s2) ∧
    Vec.get (rank s) ru = Some ka ∧ Vec.get (rank s) rv = Some kb ∧
    unionByRank u v s = Ret (tt, s') ∧ size s' = size s ∧
    (ka < kb → parent s' = upd (parent s2) ru rv ∧ rank s' = rank s) ∧
    (ka > kb → parent s' = upd (parent s2) rv ru ∧ rank s' = rank s) ∧
    (ka = kb → parent s' = upd (parent s2) ru rv ∧
               rank s' = upd (rank s) rv (add32 kb 1)).
Proof.
  intros Hn Hr Hu Hv Ru Rv Hne.
  pose proof (reachable_state_inv n s Hn Hr) as Hi. pose proof Hi as [W L].
  destruct (two_finds s u v W)
    as (ru' & s1 & rv' & s2 & F1 & F2 & R1 & R2 & C & I1 & I2 & W2);
    [by apply (inv_elem_in n)..|].
  assert (ru' = ru) as -> by by eapply root_of_det.
  assert (rv' = rv) as -> by by eapply root_of_det.
  pose proof (is_root_elem _ _ I1) as E1.
  pose proof (is_root_elem _ _ I2) as E2.
  destruct (get_inside _ _ (inside_rank _ _ W2 E1)) as [ka Ka].
  destruct (get_inside _ _ (inside_rank _ _ W2 E2)) as [kb Kb].
  pose proof (unionByRank_result s u v ru s1 rv s2 ka kb F1 F2 E1 E2 Ka Kb) as U.
  pose proof C as [Crk Csz _]. rewrite Crk in Ka, Kb.
  exists s1, s2, (rank_linked ru rv ka kb s2), ka, kb.
  split_and!; try done.
  - unfold rank_linked. repeat case_decide; simpl; done.
  - intros Hlt. unfold rank_linked. rewrite decide_True by done. done.
  - intros Hgt. unfold rank_linked.
    rewrite decide_False by lia. rewrite decide_True by done. done.
  - intros ->. unfold rank_linked. rewrite !decide_False by lia. simpl.
    by rewrite Crk.
Qed.

Lemma unionByRank_by_rank_witness :
  let s := mk [0; 1; 0] [1; 1; 2] [1; 1; 1] in
  ∃ s1 s2 s' ka kb,
    findUp 2 s = Ret (2, s1) ∧ findUp 0 s1 = Ret (1, s2) ∧
    Vec.get (rank s) 2 = Some ka ∧ Vec.get (rank s) 1 = Some kb ∧
    unionByRank 2 0 s = Ret (tt, s') ∧ size s' = size s ∧
    (ka < kb → parent s' = upd (parent s2) 2 1 ∧ rank s' = rank s) ∧
    (ka > kb → parent s' = upd (parent s2) 1 2 ∧ rank s' = rank s) ∧
    (ka = kb → parent s' = upd (parent s2) 2 1 ∧
               rank s' = upd (rank s) 1 (add32 kb 1)).
Proof.
  apply (unionByRank_by_rank 2).
  - unfold INT_MAX. lia.
  - exists [UnionByRank 0 1]. split; [repeat constructor; simpl; lia | reflexivity].
  - lia.
  - lia.
  - exists []. by apply path_root.
  - exists [0]. eapply path_step; [reflexivity | lia | by apply path_root].
  - lia.
Defined.

(** ** What calls do to the partition *)

Lemma sameset_compressed s s' x y :
  wf s → compressed s s' → sameset s' x y ↔ sameset s x y.
Proof.
  intros W C. split; intros (r & Hx & Hy); exists r.
  - split; (eapply keeps_roots_inv; [by apply wf_forest | apply C | done]).
  - destruct C as [_ _ [_ K]]. split; by apply K.
Qed.

Lemma sameset_joined s s' u v x y :
  wf s → joined s s' u v → elem s x → elem s y →
  sameset s' x y ↔
  sameset s x y ∨ (sameset s x u ∧ sameset s v y) ∨
  (sameset s x v ∧ sameset s u y).
Proof.
  intros W (a & b & Hor & [Hlen Hm]) Ex Ey.
  destruct (wf_forest _ W x Ex) as (lx & rx & Px).
  destruct (wf_forest _ W y Ey) as (ly & ry & Py).
  assert (root_of (parent s) x rx) as Rx by by exists lx.
  assert (root_of (parent s) y ry) as Ry by by exists ly.
  pose proof (Hm x rx Rx) as Rx'. pose proof (Hm y ry Ry) as Ry'.
  assert (∀ z r1 r2, root_of (parent s) z r1 → root_of (parent s) z r2 →
                     r1 = r2) as Hdet by (intros; by eapply root_of_det).
  split.
  - intros (r' & Hx' & Hy').
    assert ((if decide (rx = a) then b else rx)
            = (if decide (ry = a) then b else ry)) as Hf.
    { rewrite <- (root_of_det _ _ _ _ Hx' Rx'). by eapply root_of_det. }
    clear Rx' Ry'.
    destruct (decide (rx = a)) as [Hxa | Hxa], (decide (ry = a)) as [Hya | Hya].
    + left. exists a. split; congruence.
    + subst rx ry. destruct Hor as [[Ru Rv] | [Ru Rv]].
      * right; left. split; [by exists a | by exists b].
      * right; right. split; [by exists a | by exists b].
    + subst rx ry. destruct Hor as [[Ru Rv] | [Ru Rv]].
      * right; right. split; [by exists b | by exists a].
      * right; left. split; [by exists b | by exists a].
    + left. exists rx. split; congruence.
  - assert (rx = ry ∨ (rx = a ∧ ry = b) ∨ (rx = b ∧ ry = a) → sameset s' x y)
      as Hgo.
    { intros Hc. exists (if decide (rx = a) then b else rx). split; [done|].
      replace (if decide (rx = a) then b else rx)
        with (if decide (ry = a) then b else ry); [done|].
      destruct Hc as [-> | [[-> ->] | [-> ->]]]; repeat case_decide; congruence. }
    intros [(r & Hx & Hy) | [[(r1 & Hx & Hu) (r2 & Hv & Hy)]
                            | [(r1 & Hx & Hv) (r2 & Hu & Hy)]]]; apply Hgo.
    + left. rewrite (Hdet x rx r), (Hdet y ry r); done.
    + rewrite (Hdet x rx r1), (Hdet y ry r2) by done.
      destruct Hor as [[Ru Rv] | [Ru Rv]].
      * right; left. split; [exact (Hdet u _ _ Hu Ru) | exact (Hdet v _ _ Hv Rv)].
      * right; right. split; [exact (Hdet u _ _ Hu Ru) | exact (Hdet v _ _ Hv Rv)].
    + rewrite (Hdet x rx r1), (Hdet y ry r2) by done.
      destruct Hor as [[Ru Rv] | [Ru Rv]].
      * right; right. split; [exact (Hdet v _ _ Hv Rv) | exact (Hdet u _ _ Hu Ru)].
      * right; left. split; [exact (Hdet v _ _ Hv Rv) | exact (Hdet u _ _ Hu Ru)].
Qed.

Lemma isComponent_sameset s x y :
  wf s → elem s x → elem s y →
  ∃ b s', isComponent x y s = Ret (b, s') ∧ (b = true ↔ sameset s x y).
Proof.
  intros W Ex Ey.
  destruct (isComponent_spec s x y W Ex Ey) as (rx & ry & s' & Q & Rx & Ry & _).
  exists (bool_decide (rx = ry)), s'. split; [done|].
  rewrite bool_decide_eq_true. split.
  - intros ->. by exists ry.
  - intros (r & Hx & Hy).
    rewrite (root_of_det _ _ _ _ Rx Hx). by eapply root_of_det.
Qed.

Lemma union_sameset n s u v :
  inv n s → 0 ≤ u ≤ n → 0 ≤ v ≤ n →
  ∃ sa sb,
    unionByRank u v s = Ret (tt, sa) ∧ unionBySize u v s = Ret (tt, sb) ∧
    inv n sa ∧ inv n sb ∧
    ∀ x y, 0 ≤ x ≤ n → 0 ≤ y ≤ n →
      (sameset sa x y ↔
       sameset s x y ∨ (sameset s x u ∧ sameset s v y) ∨
       (sameset s x v ∧ sameset s u y)) ∧
      (sameset sb x y ↔
       sameset s x y ∨ (sameset s x u ∧ sameset s v y) ∨
       (sameset s x v ∧ sameset s u y)).
Proof.
  intros Hi Hu Hv. pose proof Hi as [W L].
  pose proof (inv_elem_in n s u Hi Hu) as Eu.
  pose proof (inv_elem_in n s v Hi Hv) as Ev.
  destruct (unionByRank_joined s u v W Eu Ev) as (sa & Ua & Wa & Ja & _).
  destruct (unionBySize_joined s u v W Eu Ev) as (sb & Ub & Wb & Jb & _).
  exists sa, sb. split_and!; try done; [by eapply inv_joined..|].
  intros x y Hx Hy.
  pose proof (inv_elem_in n s x Hi Hx) as Ex.
  pose proof (inv_elem_in n s y Hi Hy) as Ey.
  split; by apply sameset_joined.
Qed.

(** X2: on a reachable state, after [unionByRank u v] as after
    [unionBySize u v], two elements of [0..n] have the same root exactly
    when they had before, or one was in the set of [u] and the other in the
    set of [v]. *)
Theorem union_partition n s u v :
  0 ≤ n ≤ INT_MAX → reachable n s → 0 ≤ u ≤ n → 0 ≤ v ≤ n →
  ∃ sa sb,
    unionByRank u v s = Ret (tt, sa) ∧ unionBySize u v s = Ret (tt, sb) ∧
    ∀ x y, 0 ≤ x ≤ n → 0 ≤ y ≤ n →
      (sameset sa x y ↔
       sameset s x y ∨ (sameset s x u ∧ sameset s v y) ∨
       (sameset s x v ∧ sameset s u y)) ∧
      (sameset sb x y ↔
       sameset s x y ∨ (sameset s x u ∧ sameset s v y) ∨
       (sameset s x v ∧ sameset s u y)).
Proof.
  intros Hn Hr Hu Hv. pose proof (reachable_state_inv n s Hn Hr) as Hi.
  destruct (union_sameset n s u v Hi Hu Hv) as (sa & sb & Ua & Ub & _ & _ & H).
  by exists sa, sb.
Qed.

Lemma union_partition_witness :
  let s := mk [0; 1; 0] [1; 1; 2] [1; 1; 1] in
  ∃ sa sb,
    unionByRank 0 2 s = Ret (tt, sa) ∧ unionBySize 0 2 s = Ret (tt, sb) ∧
    ∀ x y, 0 ≤ x ≤ 2 → 0 ≤ y ≤ 2 →
      (sameset sa x y ↔
       sameset s x y ∨ (sameset s x 0 ∧ sameset s 2 y) ∨
       (sameset s x 2 ∧ sameset s 0 y)) ∧
      (sameset sb x y ↔
       sameset s x y ∨ (sameset s x 0 ∧ sameset s 2 y) ∨
       (sameset s x 2 ∧ sameset s 0 y)).
Proof.
  apply (union_partition 2).
  - unfold INT_MAX. lia.
  - exists [UnionByRank 0 1]. split; [repeat constructor; simpl; lia | reflexivity].
  - lia.
  - lia.
Defined.

(** X3: a union is commutative and idempotent in its effect on the
    partition: on a reachable state [unionByRank u v], [unionByRank v u],
    [unionBySize u v] and [unionBySize v u] all return, in states in which
    the same elements of [0..n] share a root, and [unionByRank v u] after
    [unionByRank u v] (likewise for [unionBySize]) changes no set. *)
Theorem union_commutes n s u v :
  0 ≤ n ≤ INT_MAX → reachable n s → 0 ≤ u ≤ n → 0 ≤ v ≤ n →
  ∃ s1 s2 s3 s4 s5 s6,
    unionByRank u v s = Ret (tt, s1) ∧ unionByRank v u s = Ret (tt, s2) ∧
    unionBySize u v s = Ret (tt, s3) ∧ unionBySize v u s = Ret (tt, s4) ∧
    unionByRank v u s1 = Ret (tt, s5) ∧ unionBySize v u s3 = Ret (tt, s6) ∧
    ∀ x y, 0 ≤ x ≤ n → 0 ≤ y ≤ n →
      (sameset s1 x y ↔ sameset s2 x y) ∧ (sameset s1 x y ↔ sameset s3 x y) ∧
      (sameset s1 x y ↔ sameset s4 x y) ∧ (sameset s1 x y ↔ sameset s5 x y) ∧
      (sameset s1 x y ↔ sameset s6 x y).
Proof.
  intros Hn Hr Hu Hv. pose proof (reachable_state_inv n s Hn Hr) as Hi.
  destruct (union_sameset n s u v Hi Hu Hv) as (s1 & s3 & U1 & U3 & I1 & I3 & H13).
  destruct (union_sameset n s v u Hi Hv Hu) as (s2 & s4 & U2 & U4 & _ & _ & H24).
  destruct (union_sameset n s1 v u I1 Hv Hu) as (s5 & s5' & U5 & _ & _ & _ & H5).
  destruct (union_sameset n s3 v u I3 Hv Hu) as (s6' & s6 & _ & U6 & _ & _ & H6).
  exists s1, s2, s3, s4, s5, s6. split_and!; try done.
  intros x y Hx Hy.
  destruct (H13 x y Hx Hy) as [A1 A3]. destruct (H24 x y Hx Hy) as [A2 A4].
  destruct (H5 x y Hx Hy) as [A5 _]. destruct (H6 x y Hx Hy) as [_ A6].
  assert (sameset s u u) as Suu.
  { destruct (wf_forest _ (proj1 Hi) u (inv_elem_in n s u Hi Hu)) as (l & r & P).
    exists r. split; by exists l. }
  assert (sameset s v v) as Svv.
  { destruct (wf_forest _ (proj1 Hi) v (inv_elem_in n s v Hi Hv)) as (l & r & P).
    exists r. split; by exists l. }
  assert (∀ t a b c, sameset t a b → sameset t b c → sameset t a c) as Htr.
  { intros t a b c (r1 & Ha & Hb) (r2 & Hb' & Hc).
    exists r1. split; [done|]. by rewrite (root_of_det _ _ _ _ Hb Hb'). }
  assert (∀ t a b, sameset t a b → sameset t b a) as Hsy.
  { intros t a b (r & Ha & Hb). by exists r. }
  assert (sameset s1 u v) as S1uv by (apply H13; try done; right; left; done).
  assert (sameset s3 u v) as S3uv by (apply H13; try done; right; left; done).
  split_and!.
  - rewrite A1, A2. clear. tauto.
  - rewrite A1, A3. clear. tauto.
  - rewrite A1, A4. clear. tauto.
  - rewrite A5. split; [by left|].
    intros [H | [[H1 H2] | [H1 H2]]]; [done | |].
    + eapply Htr; [exact H1|]. eapply Htr; [apply Hsy; exact S1uv | exact H2].
    + eapply Htr; [exact H1|]. eapply Htr; [exact S1uv | exact H2].
  - rewrite A6. rewrite A1, <- A3. split; [by left|].
    intros [H | [[H1 H2] | [H1 H2]]]; [done | |].
    + eapply Htr; [exact H1|]. eapply Htr; [apply Hsy; exact S3uv | exact H2].
    + eapply Htr; [exact H1|]. eapply Htr; [exact S3uv | exact H2].
Qed.

Lemma union_commutes_witness :
  let s := mk [0; 1; 0] [1; 1; 2] [1; 1; 1] in
  ∃ s1 s2 s3 s4 s5 s6,
    unionByRank 0 2 s = Ret (tt, s1) ∧ unionByRank 2 0 s = Ret (tt, s2) ∧
    unionBySize 0 2 s = Ret (tt, s3) ∧ unionBySize 2 0 s = Ret (tt, s4) ∧
    unionByRank 2 0 s1 = Ret (tt, s5) ∧ unionBySize 2 0 s3 = Ret (tt, s6) ∧
    ∀ x y, 0 ≤ x ≤ 2 → 0 ≤ y ≤ 2 →
      (sameset s1 x y ↔ sameset s2 x y) ∧ (sameset s1 x y ↔ sameset s3 x y) ∧
      (sameset s1 x y ↔ sameset s4 x y) ∧ (sameset s1 x y ↔ sameset s5 x y) ∧
      (sameset s1 x y ↔ sameset s6 x y).
Proof.
  apply (union_commutes 2).
  - unfold INT_MAX. lia.
  - exists [UnionByRank 0 1]. split; [repeat constructor; simpl; lia | reflexivity].
  - lia.
  - lia.
Defined.

Lemma sameset_step s s' c x y :
  wf s → step s s' c → elem s x → elem s y →
  (sameset s x y → sameset s' x y) ∧
  (is_query c → sameset s' x y → sameset s x y).
Proof.
  intros W St Ex Ey.
  destruct St as [z C | a b C | u v J _ | u v J _]; simpl.
  - pose proof (sameset_compressed s s' x y W C). tauto.
  - pose proof (sameset_compressed s s' x y W C). tauto.
  - pose proof (sameset_joined s s' u v x y W J Ex Ey). tauto.
  - pose proof (sameset_joined s s' u v x y W J Ex Ey). tauto.
Qed.

(** X4: merges are never undone and queries change no answer: on a
    reachable state every call [c] with arguments in [0..n] returns, and
    for all [x], [y] of [0..n] an [isComponent x y] that was true before
    the call is true after it; when [c] is a [findUp] or an [isComponent],
    the answer after it is the answer before it. *)
Theorem connectivity_only_grows n s c :
  0 ≤ n ≤ INT_MAX → reachable n s → in_range n c →
  ∃ s', exec c s = Ret (tt, s') ∧
    ∀ x y, 0 ≤ x ≤ n → 0 ≤ y ≤ n →
      ∃ b b' t t',
        isComponent x y s = Ret (b, t) ∧ isComponent x y s' = Ret (b', t') ∧
        (b = true → b' = true) ∧ (is_query c → b' = b).
Proof.
  intros Hn Hr Hc. pose proof (reachable_state_inv n s Hn Hr) as Hi.
  pose proof Hi as [W L].
  destruct (exec_step n s c) as (s' & E & Hi' & St); [lia | done | done |].
  exists s'. split; [done|]. intros x y Hx Hy.
  pose proof (inv_elem_in n s x Hi Hx) as Ex.
  pose proof (inv_elem_in n s y Hi Hy) as Ey.
  destruct (isComponent_sameset s x y W Ex Ey) as (b & t & Q & Hb).
  destruct (isComponent_sameset s' x y (proj1 Hi'))
    as (b' & t' & Q' & Hb'); [by apply (inv_elem_in n)..|].
  exists b, b', t, t'. split_and!; try done.
  - intros Ht. apply Hb'. apply (sameset_step s s' c x y W St Ex Ey).
    by apply Hb.
  - intros Hq.
    destruct (sameset_step s s' c x y W St Ex Ey) as [H1 H2].
    destruct b, b'; try done.
    + apply Hb'. apply H1. by apply Hb.
    + symmetry. apply Hb. apply (H2 Hq). by apply Hb'.
Qed.

Lemma connectivity_only_grows_witness :
  let s := mk [0; 1; 0] [1; 1; 2] [1; 1; 1] in
  ∃ s', exec (UnionBySize 1 2) s = Ret (tt, s') ∧
    ∀ x y, 0 ≤ x ≤ 2 → 0 ≤ y ≤ 2 →
      ∃ b b' t t',
        isComponent x y s = Ret (b, t) ∧ isComponent x y s' = Ret (b', t') ∧
        (b = true → b' = true) ∧ (is_query (UnionBySize 1 2) → b' = b).
Proof.
  apply (connectivity_only_grows 2).
  - unfold INT_MAX. lia.
  - exists [UnionByRank 0 1]. split; [repeat constructor; simpl; lia | reflexivity].
  - simpl. lia.
Defined.

(** ** Sequences of calls under one union policy *)

Lemma findUp_shape s x r s' :
  wf s → elem s x → findUp x s = Ret (r, s') →
  ∃ l, path (parent s) x l r ∧ s' = with_parent (compress (parent s) l r) s.
Proof.
  intros W Ex F. destruct (findUp_wf s x W Ex) as (l & r0 & P & F0).
  rewrite F in F0. simplify_eq. by exists l.
Qed.

(** A property [I] of states that path compression keeps is kept by
    [findUp] and by the two calls of [findUp] that open the other
    methods. *)
Lemma findUp_keeps (I : t → Prop) s x r s' :
  (∀ s x l r, wf s → I s → path (parent s) x l r →
              I (with_parent (compress (parent s) l r) s)) →
  wf s → elem s x → I s → findUp x s = Ret (r, s') → I s'.
Proof.
  intros HI W Ex Hs F. destruct (findUp_shape s x r s' W Ex F) as (l & P & ->).
  by apply (HI s x l r).
Qed.

Lemma two_finds_keep (I : t → Prop) s u v :
  (∀ s x l r, wf s → I s → path (parent s) x l r →
              I (with_parent (compress (parent s) l r) s)) →
  wf s → elem s u → elem s v → I s →
  ∃ ru s1 rv s2,
    findUp u s = Ret (ru, s1) ∧ findUp v s1 = Ret (rv, s2) ∧
    root_of (parent s) u ru ∧ root_of (parent s) v rv ∧
    compressed s s2 ∧ is_root (parent s2) ru ∧ is_root (parent s2) rv ∧
    wf s2 ∧ I s2.
Proof.
  intros HI W Eu Ev Hs.
  destruct (two_finds s u v W Eu Ev)
    as (ru & s1 & rv & s2 & F1 & F2 & R1 & R2 & C & I1 & I2 & W2).
  exists ru, s1, rv, s2. split_and!; try done.
  destruct (findUp_spec s u W Eu) as (ru' & s1' & F1' & _ & C1 & _ & W1).
  rewrite F1 in F1'. simplify_eq.
  eapply (findUp_keeps I s1' v rv s2); try done.
  - by apply (compressed_elem s s1').
  - by eapply (findUp_keeps I s u).
Qed.

(** *** unionBySize alone: the root is the largest element *)

Lemma path_upward p x l r : upward p → path p x l r → x ≤ r.
Proof.
  intros Hu. induction 1 as [x Hx | x j l r Hx Hne Hp IH]; [lia|].
  pose proof (Hu x j Hx). lia.
Qed.

Lemma upward_compress s x l r :
  wf s → upward (parent s) → path (parent s) x l r →
  upward (parent (with_parent (compress (parent s) l r) s)).
Proof.
  intros _ Hu P y j. simpl. destruct (decide (y ∈ l)) as [Hy | Hy].
  - rewrite (get_compress_on _ _ _ _ (path_Forall_inside _ _ _ _ P) Hy).
    intros [= <-].
    destruct (path_suffix _ _ _ _ _ P Hy) as (l' & Pl' & _).
    by eapply path_upward.
  - rewrite (get_compress_other _ _ _ _ (path_Forall_inside _ _ _ _ P) Hy).
    apply Hu.
Qed.

Lemma upward_upd p a b : upward p → inside p a → a ≤ b → upward (upd p a b).
Proof.
  intros Hu Ha Hab y j. destruct (decide (a = y)) as [<- | Hne].
  - rewrite get_upd_eq by done. intros [= <-]. done.
  - rewrite get_upd_ne by (done || apply Ha). apply Hu.
Qed.

Lemma exec_upward n s c s' :
  inv n s → upward (parent s) → in_range n c → not_by_rank c →
  exec c s = Ret (tt, s') → upward (parent s').
Proof.
  intros Hi Hu Hc Hp E. pose proof Hi as [W L].
  destruct c as [x | u v | u v | v u]; simpl in Hc, Hp, E; [|done| |].
  - unfold bind in E. destruct (findUp x s) as [[r s1]| | |] eqn:F; try done.
    unfold ret in E. simplify_eq.
    apply (findUp_keeps (λ s, upward (parent s)) s x r s' upward_compress);
      try done.
    by apply (inv_elem_in n).
  - destruct (two_finds_keep (λ s, upward (parent s)) s u v upward_compress)
      as (ru & s1 & rv & s2 & F1 & F2 & _ & _ & _ & I1 & I2 & W2 & U2);
      try done; [apply (inv_elem_in n); tauto..|].
    pose proof (is_root_elem _ _ I1) as E1.
    pose proof (is_root_elem _ _ I2) as E2.
    destruct (get_inside _ _ (inside_size _ _ W2 E1)) as [za Za].
    destruct (get_inside _ _ (inside_size _ _ W2 E2)) as [zb Zb].
    rewrite (unionBySize_result s u v ru s1 rv s2 za zb F1 F2 E1 E2 Za Zb) in E.
    simplify_eq. unfold size_linked. case_decide; simpl.
    + apply upward_upd; [done | done | lia].
    + apply upward_upd; [done | done | lia].
  - destruct (two_finds_keep (λ s, upward (parent s)) s v u upward_compress)
      as (rv & s1 & ru & s2 & F1 & F2 & _ & _ & _ & _ & _ & _ & U2);
      try done; [apply (inv_elem_in n); tauto..|].
    unfold isComponent, bind in E. rewrite F1, F2 in E.
    unfold ret in E. by simplify_eq.
Qed.

Lemma run_keeps (P : call → Prop) (I : t → Prop) n :
  0 ≤ n →
  (∀ s c s', inv n s → I s → in_range n c → P c →
             exec c s = Ret (tt, s') → I s') →
  ∀ cs s s',
    inv n s → I s → Forall (in_range n) cs → Forall P cs →
    run cs s = Ret (tt, s') → inv n s' ∧ I s'.
Proof.
  intros Hn HI cs. induction cs as [|c cs IH]; intros s s' Hi Hs Hr Hp R.
  - simpl in R. unfold ret in R. by simplify_eq.
  - destruct (Forall_cons_1 _ _ _ Hr) as [Hc Hr'].
    destruct (Forall_cons_1 _ _ _ Hp) as [Pc Hp'].
    destruct (exec_step n s c Hn Hi Hc) as (s1 & E & I1 & _).
    simpl in R. rewrite (bind_Ret _ _ _ _ _ E) in R.
    apply (IH s1 s'); try done. exact (HI s c s1 Hi Hs Hc Pc E).
Qed.

Lemma session_keeps (P : call → Prop) (I : t → Prop) n cs :
  0 ≤ n < INT_MAX →
  (∀ s c s', inv n s → I s → in_range n c → P c →
             exec c s = Ret (tt, s') → I s') →
  I (fresh n) → Forall (in_range n) cs → Forall P cs →
  ∃ s, session n cs = Ret s ∧ inv n s ∧ I s.
Proof.
  intros Hn HI H0 Hr Hp.
  destruct (run_inv n cs (fresh n)) as (s & R & Hi);
    [lia | apply fresh_inv; lia | done |].
  exists s. split; [rewrite session_run by lia; by rewrite R|].
  assert (0 ≤ n) as Hn0 by lia.
  apply (run_keeps P I n Hn0 HI cs (fresh n) s); try done.
  apply fresh_inv; lia.
Qed.

Lemma upward_fresh n : upward (parent (fresh n)).
Proof.
  intros x j Hx. pose proof (get_Some_inside _ _ _ Hx) as Hin.
  unfold inside in Hin. simpl in *. rewrite length_seqZ in Hin.
  rewrite get_seqZ in Hx by lia. simplify_eq. lia.
Qed.

(** X5: with [unionBySize] as the only union, the root of a set is its
    largest element: after any sequence of [unionBySize], [findUp] and
    [isComponent] calls with arguments in [0..n], [findUp x] returns an
    element of the set of [x] that no element of that set exceeds. *)
Theorem unionBySize_root_is_max n cs :
  0 ≤ n < INT_MAX → Forall (in_range n) cs → Forall not_by_rank cs →
  ∃ s, session n cs = Ret s ∧
    ∀ x, 0 ≤ x ≤ n →
      ∃ r s', findUp x s = Ret (r, s') ∧ sameset s x r ∧
              ∀ y, 0 ≤ y ≤ n → sameset s x y → y ≤ r.
Proof.
  intros Hn Hr Hp.
  destruct (session_keeps not_by_rank (λ s, upward (parent s)) n cs)
    as (s & S & Hi & Hu); try done.
  { intros. by eapply exec_upward. }
  { apply upward_fresh. }
  exists s. split; [done|]. intros x Hx. pose proof Hi as [W L].
  destruct (findUp_spec s x W) as (r & s' & F & R & _ & _ & _);
    [by apply (inv_elem_in n)|].
  exists r, s'. split; [done|]. split.
  - exists r. split; [done|]. destruct R as [l P]. exists [].
    apply path_root. by eapply path_end_root.
  - intros y Hy (r' & Rx & [l P]).
    rewrite <- (root_of_det _ _ _ _ R Rx) in P. by eapply path_upward.
Qed.

Lemma unionBySize_root_is_max_witness :
  ∃ s, session 3 [UnionBySize 2 0; Find 0; UnionBySize 1 0] = Ret s ∧
    ∀ x, 0 ≤ x ≤ 3 →
      ∃ r s', findUp x s = Ret (r, s') ∧ sameset s x r ∧
              ∀ y, 0 ≤ y ≤ 3 → sameset s x y → y ≤ r.
Proof.
  apply unionBySize_root_is_max.
  - unfold INT_MAX. lia.
  - repeat constructor; simpl; lia.
  - repeat constructor.
Defined.

(** *** unionByRank alone: ranks grow towards the root *)

Lemma ranked_path s x l r :
  wf s → ranked s → path (parent s) x l r →
  ∃ a b, Vec.get (rank s) x = Some a ∧ Vec.get (rank s) r = Some b ∧
         a + Z.of_nat (length l) ≤ b.
Proof.
  intros W Hk. induction 1 as [x Hx | x j l r Hx Hne Hp IH].
  - destruct (get_inside (rank s) x) as [a Ha].
    { apply inside_rank; [done | by eapply get_Some_inside]. }
    exists a, a. split_and!; [done | done | simpl; lia].
  - destruct (Hk x j Hx Hne) as (a & bj & Ha & Hj & Hlt).
    destruct IH as (a' & b & Ha' & Hb & Hle).
    rewrite Hj in Ha'. simplify_eq.
    exists a, b. split_and!; [done | done | simpl; lia].
Qed.

Lemma ranked_compress s x l r :
  wf s → ranked s → path (parent s) x l r →
  ranked (with_parent (compress (parent s) l r) s).
Proof.
  intros W Hk P y j. simpl. destruct (decide (y ∈ l)) as [Hy | Hy].
  - rewrite (get_compress_on _ _ _ _ (path_Forall_inside _ _ _ _ P) Hy).
    intros [= <-] _.
    destruct (path_suffix _ _ _ _ _ P Hy) as (l' & Pl' & _).
    destruct (ranked_path s y (y :: l') r W Hk Pl') as (a & b & Ha & Hb & Hle).
    exists a, b. split_and!; [done | done | simpl in Hle; lia].
  - rewrite (get_compress_other _ _ _ _ (path_Forall_inside _ _ _ _ P) Hy).
    apply Hk.
Qed.

Lemma rank_bound_compress k s x l r :
  wf s → rank_bound k s → path (parent s) x l r →
  rank_bound k (with_parent (compress (parent s) l r) s).
Proof. intros _ Hb _. exact Hb. Qed.

Lemma ranked_bound_compress k s x l r :
  wf s → ranked s ∧ rank_bound k s → path (parent s) x l r →
  ranked (with_parent (compress (parent s) l r) s) ∧
  rank_bound k (with_parent (compress (parent s) l r) s).
Proof. intros W [H1 H2] P. split; [by apply (ranked_compress s x l r) | done]. Qed.

(** Raising the rank of a root. *)
Lemma ranked_bump s r k k' :
  ranked s → is_root (parent s) r → Vec.get (rank s) r = Some k → k ≤ k' →
  ranked (with_rank (upd (rank s) r k') s).
Proof.
  intros Hk Hr Kr Hle y j Hy Hne. simpl in *.
  pose proof (get_Some_inside _ _ _ Kr) as Hin.
  destruct (Hk y j Hy Hne) as (a & b & Ha & Hb & Hlt).
  assert (r ≠ y) as Hry by (unfold is_root in Hr; congruence).
  exists a. rewrite get_upd_ne by (done || apply Hin).
  destruct (decide (r = j)) as [<- | Hrj].
  - exists k'. rewrite get_upd_eq by done. split_and!; [done | done |].
    rewrite Kr in Hb. simplify_eq. lia.
  - exists b. rewrite get_upd_ne by (done || apply Hin). done.
Qed.

(** Hanging a root below an element of larger rank. *)
Lemma ranked_link s a b ka kb :
  ranked s → is_root (parent s) a →
  Vec.get (rank s) a = Some ka → Vec.get (rank s) b = Some kb → ka < kb →
  ranked (link a b s).
Proof.
  intros Hk Ha Ka Kb Hlt y j Hy Hne. simpl in *.
  pose proof (get_Some_inside _ _ _ Ha) as Hin.
  destruct (decide (a = y)) as [<- | Hay].
  - rewrite get_upd_eq in Hy by done. simplify_eq. by exists ka, kb.
  - rewrite get_upd_ne in Hy by (done || apply Hin). by apply Hk.
Qed.

Lemma rank_bound_le k k' s : rank_bound k s → k ≤ k' → rank_bound k' s.
Proof. intros Hb Hle x a Hx. specialize (Hb x a Hx). lia. Qed.

Lemma rank_bound_bump s r k v :
  rank_bound k s → 0 ≤ v ≤ k → rank_bound k (with_rank (upd (rank s) r v) s).
Proof.
  intros Hb Hv x a. simpl. unfold Vec.get, upd. case_decide; [|done].
  intros Hx. apply list_lookup_insert_Some in Hx as [(_ & <- & _) | [_ Hx]];
    [done|].
  apply (Hb x a). unfold Vec.get. by rewrite decide_True.
Qed.

Lemma exec_ranked n k s c s' :
  inv n s → ranked s ∧ rank_bound k s → 0 ≤ k < INT_MAX →
  in_range n c → not_by_size c → exec c s = Ret (tt, s') →
  ranked s' ∧ rank_bound (k + 1) s'.
Proof.
  intros Hi Hs Hk Hc Hp E. pose proof Hi as [W L].
  assert (∀ t, ranked t ∧ rank_bound k t → ranked t ∧ rank_bound (k + 1) t)
    as Hweak.
  { intros t [H1 H2]. split; [done|]. eapply rank_bound_le; [done | lia]. }
  destruct c as [x | u v | u v | v u]; simpl in Hc, Hp, E; [| |done|].
  - unfold bind in E. destruct (findUp x s) as [[r s1]| | |] eqn:F; try done.
    unfold ret in E. simplify_eq. apply Hweak.
    apply (findUp_keeps (λ s, ranked s ∧ rank_bound k s) s x r s'
             (ranked_bound_compress k)); try done.
    by apply (inv_elem_in n).
  - destruct (two_finds_keep (λ s, ranked s ∧ rank_bound k s) s u v
                (ranked_bound_compress k))
      as (ru & s1 & rv & s2 & F1 & F2 & _ & _ & _ & I1 & I2 & W2 & R2 & B2);
      try done; [apply (inv_elem_in n); tauto..|].
    pose proof (is_root_elem _ _ I1) as E1.
    pose proof (is_root_elem _ _ I2) as E2.
    destruct (get_inside _ _ (inside_rank _ _ W2 E1)) as [ka Ka].
    destruct (get_inside _ _ (inside_rank _ _ W2 E2)) as [kb Kb].
    rewrite (unionByRank_result s u v ru s1 rv s2 ka kb F1 F2 E1 E2 Ka Kb) in E.
    simplify_eq. unfold rank_linked.
    destruct (decide (ka < kb)) as [Hlt | Hnlt].
    { apply Hweak. split; [by eapply ranked_link | done]. }
    destruct (decide (ka > kb)) as [Hgt | Hngt].
    { apply Hweak. split; [eapply ranked_link; try done; lia | done]. }
    assert (ka = kb) as -> by lia.
    pose proof (B2 rv kb Kb) as Hkb.
    rewrite add32_small by (unfold in_int, INT_MIN, INT_MAX in *; lia).
    split.
    + change (ranked (link ru rv (with_rank (upd (rank s2) rv (kb + 1)) s2))).
      assert (ranked (with_rank (upd (rank s2) rv (kb + 1)) s2)) as Hb.
      { eapply ranked_bump; try done. lia. }
      destruct (decide (ru = rv)) as [-> | Hne].
      * unfold link. simpl. rewrite upd_id by done. exact Hb.
      * apply (ranked_link _ ru rv kb (kb + 1)); try done; simpl.
        -- rewrite get_upd_ne; [done | | done].
           apply (get_Some_inside _ _ _ Kb).
        -- apply get_upd_eq. by eapply get_Some_inside.
        -- lia.
    + change (rank_bound (k + 1)
                (with_rank (upd (rank s2) rv (kb + 1)) (link ru rv s2))).
      apply (rank_bound_bump (link ru rv s2) rv (k + 1) (kb + 1)); [|lia].
      apply (rank_bound_le k); [exact B2 | lia].
  - destruct (two_finds_keep (λ s, ranked s ∧ rank_bound k s) s v u
                (ranked_bound_compress k))
      as (rv & s1 & ru & s2 & F1 & F2 & _ & _ & _ & _ & _ & _ & U2);
      try done; [apply (inv_elem_in n); tauto..|].
    unfold isComponent, bind in E. rewrite F1, F2 in E.
    unfold ret in E. simplify_eq. by apply Hweak.
Qed.

Lemma run_ranked n cs :
  0 ≤ n →
  ∀ s s' k,
    inv n s → ranked s ∧ rank_bound k s → 0 ≤ k →
    k + Z.of_nat (length cs) ≤ INT_MAX →
    Forall (in_range n) cs → Forall not_by_size cs →
    run cs s = Ret (tt, s') →
    ranked s' ∧ rank_bound (k + Z.of_nat (length cs)) s'.
Proof.
  intros Hn. induction cs as [|c cs IH]; intros s s' k Hi Hs Hk Hlen Hr Hp R.
  - simpl in *. unfold ret in R. simplify_eq.
    by replace (k + Z.of_nat 0) with k by lia.
  - destruct (Forall_cons_1 _ _ _ Hr) as [Hc Hr'].
    destruct (Forall_cons_1 _ _ _ Hp) as [Pc Hp'].
    destruct (exec_step n s c Hn Hi Hc) as (s1 & E & I1 & _).
    simpl in R. rewrite (bind_Ret _ _ _ _ _ E) in R.
    simpl length in *.
    assert (ranked s1 ∧ rank_bound (k + 1) s1) as H1.
    { apply (exec_ranked n k s c s1); try done. lia. }
    replace (k + Z.of_nat (S (length cs))) with (k + 1 + Z.of_nat (length cs))
      by lia.
    apply (IH s1 s' (k + 1)); try done; lia.
Qed.

(** X6: with [unionByRank] as the only union and fewer than [2^31] calls,
    the rank grows strictly from every element to its parent, and the rank
    of a root bounds the number of parent steps from any element to it: after
    any sequence of [unionByRank], [findUp] and [isComponent] calls with
    arguments in [0..n], a parent chain of [l] elements that ends in the
    root [r] has [length l ≤ rank[r]]. *)
Theorem rank_bounds_height n cs :
  0 ≤ n < INT_MAX → Z.of_nat (length cs) ≤ INT_MAX →
  Forall (in_range n) cs → Forall not_by_size cs →
  ∃ s, session n cs = Ret s ∧ ranked s ∧
    ∀ x l r, path (parent s) x l r →
      ∃ b, Vec.get (rank s) r = Some b ∧ Z.of_nat (length l) ≤ b.
Proof.
  intros Hn Hlen Hr Hp.
  destruct (run_inv n cs (fresh n)) as (s & R & Hi);
    [lia | apply fresh_inv; lia | done |].
  assert (ranked (fresh n) ∧ rank_bound 0 (fresh n)) as H0.
  { split.
    - intros x j Hx Hne. exfalso. apply Hne.
      pose proof (get_Some_inside _ _ _ Hx) as Hin.
      unfold inside in Hin. simpl in *. rewrite length_seqZ in Hin.
      rewrite get_seqZ in Hx by lia. by simplify_eq.
    - intros x a Hx. pose proof (get_Some_inside _ _ _ Hx) as Hin.
      unfold inside in Hin. simpl in *. rewrite length_replicate in Hin.
      rewrite get_replicate in Hx by lia. simplify_eq. lia. }
  assert (0 ≤ n) as Hn0 by lia.
  destruct (run_ranked n cs Hn0 (fresh n) s 0) as [Hk Hb]; try done;
    [by apply fresh_inv|].
  exists s. split; [rewrite session_run by lia; by rewrite R|].
  split; [done|]. intros x l r P.
  destruct (ranked_path s x l r (proj1 Hi) Hk P) as (a & b & Ha & Hbr & Hle).
  exists b. split; [done|]. pose proof (Hb x a Ha). lia.
Qed.

Lemma rank_bounds_height_witness :
  ∃ s, session 3 [UnionByRank 0 1; UnionByRank 2 3; UnionByRank 0 2] = Ret s ∧
    ranked s ∧
    ∀ x l r, path (parent s) x l r →
      ∃ b, Vec.get (rank s) r = Some b ∧ Z.of_nat (length l) ≤ b.
Proof.
  apply rank_bounds_height.
  - unfold INT_MAX. lia.
  - unfold INT_MAX. simpl. lia.
  - repeat constructor; simpl; lia.
  - repeat constructor.
Defined.

(** ** Counting *)

(** The state after [unionBySize(0,1)] on a fresh object for [n = 2]. *)
Lemma careful_example :
  careful 2 (mk [0; 0; 0] [1; 1; 2] [1; 2; 1]).
Proof.
  eapply (careful_union 2 (mk [0; 0; 0] [0; 1; 2] [1; 1; 1]) 0 1).
  - by apply careful_create.
  - lia.
  - lia.
  - by vm_compute.
  - reflexivity.
Defined.

(** X7: as long as every [unionBySize] joins two different sets,
    [size[findUp(x)]] is the number of elements of the set of [x]. *)
Theorem size_counts_set n s x :
  0 ≤ n < INT_MAX → careful n s → 0 ≤ x ≤ n →
  ∃ r, find_root s x = Some r ∧
       Vec.get (size s) r = Some (Z.of_nat (set_count s x)).
Proof.
  intros Hn Hc Hx. destruct (careful_inv n s Hn Hc) as [Hi Hz].
  pose proof Hi as [W L].
  destruct (wf_forest _ W x) as (l & r & Hp); [by apply (inv_elem_in n)|].
  assert (find_root s x = Some r) as Hr.
  { apply find_root_spec; [done | by apply (inv_elem_in n) | by exists l]. }
  exists r. split; [done|].
  rewrite (set_count_root s x r Hr). apply Hz. by eapply path_end_root.
Qed.

Lemma size_counts_set_witness :
  ∃ r, find_root (mk [0; 0; 0] [1; 1; 2] [1; 2; 1]) 0 = Some r ∧
       Vec.get (size (mk [0; 0; 0] [1; 1; 2] [1; 2; 1])) r
       = Some (Z.of_nat (set_count (mk [0; 0; 0] [1; 1; 2] [1; 2; 1]) 0)).
Proof.
  apply (size_counts_set 2).
  - unfold INT_MAX. lia.
  - exact careful_example.
  - lia.
Defined.

Lemma is_root_compressed s s' r :
  wf s → compressed s s' → is_root (parent s') r ↔ is_root (parent s) r.
Proof.
  intros W C. split; intros Hr.
  - assert (root_of (parent s) r r) as [l Hl].
    { eapply keeps_roots_inv; [by apply wf_forest | apply C |].
      exists []. by apply path_root. }
    by eapply path_end_root.
  - eapply is_root_keeps; [apply C | done].
Qed.

Lemma set_total_compressed s s' :
  wf s → compressed s s' → set_total s' = set_total s.
Proof.
  intros W C. unfold set_total. destruct C as [? ? [Hlen Hk]] eqn:HC.
  rewrite Hlen. apply length_filter_iff. intros y _.
  apply (is_root_compressed s s' y W). by split.
Qed.

Lemma is_root_joined s s' u v :
  wf s → joined s s' u v →
  ∃ a, is_root (parent s) a ∧ inside (parent s) a ∧
    (sameset s u v → ∀ r, is_root (parent s') r ↔ is_root (parent s) r) ∧
    (¬ sameset s u v →
     ∀ r, is_root (parent s) r ↔ is_root (parent s') r ∨ r = a) ∧
    ¬ (¬ sameset s u v ∧ is_root (parent s') a).
Proof.
  intros W (a & b & Hor & [Hlen Hm]).
  assert (is_root (parent s) a ∧ is_root (parent s) b) as [Ia Ib].
  { destruct Hor as [[[l1 P1] [l2 P2]] | [[l1 P1] [l2 P2]]];
      split; by eapply path_end_root. }
  assert (sameset s u v ↔ a = b) as Hab.
  { split.
    - intros (r & Ru & Rv). destruct Hor as [[Ru' Rv'] | [Ru' Rv']].
      + etrans; [exact (root_of_det _ _ _ _ Ru' Ru)
                | exact (root_of_det _ _ _ _ Rv Rv')].
      + etrans; [exact (root_of_det _ _ _ _ Rv' Rv)
                | exact (root_of_det _ _ _ _ Ru Ru')].
    - intros ->. exists b. destruct Hor as [[? ?] | [? ?]]; by split. }
  assert (∀ r, is_root (parent s') r ↔
               is_root (parent s) r ∧ (r ≠ a ∨ a = b)) as Hroots.
  { intros r. split.
    - intros Hr.
      destruct (wf_forest _ W r) as (l & r0 & P).
      { apply get_Some_inside in Hr. unfold inside in *. by rewrite <- Hlen. }
      assert (root_of (parent s') r r) as R' by (exists []; by apply path_root).
      pose proof (root_of_det _ _ _ _ R' (Hm r r0 (ex_intro _ l P))) as Hf.
      destruct (decide (r0 = a)) as [-> | Hne].
      + subst r. split; [done|]. destruct (decide (b = a)); auto.
      + subst r0. split; [by eapply path_end_root | by left].
    - intros [Hr Hc].
      assert (root_of (parent s) r r) as R by (exists []; by apply path_root).
      destruct (Hm r r R) as [l P]. apply path_end_root in P.
      destruct (decide (r = a)) as [-> | Hne]; [|done].
      destruct Hc as [? | <-]; done. }
  exists a. split; [done|]. split; [by eapply get_Some_inside|]. split_and!.
  - intros Hs r. rewrite Hroots. apply Hab in Hs. tauto.
  - intros Hs r. rewrite Hroots. rewrite Hab in Hs.
    destruct (decide (r = a)) as [-> | Hne]; tauto.
  - intros [Hs Ha]. rewrite Hab in Hs. apply Hroots in Ha. tauto.
Qed.

Lemma set_total_joined s s' u v :
  wf s → joined s s' u v →
  (sameset s u v → set_total s' = set_total s) ∧
  (¬ sameset s u v → S (set_total s') = set_total s).
Proof.
  intros W J. pose proof J as (a0 & b0 & _ & [Hlen _]).
  destruct (is_root_joined s s' u v W J) as (a & Ia & Ha & Hsame & Hdiff & Hno).
  unfold set_total. rewrite Hlen. split; intros Hs.
  - apply length_filter_iff. intros y _. by apply Hsame.
  - rewrite (length_filter_or
               (λ r, Vec.get (parent s') r = Some r) (λ r, r = a)
               (λ r, Vec.get (parent s) r = Some r)).
    + rewrite length_filter_eq; [lia | apply NoDup_seqZ |].
      apply elem_of_seqZ. unfold inside in Ha. lia.
    + intros y _. by apply Hdiff.
    + intros y _ [Hy ->]. apply Hno. by split.
Qed.

Lemma length_filter_all (P : Z → Prop) `{∀ y, Decision (P y)} (l : list Z) :
  (∀ y, y ∈ l → P y) → length (filter P l) = length l.
Proof.
  induction l as [|a l IH]; intros Hp; [done|].
  rewrite filter_cons, decide_True by (apply Hp, list_elem_of_here).
  simpl. f_equal. apply IH. intros y Hy. apply Hp. by apply list_elem_of_further.
Qed.

Lemma set_total_fresh n : 0 ≤ n → set_total (fresh n) = Z.to_nat (n + 1).
Proof.
  intros Hn. unfold set_total. simpl. rewrite length_seqZ.
  rewrite length_filter_all; [rewrite length_seqZ; lia|].
  intros y Hy. apply elem_of_seqZ in Hy. apply get_seqZ. lia.
Qed.

(** X8: the number of sets (of self-parented elements). The constructor
    builds [n+1] sets; on a reachable state a [findUp] or an [isComponent]
    leaves their number as it is, a union of two elements of one set also,
    and a union of elements of two different sets, of either kind, takes it
    down by one. *)
Theorem set_total_calls n s :
  0 ≤ n < INT_MAX → reachable n s →
  (∃ s0, create n = Ret s0 ∧ set_total s0 = Z.to_nat (n + 1)) ∧
  (∀ c, in_range n c → is_query c →
     ∃ s', exec c s = Ret (tt, s') ∧ set_total s' = set_total s) ∧
  (∀ u v, 0 ≤ u ≤ n → 0 ≤ v ≤ n →
     ∃ sa sb,
       unionByRank u v s = Ret (tt, sa) ∧ unionBySize u v s = Ret (tt, sb) ∧
       (sameset s u v →
        set_total sa = set_total s ∧ set_total sb = set_total s) ∧
       (¬ sameset s u v →
        S (set_total sa) = set_total s ∧ S (set_total sb) = set_total s)).
Proof.
  intros Hn Hr. pose proof (reachable_below_inv n s Hn Hr) as Hi.
  pose proof Hi as [W L]. split_and!.
  - exists (fresh n). split; [apply create_fresh; lia|].
    apply set_total_fresh. lia.
  - intros c Hc Hq.
    destruct (exec_step n s c) as (s' & E & _ & St); [lia | done | done |].
    exists s'. split; [done|].
    destruct St as [x C | a b C | u v J _ | u v J _]; simpl in Hq; try done;
      by apply set_total_compressed.
  - intros u v Hu Hv.
    pose proof (inv_elem_in n s u Hi Hu) as Eu.
    pose proof (inv_elem_in n s v Hi Hv) as Ev.
    destruct (unionByRank_joined s u v W Eu Ev) as (sa & Ua & _ & Ja & _).
    destruct (unionBySize_joined s u v W Eu Ev) as (sb & Ub & _ & Jb & _).
    exists sa, sb. split; [done|]. split; [done|].
    destruct (set_total_joined s sa u v W Ja) as [A1 A2].
    destruct (set_total_joined s sb u v W Jb) as [B1 B2].
    split; intros Hs; split; auto.
Qed.

Lemma set_total_calls_witness :
  let s := mk [0; 1; 0] [1; 1; 2] [1; 1; 1] in
  (∃ s0, create 2 = Ret s0 ∧ set_total s0 = Z.to_nat (2 + 1)) ∧
  (∀ c, in_range 2 c → is_query c →
     ∃ s', exec c s = Ret (tt, s') ∧ set_total s' = set_total s) ∧
  (∀ u v, 0 ≤ u ≤ 2 → 0 ≤ v ≤ 2 →
     ∃ sa sb,
       unionByRank u v s = Ret (tt, sa) ∧ unionBySize u v s = Ret (tt, sb) ∧
       (sameset s u v →
        set_total sa = set_total s ∧ set_total sb = set_total s) ∧
       (¬ sameset s u v →
        S (set_total sa) = set_total s ∧ S (set_total sb) = set_total s)).
Proof.
  apply (set_total_calls 2).
  - unfold INT_MAX. lia.
  - exists [UnionByRank 0 1]. split; [repeat constructor; simpl; lia | reflexivity].
Defined.

(** * Level-order traversal *)

Module BfsFacts.

Import Int32 Bfs.

Lemma push_if_app x q : push_if x q = q ++ push_if x [].
Proof. destruct x; simpl; by rewrite ?app_nil_r. Qed.

Lemma children_push l v r q :
  push_if r (push_if l q) = q ++ children (Node l v r).
Proof.
  simpl. rewrite (push_if_app r (push_if l q)), (push_if_app l q).
  rewrite (push_if_app r (push_if l [])). by rewrite <-!(assoc_L (++)).
Qed.

Lemma children_is_node t : Forall is_node (children t).
Proof.
  destruct t as [|l v r]; simpl; [constructor|].
  destruct l, r; simpl; repeat constructor.
Qed.

Lemma children_list_is_node q : Forall is_node (q ≫= children).
Proof.
  induction q as [|t q IH]; simpl; [constructor|].
  apply Forall_app. split; [apply children_is_node|done].
Qed.

Lemma for_loop_level a b cur :
  Forall is_node a →
  for_loop (length a) (a ++ b) cur
  = Ret (b ++ (a ≫= children), cur ++ at_depths 0 a).
Proof.
  revert b cur. induction a as [|t a IH]; intros b cur Ha; simpl.
  - by rewrite !app_nil_r.
  - apply Forall_cons_1 in Ha as [Ht Ha]. destruct t as [|l v r]; [done|].
    rewrite (children_push l v r). rewrite <-(assoc_L (++)).
    rewrite IH by done. unfold at_depths. simpl.
    by rewrite <-!(assoc_L (++)).
Qed.

Lemma nodes_children t : is_node t → nodes t = S (nodes_list (children t)).
Proof.
  destruct t as [|l v r]; [done|]. intros _. unfold nodes_list. simpl.
  destruct l, r; simpl; lia.
Qed.

Lemma nodes_list_app a b : nodes_list (a ++ b) = (nodes_list a + nodes_list b)%nat.
Proof. unfold nodes_list. rewrite fmap_app. induction (nodes <$> a); simpl; lia. Qed.

Lemma nodes_list_children q :
  Forall is_node q →
  nodes_list q = (length q + nodes_list (q ≫= children))%nat.
Proof.
  induction 1 as [|t q Ht Hq IH]; [done|].
  change ((t :: q) ≫= children) with (children t ++ (q ≫= children)).
  simpl length. rewrite nodes_list_app. change (nodes_list (t :: q)) with (nodes t + nodes_list q)%nat.
  rewrite (nodes_children t Ht). lia.
Qed.

Lemma height_children t :
  is_node t → height t = S (heights (children t)).
Proof.
  destruct t as [|l v r]; [done|]. intros _. unfold heights. simpl.
  destruct l, r; simpl; lia.
Qed.

Lemma heights_app a b : heights (a ++ b) = (heights a `max` heights b)%nat.
Proof. unfold heights. rewrite fmap_app. induction (height <$> a); simpl; lia. Qed.

Lemma heights_children t q :
  Forall is_node (t :: q) →
  heights (t :: q) = S (heights ((t :: q) ≫= children)).
Proof.
  intros Hq. apply Forall_cons_1 in Hq as [Ht Hq].
  revert t Ht. induction Hq as [|t' q Ht' Hq IH]; intros t Ht.
  - unfold heights. simpl. rewrite app_nil_r.
    rewrite (height_children t Ht). unfold heights. lia.
  - change (heights (t :: t' :: q)) with (height t `max` heights (t' :: q))%nat.
    rewrite (IH t' Ht'). change ((t :: t' :: q) ≫= children)
      with (children t ++ ((t' :: q) ≫= children)).
    rewrite heights_app, (height_children t Ht). lia.
Qed.

Lemma at_depth_children k t :
  at_depth (S k) t = at_depths k (children t).
Proof.
  destruct t as [|l v r]; [done|]. unfold at_depths. simpl.
  destruct l, r; simpl; by rewrite ?app_nil_r.
Qed.

Lemma at_depths_children k q :
  at_depths (S k) q = at_depths k (q ≫= children).
Proof.
  unfold at_depths. induction q as [|t q IH]; [done|].
  change ((t :: q) ≫= at_depth (S k))
    with (at_depth (S k) t ++ (q ≫= at_depth (S k))).
  change ((t :: q) ≫= children) with (children t ++ (q ≫= children)).
  rewrite bind_app, IH. f_equal. apply at_depth_children.
Qed.

Lemma levels_of_cons t q :
  Forall is_node (t :: q) →
  levels_of (t :: q)
  = at_depths 0 (t :: q) :: levels_of ((t :: q) ≫= children).
Proof.
  intros Hq. unfold levels_of. rewrite (heights_children t q Hq).
  cbn [seq fmap list_fmap]. f_equal. rewrite <-seq_shift, <-list_fmap_compose.
  apply list_fmap_ext. intros _ k _. apply at_depths_children.
Qed.

Lemma while_loop_levels fuel q ans :
  Forall is_node q →
  Z.of_nat (nodes_list q) ≤ INT_MAX →
  (heights q < fuel)%nat →
  while_loop fuel q ans = Ret (ans ++ levels_of q).
Proof.
  revert q ans. induction fuel as [|fuel IH]; intros q ans Hq Hn Hf; [lia|].
  destruct q as [|t q]; simpl.
  - by rewrite app_nil_r.
  - pose proof (nodes_list_children _ Hq) as Hc.
    pose proof (heights_children t q Hq) as Hh.
    assert (wrap (Z.of_nat (S (length q))) = Z.of_nat (S (length q))) as ->.
    { unfold wrap, INT_MAX in *. simpl length in Hc.
      rewrite Z.mod_small; lia. }
    rewrite Nat2Z.id.
    pose proof (for_loop_level (t :: q) [] [] Hq) as Hl.
    simpl length in Hl. rewrite app_nil_r, !app_nil_l in Hl. rewrite Hl.
    rewrite IH.
    + rewrite (levels_of_cons t q Hq). by rewrite <-(assoc_L (++)).
    + apply children_list_is_node.
    + simpl length in Hc. lia.
    + lia.
Qed.

Lemma height_le_nodes t : (height t ≤ nodes t)%nat.
Proof. induction t; simpl; lia. Qed.

Lemma at_depth_nonempty k t : (k < height t)%nat → at_depth k t ≠ [].
Proof.
  revert k. induction t as [|l IHl v r IHr]; intros k Hk; simpl in *; [lia|].
  destruct k as [|k]; [done|].
  intros Heq. apply app_eq_nil in Heq as [H1 H2].
  destruct (decide (k < height l)%nat) as [Hl|Hl].
  - by apply (IHl k).
  - apply (IHr k); [lia|done].
Qed.

Lemma at_depth_beyond k t : (height t ≤ k)%nat → at_depth k t = [].
Proof.
  revert k. induction t as [|l IHl v r IHr]; intros k Hk; simpl in *; [done|].
  destruct k as [|k]; [lia|]. rewrite IHl, IHr by lia. done.
Qed.

(** The levels up to [m], put together, are the values of the tree when
    [m] is at least the height. *)
Lemma concat_levels m t :
  (height t ≤ m)%nat →
  concat ((λ k, at_depth k t) <$> seq 0 m) ≡ₚ values t.
Proof.
  revert m. induction t as [|l IHl v r IHr]; intros m Hm.
  - simpl. induction (seq 0 m); simpl; [done|]. done.
  - simpl in Hm. destruct m as [|m]; [lia|].
    simpl. constructor.
    rewrite <-seq_shift, <-list_fmap_compose. simpl.
    rewrite <-(IHl m), <-(IHr m) by lia.
    generalize (seq 0 m). intros ks. induction ks as [|k ks IH]; simpl; [done|].
    rewrite IH. rewrite <-!(assoc (++)). f_equiv.
    rewrite !(assoc (++)). f_equiv; try done; apply Permutation_app_comm.
Qed.

Lemma values_length t : length (values t) = nodes t.
Proof. induction t; simpl; rewrite ?length_app; lia. Qed.

Lemma heights_singleton t : heights [t] = height t.
Proof. unfold heights. simpl. lia. Qed.

Lemma at_depths_singleton k t : at_depths k [t] = at_depth k t.
Proof. unfold at_depths. simpl. apply app_nil_r. Qed.

Lemma nodes_list_singleton t : nodes_list [t] = nodes t.
Proof. unfold nodes_list. simpl. lia. Qed.

(** The result of [bfs]. *)
Lemma bfs_result root :
  Z.of_nat (nodes root) ≤ INT_MAX →
  bfs root = Ret ((λ k, at_depth k root) <$> seq 0 (height root)).
Proof.
  intros Hn. destruct root as [|l v r]; [done|].
  unfold bfs. rewrite while_loop_levels.
  - unfold levels_of. rewrite app_nil_l, heights_singleton. f_equal.
    apply list_fmap_ext. intros _ k _. apply at_depths_singleton.
  - by repeat constructor.
  - by rewrite nodes_list_singleton.
  - rewrite heights_singleton.
    pose proof (height_le_nodes (Node l v r)). lia.
Qed.

End BfsFacts.

Import BfsFacts.

(** ** The result of [bfs] *)

(** X10: the result of [bfs] on a tree with at most [INT_MAX] nodes: one vector
    per level, the [k]-th holding the values at depth [k] from left to
    right; the empty vector of vectors for the null pointer. *)
Theorem bfs_levels (root : Bfs.TreeNode) :
  Z.of_nat (Bfs.nodes root) ≤ Int32.INT_MAX →
  Bfs.bfs root
  = Ret ((λ k, Bfs.at_depth k root) <$> seq 0 (Bfs.height root)).
Proof.
  intros Hn. destruct root as [|l v r]; [done|].
  unfold Bfs.bfs. rewrite while_loop_levels.
  - unfold Bfs.levels_of. rewrite app_nil_l, heights_singleton. f_equal.
    apply list_fmap_ext. intros _ k _. apply at_depths_singleton.
  - by repeat constructor.
  - by rewrite nodes_list_singleton.
  - rewrite heights_singleton.
    pose proof (height_le_nodes (Bfs.Node l v r)). lia.
Qed.

Lemma bfs_levels_witness :
  let root := Bfs.Node (Bfs.TreeNode_val 2) 1
                (Bfs.TreeNode_left_val (Bfs.TreeNode_val 4) 3) in
  Z.of_nat (Bfs.nodes root) ≤ Int32.INT_MAX ∧
  Bfs.bfs root = Ret [[1]; [2; 3]; [4]].
Proof.
  split; [by vm_compute|]. by apply bfs_levels.
Defined.

(** X11: what [bfs] returns for a tree with at most [INT_MAX] nodes has one
    vector for each level of the tree, none of them empty, and all of them
    together hold the values of the nodes of the tree, each node once. *)
Theorem bfs_covers (root : Bfs.TreeNode) :
  Z.of_nat (Bfs.nodes root) ≤ Int32.INT_MAX →
  ∃ ans, Bfs.bfs root = Ret ans ∧
         length ans = Bfs.height root ∧
         Forall (λ cur, cur ≠ []) ans ∧
         concat ans ≡ₚ Bfs.values root ∧
         length (concat ans) = Bfs.nodes root.
Proof.
  intros Hn. eexists. split; [by apply bfs_result|].
  split; [by rewrite length_fmap, length_seq|]. split; [|split].
  - apply list.Forall_forall. intros cur Hcur.
    apply list_elem_of_fmap in Hcur as (k & -> & Hk).
    apply elem_of_seq in Hk. apply at_depth_nonempty. lia.
  - by apply concat_levels.
  - rewrite concat_levels by done. apply values_length.
Qed.

Lemma bfs_covers_witness :
  let root := Bfs.Node (Bfs.TreeNode_val 7) 7 (Bfs.TreeNode_val 5) in
  Z.of_nat (Bfs.nodes root) ≤ Int32.INT_MAX ∧
  ∃ ans, Bfs.bfs root = Ret ans ∧
         length ans = Bfs.height root ∧
         Forall (λ cur, cur ≠ []) ans ∧
         concat ans ≡ₚ Bfs.values root ∧
         length (concat ans) = Bfs.nodes root.
Proof.
  split; [by vm_compute|]. by apply bfs_covers.
Defined.

(** * Shortest paths *)

Module DijkstraFacts.

Import Int32 Dijkstra.

(** ** The queue *)

Lemma push_elem x y pq : y ∈ push x pq ↔ y = x ∨ y ∈ pq.
Proof.
  induction pq as [|z pq IH]; simpl.
  - rewrite list_elem_of_singleton. split; [by left|].
    intros [H|H]; [done|]. by apply elem_of_nil in H.
  - case_decide; rewrite !elem_of_cons, ?IH; tauto.
Qed.

Lemma push_length x pq : length (push x pq) = S (length pq).
Proof.
  induction pq as [|z pq IH]; simpl; [done|].
  case_decide; simpl; by rewrite ?IH.
Qed.

Lemma push_sorted x pq : sorted pq → sorted (push x pq).
Proof.
  induction pq as [|z pq IH]; simpl.
  - intros _. split; [|done]. intros b Hb. by apply elem_of_nil in Hb.
  - intros [Hz Hs]. case_decide as Hlt; simpl.
    + split; [|by apply IH]. intros b [->|Hb]%push_elem; [|by apply Hz].
      unfold pair_lt in Hlt. lia.
    + split; [|done]. intros b [->|Hb]%elem_of_cons.
      * unfold pair_lt in Hlt. lia.
      * specialize (Hz b Hb). unfold pair_lt in Hlt. lia.
Qed.

Lemma sorted_head d u pq k v :
  sorted ((d, u) :: pq) → (k, v) ∈ (d, u) :: pq → d ≤ k.
Proof.
  intros [Hd _] [Heq|Hin]%elem_of_cons.
  - injection Heq as -> ->. lia.
  - apply (Hd _ Hin).
Qed.

(** ** Entries *)

Lemma wrap_in_int z : in_int (wrap z).
Proof.
  unfold in_int, wrap, INT_MIN, INT_MAX.
  pose proof (Z.mod_pos_bound (z + 2 ^ 31) (2 ^ 32)). lia.
Qed.

Lemma get_upd_cases dis v nd y u x :
  Vec.get dis v = Some y → Vec.get (upd dis v nd) u = Some x →
  (u = v ∧ x = nd) ∨ (u ≠ v ∧ Vec.get dis u = Some x).
Proof.
  intros Hv Hu. pose proof (get_Some_inside _ _ _ Hv) as Hin.
  destruct (decide (u = v)) as [->|Hne].
  - rewrite get_upd_eq in Hu by done. left. split; congruence.
  - right. split; [done|]. rewrite get_upd_ne in Hu; [done|apply Hin|done].
Qed.

Lemma get_upd_lower dis v nd y u x :
  Vec.get dis v = Some y → nd ≤ y → Vec.get dis u = Some x →
  ∃ x', Vec.get (upd dis v nd) u = Some x' ∧ x' ≤ x.
Proof.
  intros Hv Hle Hu. pose proof (get_Some_inside _ _ _ Hv) as Hin.
  destruct (decide (u = v)) as [->|Hne].
  - exists nd. split; [by apply get_upd_eq|]. congruence.
  - exists x. split; [|lia]. rewrite get_upd_ne; [done|apply Hin|done].
Qed.

(** ** The [for] loop *)

Lemma relax_cons d w v es dis pq :
  relax d ((w, v) :: es) dis pq
  = match Vec.get dis v with
    | None => Undef
    | Some y =>
        if decide (add32 d w < y)
        then relax d es (upd dis v (add32 d w)) (push (add32 d w, v) pq)
        else relax d es dis pq
    end.
Proof.
  simpl. destruct (Vec.get dis v) as [y|] eqn:Hv; [|done].
  case_decide; [|done].
  by rewrite (set_inside _ _ _ (get_Some_inside _ _ _ Hv)).
Qed.

(** A property of the pairs gone through and of the state that every
    round of the [for] loop keeps holds when the loop is left. *)
Lemma relax_rule (P : list (Z * Z) → list Z → list (Z * Z) → Prop) d all :
  (∀ es0 w v dis pq y,
     P es0 dis pq → (w, v) ∈ all → Vec.get dis v = Some y →
     ¬ add32 d w < y → P (es0 ++ [(w, v)]) dis pq) →
  (∀ es0 w v dis pq y,
     P es0 dis pq → (w, v) ∈ all → Vec.get dis v = Some y →
     add32 d w < y →
     P (es0 ++ [(w, v)]) (upd dis v (add32 d w)) (push (add32 d w, v) pq)) →
  ∀ es es0 dis pq dis' pq',
    es0 ++ es = all → P es0 dis pq →
    relax d es dis pq = Ret (dis', pq') → P all dis' pq'.
Proof.
  intros Hkeep Hlower. induction es as [|[w v] es IH];
    intros es0 dis pq dis' pq' Hall HP Hr.
  - simpl in Hr. injection Hr as <- <-. by rewrite app_nil_r in Hall; subst.
  - rewrite relax_cons in Hr.
    assert ((w, v) ∈ all) as Hin.
    { rewrite <-Hall. apply elem_of_app. right. apply list_elem_of_here. }
    destruct (Vec.get dis v) as [y|] eqn:Hv; [|done].
    case_decide as Hlt.
    + apply (IH (es0 ++ [(w, v)]) (upd dis v (add32 d w))
                (push (add32 d w, v) pq));
        [by rewrite <-(assoc_L (++))| |done].
      by apply (Hlower _ _ _ _ _ y).
    + apply (IH (es0 ++ [(w, v)]) dis pq);
        [by rewrite <-(assoc_L (++))| |done].
      by apply (Hkeep _ _ _ _ _ y).
Qed.

(** The loop has no exception and always comes back. *)
Lemma relax_cases d es dis pq :
  relax d es dis pq = Undef ∨ ∃ dis' pq', relax d es dis pq = Ret (dis', pq').
Proof.
  revert dis pq. induction es as [|[w v] es IH]; intros dis pq.
  - right. by eexists _, _.
  - rewrite relax_cons. destruct (Vec.get dis v) as [y|]; [|by left].
    case_decide; apply IH.
Qed.

Lemma relax_safe d es dis pq :
  (∀ w v, (w, v) ∈ es → inside dis v) →
  ∃ dis' pq', relax d es dis pq = Ret (dis', pq').
Proof.
  revert dis pq. induction es as [|[w v] es IH]; intros dis pq Hes.
  - by eexists _, _.
  - rewrite relax_cons.
    destruct (get_inside dis v) as [y Hv]; [apply (Hes w), list_elem_of_here|].
    rewrite Hv. case_decide; apply IH; intros w' v' Hin.
    + apply inside_upd. apply (Hes w'). by apply list_elem_of_further.
    + apply (Hes w'). by apply list_elem_of_further.
Qed.

(** ** The rounds that are left *)

Lemma slack_nonneg dis : Forall in_int dis → 0 ≤ slack dis.
Proof.
  induction 1 as [|x dis Hx _ IH]; [done|].
  change (slack (x :: dis)) with ((x - INT_MIN) + slack dis).
  unfold in_int in Hx. lia.
Qed.

Lemma slack_insert dis (i : nat) y nd :
  dis !! i = Some y → slack (<[i := nd]> dis) = slack dis - (y - nd).
Proof.
  revert i. induction dis as [|x dis IH]; intros [|i] Hi; try done.
  - injection Hi as ->. unfold slack. simpl. lia.
  - change (slack (x :: <[i := nd]> dis) = slack (x :: dis) - (y - nd)).
    change (x - INT_MIN + slack (<[i := nd]> dis)
            = x - INT_MIN + slack dis - (y - nd)).
    rewrite (IH i Hi). lia.
Qed.

Lemma slack_upd dis v y nd :
  Vec.get dis v = Some y → slack (upd dis v nd) = slack dis - (y - nd).
Proof.
  unfold Vec.get, upd. case_decide; [|done]. apply slack_insert.
Qed.

Lemma relax_measure d es dis pq dis' pq' :
  Forall in_int dis → relax d es dis pq = Ret (dis', pq') →
  Forall in_int dis' ∧ measure dis' pq' ≤ measure dis pq.
Proof.
  intros Hint Hr.
  apply (relax_rule
    (λ _ dis1 pq1, Forall in_int dis1 ∧ measure dis1 pq1 ≤ measure dis pq)
    d es) with (es := es) (es0 := []) (dis := dis) (pq := pq); try done.
  - intros _ w v dis1 pq1 y [Hi Hm] _ Hv Hlt. split.
    + unfold upd. apply Forall_insert; [done|]. apply wrap_in_int.
    + unfold measure in *. rewrite push_length, (slack_upd _ _ y) by done. lia.
Qed.

Lemma while_loop_returns adj fuel dis pq :
  Forall in_int dis → measure dis pq < Z.of_nat fuel →
  while_loop fuel adj dis pq ≠ Diverge.
Proof.
  revert dis pq. induction fuel as [|fuel IH]; intros dis pq Hint Hm.
  - pose proof (slack_nonneg dis Hint). unfold measure in Hm. lia.
  - destruct pq as [|[d node] pq]; [done|]. simpl.
    destruct (Vec.get dis node) as [x|]; [|done].
    assert (measure dis pq = measure dis ((d, node) :: pq) - 1) as Hpop.
    { unfold measure. simpl length. lia. }
    case_decide.
    + apply IH; [done|lia].
    + destruct (row adj node) as [es|]; [|done].
      destruct (relax_cases d es dis pq) as [->|(dis' & pq' & Hr)]; [done|].
      rewrite Hr. destruct (relax_measure _ _ _ _ _ _ Hint Hr) as [Hint' Hm'].
      apply IH; [done|lia].
Qed.

Lemma while_loop_more adj fuel fuel' dis pq :
  while_loop fuel adj dis pq ≠ Diverge → (fuel ≤ fuel')%nat →
  while_loop fuel' adj dis pq = while_loop fuel adj dis pq.
Proof.
  revert fuel' dis pq. induction fuel as [|fuel IH]; intros fuel' dis pq Hnd Hle.
  - done.
  - destruct fuel' as [|fuel']; [lia|].
    destruct pq as [|[d node] pq]; [done|]. simpl in *.
    destruct (Vec.get dis node) as [x|]; [|done].
    case_decide.
    + apply IH; [done|lia].
    + destruct (row adj node) as [es|]; [|done].
      destruct (relax d es dis pq) as [[dis' pq']| | |]; try done.
      apply IH; [done|lia].
Qed.

(** ** The [while] loop *)

(** A property of the state that every round of the [while] loop keeps
    holds of what the loop returns. *)
Lemma while_loop_rule (I : list Z → list (Z * Z) → Prop) adj :
  (∀ d node pq dis x,
     I dis ((d, node) :: pq) → Vec.get dis node = Some x → d > x →
     I dis pq) →
  (∀ d node pq dis x es dis' pq',
     I dis ((d, node) :: pq) → Vec.get dis node = Some x → ¬ d > x →
     row adj node = Some es → relax d es dis pq = Ret (dis', pq') →
     I dis' pq') →
  ∀ fuel dis pq out,
    I dis pq → while_loop fuel adj dis pq = Ret out → I out [].
Proof.
  intros Hstale Hround. induction fuel as [|fuel IH]; intros dis pq out HI Hw.
  - done.
  - destruct pq as [|[d node] pq]; simpl in Hw.
    + by injection Hw as <-.
    + destruct (Vec.get dis node) as [x|] eqn:Hx; [|done].
      case_decide as Hd.
      * apply (IH dis pq); [|done]. by apply (Hstale d node pq dis x).
      * destruct (row adj node) as [es|] eqn:Hes; [|done].
        destruct (relax d es dis pq) as [[dis' pq']| | |] eqn:Hr; try done.
        apply (IH dis' pq'); [|done].
        by apply (Hround d node pq dis x es).
Qed.

(** ** What every graph keeps *)

Lemma relaxed_on_lower es dis dis' x :
  (∀ u y, Vec.get dis u = Some y →
          ∃ y', Vec.get dis' u = Some y' ∧ y' ≤ y) →
  relaxed_on es dis x → relaxed_on es dis' x.
Proof.
  intros Hlow Hes w v Hin. destruct (Hes w v Hin) as (y & Hy & Hle).
  destruct (Hlow v y Hy) as (y' & Hy' & Hle'). exists y'. split; [done|lia].
Qed.

Lemma settled_lower adj dis dis' u x :
  (∀ u y, Vec.get dis u = Some y →
          ∃ y', Vec.get dis' u = Some y' ∧ y' ≤ y) →
  settled adj dis u x → settled adj dis' u x.
Proof.
  intros Hlow (es & Hrow & Hes). exists es. split; [done|].
  by apply (relaxed_on_lower es dis).
Qed.

Lemma loop_inv_stale adj V s d node pq dis x :
  loop_inv adj V s dis ((d, node) :: pq) → Vec.get dis node = Some x → d > x →
  loop_inv adj V s dis pq.
Proof.
  intros (Hlen & Hq & Hs & Ht) Hx Hd. split; [done|]. split; [|split; [done|]].
  - intros k u Hin. apply Hq. by apply list_elem_of_further.
  - intros u y Hu Hy. destruct (Ht u y Hu Hy) as [Hin|H]; [|by right].
    apply elem_of_cons in Hin as [Heq|Hin]; [|by left].
    injection Heq as -> ->. rewrite Hx in Hu. injection Hu as ->. lia.
Qed.

Lemma loop_inv_pop adj V s d node pq dis x :
  loop_inv adj V s dis ((d, node) :: pq) → Vec.get dis node = Some x → ¬ d > x →
  x = d ∧ for_inv adj V s node d [] dis pq.
Proof.
  intros (Hlen & Hq & Hs & Ht) Hx Hd.
  assert (x = d) as ->.
  { destruct (Hq d node) as (x' & Hx' & Hle); [apply list_elem_of_here|].
    rewrite Hx in Hx'. injection Hx' as <-. lia. }
  split; [done|]. split; [done|]. split; [|split; [done|]].
  - intros k u Hin. apply Hq. by apply list_elem_of_further.
  - intros u y Hu Hy. destruct (Ht u y Hu Hy) as [Hin|[H|[]]]; [|by right; left].
    apply elem_of_cons in Hin as [Heq|Hin]; [|by left].
    injection Heq as -> ->. right. right. split; [done|]. split; [done|].
    intros w v Hin. by apply elem_of_nil in Hin.
Qed.

Lemma for_inv_keep adj V s node d es0 w v dis pq y :
  for_inv adj V s node d es0 dis pq → Vec.get dis v = Some y →
  ¬ add32 d w < y → for_inv adj V s node d (es0 ++ [(w, v)]) dis pq.
Proof.
  intros (Hlen & Hq & Hs & Ht) Hv Hge. split; [done|]. split; [done|].
  split; [done|]. intros u x Hu Hx.
  destruct (Ht u x Hu Hx) as [H|[H|(-> & -> & Hes)]]; [by left|by right; left|].
  right. right. split; [done|]. split; [done|].
  intros w' v' [Hin|Hin]%elem_of_app; [by apply Hes|].
  apply list_elem_of_singleton in Hin. injection Hin as -> ->.
  exists y. split; [done|lia].
Qed.

Lemma for_inv_lower adj V s node d es0 w v dis pq y :
  for_inv adj V s node d es0 dis pq → Vec.get dis v = Some y →
  add32 d w < y →
  for_inv adj V s node d (es0 ++ [(w, v)])
         (upd dis v (add32 d w)) (push (add32 d w, v) pq).
Proof.
  intros (Hlen & Hq & Hs & Ht) Hv Hlt.
  pose proof (get_Some_inside _ _ _ Hv) as Hin.
  assert (∀ u z, Vec.get dis u = Some z →
            ∃ z', Vec.get (upd dis v (add32 d w)) u = Some z' ∧ z' ≤ z)
    as Hlow.
  { intros u z Hu. apply (get_upd_lower dis v _ y); [done|lia|done]. }
  split; [by rewrite length_upd|]. split; [|split].
  - intros k u [Heq|Hk]%push_elem.
    + injection Heq as -> ->. exists (add32 d w).
      split; [by apply get_upd_eq|lia].
    + destruct (Hq k u Hk) as (x & Hx & Hle).
      destruct (Hlow u x Hx) as (x' & Hx' & Hle'). exists x'.
      split; [done|lia].
  - destruct Hs as (x & Hx & Hle). destruct (Hlow s x Hx) as (x' & Hx' & Hle').
    exists x'. split; [done|lia].
  - intros u x Hu Hx.
    destruct (get_upd_cases _ _ _ _ _ _ Hv Hu) as [[-> ->]|[Hne Hu']].
    { left. apply push_elem. by left. }
    destruct (Ht u x Hu' Hx) as [H|[H|(-> & -> & Hes)]].
    + left. apply push_elem. by right.
    + right. left. by apply (settled_lower adj dis).
    + right. right. split; [done|]. split; [done|].
      intros w' v' [Hin'|Hin']%elem_of_app.
      * by apply (relaxed_on_lower es0 dis); [|apply Hes|].
      * apply list_elem_of_singleton in Hin'. injection Hin' as -> ->.
        exists (add32 d w). split; [by apply get_upd_eq|lia].
Qed.

Lemma loop_inv_round adj V s d node pq dis x es dis' pq' :
  loop_inv adj V s dis ((d, node) :: pq) → Vec.get dis node = Some x → ¬ d > x →
  row adj node = Some es → relax d es dis pq = Ret (dis', pq') →
  loop_inv adj V s dis' pq'.
Proof.
  intros Hinv Hx Hd Hrow Hr.
  destruct (loop_inv_pop _ _ _ _ _ _ _ _ Hinv Hx Hd) as [-> Hat].
  assert (for_inv adj V s node d es dis' pq') as (Hlen & Hq & Hs & Ht).
  { apply (relax_rule (λ es0 dis1 pq1, for_inv adj V s node d es0 dis1 pq1)
             d es) with (es := es) (es0 := []) (dis := dis) (pq := pq);
      try done.
    - intros es0 w v dis1 pq1 y H1 _ Hv Hge. by apply (for_inv_keep _ _ _ _ _ _ _ _ _ _ y).
    - intros es0 w v dis1 pq1 y H1 _ Hv Hlt. by apply (for_inv_lower _ _ _ _ _ _ _ _ _ _ y). }
  split; [done|]. split; [done|]. split; [done|].
  intros u y Hu Hy.
  destruct (Ht u y Hu Hy) as [H|[H|(-> & -> & Hes)]]; [by left|by right; left|].
  right. left. by exists es.
Qed.

Lemma get_replicate_inv (k : nat) (x : Z) i y :
  Vec.get (replicate k x) i = Some y → y = x.
Proof.
  unfold Vec.get. case_decide; [|done].
  intros [-> _]%lookup_replicate. done.
Qed.

Lemma push_first x : push x [] = [x].
Proof. done. Qed.

Lemma loop_inv_start adj (m : nat) s :
  0 ≤ s < Z.of_nat m →
  loop_inv adj (Z.of_nat m) s (upd (replicate m INT_MAX) s 0) [(0, s)].
Proof.
  intros Hs.
  assert (inside (replicate m INT_MAX) s) as Hin.
  { unfold inside. by rewrite length_replicate. }
  destruct (get_inside _ _ Hin) as [y Hy].
  split; [by rewrite length_upd, length_replicate|]. split; [|split].
  - intros d u Hd. apply list_elem_of_singleton in Hd. injection Hd as -> ->.
    exists 0. split; [by apply get_upd_eq|done].
  - exists 0. split; [by apply get_upd_eq|done].
  - intros u x Hu Hx.
    destruct (get_upd_cases _ _ _ _ _ _ Hy Hu) as [[-> ->]|[Hne Hu']].
    + left. apply list_elem_of_here.
    + by apply get_replicate_inv in Hu'.
Qed.

(** What [dijkstra] does before the loop. *)
Lemma dijkstra_start fuel adj V s :
  0 ≤ V ≤ INT_MAX → 0 ≤ s < V →
  dijkstra fuel adj V s
  = while_loop fuel adj (upd (replicate (Z.to_nat V) INT_MAX) s 0) [(0, s)].
Proof.
  intros HV Hs. unfold dijkstra, INT_MAX in *.
  assert (to_size_t V = V) as ->.
  { unfold to_size_t. apply Z.mod_small. lia. }
  rewrite decide_True by (unfold max_size; lia).
  unfold Vec.resize. rewrite set_inside; [done|].
  unfold inside. rewrite length_replicate. lia.
Qed.

Lemma dijkstra_Ret_range fuel adj V s dis :
  in_int V → dijkstra fuel adj V s = Ret dis → 0 ≤ V ≤ INT_MAX ∧ 0 ≤ s < V.
Proof.
  unfold in_int, INT_MIN, INT_MAX, dijkstra. intros HV Hd.
  case_decide as Hm; [|done].
  assert (0 ≤ V) as H0.
  { destruct (decide (0 ≤ V)); [done|]. exfalso.
    unfold to_size_t, max_size in Hm.
    replace V with (V + 2 ^ 64 + (-1) * 2 ^ 64) in Hm by lia.
    rewrite Z.mod_add, Z.mod_small in Hm; lia. }
  split; [lia|].
  assert (to_size_t V = V) as HV'.
  { unfold to_size_t. apply Z.mod_small. lia. }
  rewrite HV' in Hd. unfold Vec.resize, Vec.set in Hd.
  case_decide as Hs; [|done]. rewrite length_replicate in Hs. lia.
Qed.

(** ** Graphs that fit *)

Lemma row_inside adj V node :
  V ≤ Z.of_nat (length adj) → 0 ≤ node < V → is_Some (row adj node).
Proof.
  intros HV Hn. unfold row. rewrite decide_True by lia.
  apply lookup_lt_is_Some. lia.
Qed.

Lemma safe_round adj V d node pq dis es :
  fits adj V → safe V dis ((d, node) :: pq) → row adj node = Some es →
  ∃ dis' pq', relax d es dis pq = Ret (dis', pq') ∧ safe V dis' pq'.
Proof.
  intros [HV Hfit] [Hlen Hq] Hrow.
  assert (0 ≤ node < V) as Hnode by (apply (Hq d), list_elem_of_here).
  destruct (relax_safe d es dis pq) as (dis' & pq' & Hr).
  { intros w v Hin. unfold inside. rewrite Hlen.
    apply (Hfit node w v Hnode). by exists es. }
  exists dis', pq'. split; [done|].
  apply (relax_rule (λ _ dis1 pq1, safe V dis1 pq1) d es)
    with (es := es) (es0 := []) (dis := dis) (pq := pq); try done.
  - intros _ w v dis1 pq1 y [Hl1 Hq1] _ Hv _. split.
    + by rewrite length_upd.
    + intros k u [Heq|Hk]%push_elem; [|by apply (Hq1 k)].
      injection Heq as -> ->. apply get_Some_inside in Hv.
      unfold inside in Hv. lia.
  - split; [done|]. intros k u Hk. apply (Hq k). by apply list_elem_of_further.
Qed.

Lemma while_loop_safe adj V fuel dis pq :
  fits adj V → safe V dis pq →
  while_loop fuel adj dis pq = Diverge ∨
  ∃ out, while_loop fuel adj dis pq = Ret out.
Proof.
  intros Hfit. revert dis pq. induction fuel as [|fuel IH]; intros dis pq Hsafe.
  - by left.
  - destruct pq as [|[d node] pq]; simpl; [right; by eexists|].
    pose proof Hsafe as [Hlen Hq].
    assert (0 ≤ node < V) as Hnode by (apply (Hq d), list_elem_of_here).
    destruct (get_inside dis node) as [x Hx].
    { unfold inside. lia. }
    rewrite Hx. case_decide.
    + apply IH. split; [done|]. intros k u Hk. apply (Hq k).
      by apply list_elem_of_further.
    + destruct (row_inside adj V node) as [es Hes]; [apply Hfit|done|].
      rewrite Hes.
      destruct (safe_round adj V d node pq dis es Hfit Hsafe Hes)
        as (dis' & pq' & Hr & Hsafe').
      rewrite Hr. by apply IH.
Qed.

Lemma measure_start_int (m : nat) s :
  Forall in_int (upd (replicate m INT_MAX) s 0).
Proof.
  unfold upd. apply Forall_insert; [|by unfold in_int, INT_MIN, INT_MAX].
  apply Forall_replicate. by unfold in_int, INT_MIN, INT_MAX.
Qed.

(** Enough rounds for the loop from a state. *)
Lemma enough_fuel dis pq :
  ∃ fuel : nat, measure dis pq < Z.of_nat fuel.
Proof. exists (Z.to_nat (measure dis pq + 1)). lia. Qed.

(** ** Weights that are not negative *)

Lemma walk_nonneg adj s u W : nonneg adj → walk adj s u W → 0 ≤ W.
Proof.
  intros Hnn. induction 1 as [|u v w W _ IH He]; [done|].
  pose proof (Hnn u w v He). lia.
Qed.

Lemma least_inv_stale adj s d node pq dis x :
  least_inv adj s dis ((d, node) :: pq) → Vec.get dis node = Some x → d > x →
  least_inv adj s dis pq.
Proof.
  intros ([_ Hsort] & Hmax & Hw & Hq & He) Hx Hd.
  split; [done|]. split; [done|]. split; [done|]. split.
  - intros k u Hin. apply Hq. by apply list_elem_of_further.
  - intros u y Hu Hy. destruct (He u y Hu Hy) as [Hin|H]; [|by right].
    apply elem_of_cons in Hin as [Heq|Hin]; [|by left].
    injection Heq as -> ->. rewrite Hx in Hu. injection Hu as ->. lia.
Qed.

(** Below the least distance of the queue every walk is matched by an
    entry. *)
Lemma below_head adj V s d node pq dis u W :
  nonneg adj → loop_inv adj V s dis ((d, node) :: pq) →
  least_inv adj s dis ((d, node) :: pq) →
  walk adj s u W → W < d → ∃ x, Vec.get dis u = Some x ∧ x ≤ W.
Proof.
  intros Hnn (Hlen & Hq & Hs & Ht) (Hsort & Hmax & Hw & Hqw & He) Hwalk.
  induction Hwalk as [|u v w W Hwalk IH Hedge]; intros Hlt.
  - destruct Hs as (x & Hx & Hle). by exists x.
  - pose proof (Hnn u w v Hedge) as H0w.
    destruct IH as (x & Hx & Hle); [lia|].
    assert (d < INT_MAX) as HdM by (apply (Hqw d node), list_elem_of_here).
    assert (x ≠ INT_MAX) as HxM by lia.
    destruct (Ht u x Hx HxM) as [Hin|[(es & Hrow & Hes)|[]]].
    + pose proof (sorted_head _ _ _ _ _ Hsort Hin). lia.
    + destruct Hedge as (es' & Hrow' & Hin). rewrite Hrow in Hrow'.
      injection Hrow' as <-. destruct (Hes w v Hin) as (y & Hy & Hyle).
      pose proof (walk_nonneg _ _ _ _ Hnn (Hw u x Hx HxM)) as H0x.
      rewrite add32_small in Hyle
        by (unfold in_int, INT_MIN, INT_MAX in *; lia).
      exists y. split; [done|lia].
Qed.

(** The pair at the head of the queue, when it is not out of date, holds
    a least weight. *)
Lemma head_shortest adj V s d node pq dis :
  nonneg adj → loop_inv adj V s dis ((d, node) :: pq) →
  least_inv adj s dis ((d, node) :: pq) →
  Vec.get dis node = Some d → shortest adj s node d.
Proof.
  intros Hnn Hinv Hex Hd. split.
  - destruct Hex as (_ & _ & _ & Hqw & _). apply (Hqw d node), list_elem_of_here.
  - intros W Hwalk. destruct (decide (d ≤ W)) as [|Hlt]; [done|]. exfalso.
    destruct (below_head adj V s d node pq dis node W Hnn Hinv Hex Hwalk)
      as (x & Hx & Hle); [lia|].
    rewrite Hd in Hx. injection Hx as <-. lia.
Qed.

Lemma least_inv_pop adj s d node pq dis :
  least_inv adj s dis ((d, node) :: pq) → shortest adj s node d →
  least_inv adj s dis pq.
Proof.
  intros ([_ Hsort] & Hmax & Hw & Hq & He) Hsh.
  split; [done|]. split; [done|]. split; [done|]. split.
  - intros k u Hin. apply Hq. by apply list_elem_of_further.
  - intros u y Hu Hy. destruct (He u y Hu Hy) as [Hin|H]; [|by right].
    apply elem_of_cons in Hin as [Heq|Hin]; [|by left].
    injection Heq as -> ->. by right.
Qed.

Lemma least_inv_lower adj s node d w v dis pq y :
  nonneg adj → walk adj s node d → edge adj node w v → d + w < INT_MAX →
  least_inv adj s dis pq → Vec.get dis v = Some y → add32 d w < y →
  least_inv adj s (upd dis v (add32 d w)) (push (add32 d w, v) pq).
Proof.
  intros Hnn Hwalk Hedge Hsum (Hsort & Hmax & Hw & Hq & He) Hv Hlt.
  pose proof (walk_nonneg _ _ _ _ Hnn Hwalk) as H0d.
  pose proof (Hnn node w v Hedge) as H0w.
  rewrite add32_small in * by (unfold in_int, INT_MIN, INT_MAX in *; lia).
  pose proof (Hmax v y Hv) as HyM.
  assert (walk adj s v (d + w)) as Hnew by (by apply (walk_step adj s node)).
  split; [by apply push_sorted|]. split; [|split; [|split]].
  - intros u x Hu.
    destruct (get_upd_cases _ _ _ _ _ _ Hv Hu) as [[-> ->]|[Hne Hu']]; [lia|].
    by apply (Hmax u).
  - intros u x Hu Hx.
    destruct (get_upd_cases _ _ _ _ _ _ Hv Hu) as [[-> ->]|[Hne Hu']]; [done|].
    by apply Hw.
  - intros k u [Heq|Hk]%push_elem; [|by apply Hq].
    injection Heq as -> ->. split; [done|lia].
  - intros u x Hu Hx.
    destruct (get_upd_cases _ _ _ _ _ _ Hv Hu) as [[-> ->]|[Hne Hu']].
    { left. apply push_elem. by left. }
    destruct (He u x Hu' Hx) as [H|H]; [|by right].
    left. apply push_elem. by right.
Qed.

Lemma least_inv_round adj V s d node pq dis x es dis' pq' :
  nonneg adj →
  (∀ u D w v, shortest adj s u D → edge adj u w v → D + w < INT_MAX) →
  loop_inv adj V s dis ((d, node) :: pq) → least_inv adj s dis ((d, node) :: pq) →
  Vec.get dis node = Some x → ¬ d > x →
  row adj node = Some es → relax d es dis pq = Ret (dis', pq') →
  least_inv adj s dis' pq'.
Proof.
  intros Hnn Hsafe Hinv Hex Hx Hd Hrow Hr.
  destruct (loop_inv_pop _ _ _ _ _ _ _ _ Hinv Hx Hd) as [-> _].
  pose proof (head_shortest _ _ _ _ _ _ _ Hnn Hinv Hex Hx) as Hsh.
  apply (relax_rule (λ _ dis1 pq1, least_inv adj s dis1 pq1) d es)
    with (es := es) (es0 := []) (dis := dis) (pq := pq); try done.
  - intros _ w v dis1 pq1 y H1 Hin Hv Hlt.
    assert (edge adj node w v) as Hedge by (by exists es).
    apply (least_inv_lower adj s node d w v dis1 pq1 y); try done.
    + apply Hsh.
    + by apply (Hsafe node d w v).
  - by apply (least_inv_pop adj s d node).
Qed.

Lemma least_inv_start adj (m : nat) s :
  0 ≤ s < Z.of_nat m →
  least_inv adj s (upd (replicate m INT_MAX) s 0) [(0, s)].
Proof.
  intros Hs.
  assert (inside (replicate m INT_MAX) s) as Hin.
  { unfold inside. by rewrite length_replicate. }
  destruct (get_inside _ _ Hin) as [y Hy].
  assert (∀ u x, Vec.get (upd (replicate m INT_MAX) s 0) u = Some x →
                 (u = s ∧ x = 0) ∨ x = INT_MAX) as Hcases.
  { intros u x Hu.
    destruct (get_upd_cases _ _ _ _ _ _ Hy Hu) as [?|[_ Hu']]; [by left|].
    right. by apply get_replicate_inv in Hu'. }
  split; [|split; [|split; [|split]]].
  - split; [|done]. intros b Hb. by apply elem_of_nil in Hb.
  - intros u x Hu. destruct (Hcases u x Hu) as [[-> ->]| ->]; by unfold INT_MAX.
  - intros u x Hu Hx. destruct (Hcases u x Hu) as [[-> ->]| ->]; [|done].
    apply walk_here.
  - intros d u Hd. apply list_elem_of_singleton in Hd. injection Hd as -> ->.
    split; [apply walk_here|by unfold INT_MAX].
  - intros u x Hu Hx. destruct (Hcases u x Hu) as [[-> ->]| ->]; [|done].
    left. apply list_elem_of_here.
Qed.

(** When the queue is empty, every node that a walk reaches has an entry
    other than [INT_MAX]. *)
Lemma reached_at_exit adj V s dis u W :
  nonneg adj →
  (∀ u D w v, shortest adj s u D → edge adj u w v → D + w < INT_MAX) →
  loop_inv adj V s dis [] → least_inv adj s dis [] →
  walk adj s u W → ∃ x, Vec.get dis u = Some x ∧ x ≠ INT_MAX.
Proof.
  intros Hnn Hsafe (Hlen & Hq & Hs & Ht) (Hsort & Hmax & Hw & Hqw & He).
  induction 1 as [|u v w W Hwalk IH Hedge].
  - destruct Hs as (x & Hx & Hle). exists x. split; [done|].
    unfold INT_MAX. lia.
  - destruct IH as (x & Hx & HxM).
    destruct (He u x Hx HxM) as [Hin|Hsh]; [by apply elem_of_nil in Hin|].
    destruct (Ht u x Hx HxM) as [Hin|[(es & Hrow & Hes)|[]]];
      [by apply elem_of_nil in Hin|].
    pose proof Hedge as (es' & Hrow' & Hin). rewrite Hrow in Hrow'.
    injection Hrow' as <-. destruct (Hes w v Hin) as (y & Hy & Hyle).
    pose proof (Hsafe u x w v Hsh Hedge) as Hsum.
    pose proof (walk_nonneg _ _ _ _ Hnn (Hw u x Hx HxM)) as H0x.
    pose proof (Hnn u w v Hedge) as H0w.
    rewrite add32_small in Hyle by (unfold in_int, INT_MIN, INT_MAX in *; lia).
    exists y. split; [done|lia].
Qed.

(** ** The whole function *)

Lemma fuel_exists adj V s :
  ∃ fuel,
    dijkstra fuel adj V s ≠ Diverge ∧
    ∀ fuel', (fuel ≤ fuel')%nat →
             dijkstra fuel' adj V s = dijkstra fuel adj V s.
Proof.
  unfold dijkstra.
  destruct (decide (to_size_t V ≤ max_size)) as [Hm|Hm]; [|by exists O].
  unfold Vec.resize, Vec.set. case_decide as Hs; [|by exists O].
  change (<[Z.to_nat s:=0]> ?l) with (upd l s 0).
  destruct (enough_fuel
              (upd (replicate (Z.to_nat (to_size_t V)) INT_MAX) s 0)
              (push (0, s) [])) as [fuel Hfuel].
  exists fuel.
  pose proof (while_loop_returns adj fuel _ _ (measure_start_int _ s) Hfuel).
  split; [done|]. intros fuel' Hle. by apply while_loop_more.
Qed.

Lemma loop_inv_exit fuel adj V s dis :
  0 ≤ V ≤ INT_MAX → 0 ≤ s < V → dijkstra fuel adj V s = Ret dis →
  loop_inv adj V s dis [].
Proof.
  intros HV Hs Hd. rewrite dijkstra_start in Hd by done.
  apply (while_loop_rule (loop_inv adj V s) adj) with (4 := Hd).
  - apply loop_inv_stale.
  - apply loop_inv_round.
  - replace V with (Z.of_nat (Z.to_nat V)) at 1 by lia.
    apply loop_inv_start. lia.
Qed.

Lemma returns_fits adj V s :
  V ≤ INT_MAX → 0 ≤ s < V → fits adj V →
  ∃ fuel dis,
    dijkstra fuel adj V s = Ret dis ∧
    ∀ fuel', (fuel ≤ fuel')%nat → dijkstra fuel' adj V s = Ret dis.
Proof.
  intros HV Hs Hfit.
  destruct (fuel_exists adj V s) as (fuel & Hnd & Hmore).
  assert (∃ dis, dijkstra fuel adj V s = Ret dis) as [dis Hd].
  { rewrite dijkstra_start in * by lia.
    destruct (while_loop_safe adj V fuel
                (upd (replicate (Z.to_nat V) INT_MAX) s 0) [(0, s)])
      as [H|H]; [done| |done|done].
    split; [rewrite length_upd, length_replicate; lia|].
    intros d u Hin. apply list_elem_of_singleton in Hin.
    by injection Hin as -> ->. }
  exists fuel, dis. split; [done|].
  intros fuel' Hle. by rewrite Hmore.
Qed.

End DijkstraFacts.

Import DijkstraFacts.

(** ** Arguments that [dijkstra] cannot take *)

(** X12: [dijkstra] on a negative count [V] raises [length_error] when it
    builds [dis]; on a count that is not negative, with a source [s] that
    is not one of [0..V-1] (every source, when [V] is 0), its write
    [dis[s] = 0] leaves the vector: undefined behaviour. Neither depends on
    the graph or on the rounds allowed. *)
Theorem dijkstra_rejects (fuel : nat) (adj : list (list (Z * Z))) (V s : Z) :
  Int32.in_int V →
  (V < 0 → Dijkstra.dijkstra fuel adj V s = Throw length_error) ∧
  (0 ≤ V → ¬ 0 ≤ s < V → Dijkstra.dijkstra fuel adj V s = Undef).
Proof.
  unfold Int32.in_int, Int32.INT_MIN, Int32.INT_MAX, Dijkstra.dijkstra.
  intros HV. split.
  - intros Hneg. rewrite decide_False; [done|].
    unfold Int32.to_size_t, Int32.max_size.
    replace V with (V + 2 ^ 64 + (-1) * 2 ^ 64) by lia.
    rewrite Z.mod_add, Z.mod_small; lia.
  - intros H0 Hs.
    assert (Int32.to_size_t V = V) as ->.
    { unfold Int32.to_size_t. apply Z.mod_small. lia. }
    rewrite decide_True by (unfold Int32.max_size; lia).
    unfold Vec.resize, Vec.set. rewrite decide_False; [done|].
    rewrite length_replicate. lia.
Qed.

Lemma dijkstra_rejects_witness :
  Int32.in_int (-1) ∧ Int32.in_int 2 ∧
  Dijkstra.dijkstra 5 [[(1, 1)]; []] (-1) 0 = Throw length_error ∧
  Dijkstra.dijkstra 5 [[(1, 1)]; []] 2 2 = Undef.
Proof.
  assert (Int32.in_int (-1)) as H1 by (by vm_compute).
  assert (Int32.in_int 2) as H2 by (by vm_compute).
  split; [done|]. split; [done|]. split.
  - apply (dijkstra_rejects 5 [[(1, 1)]; []] (-1) 0 H1). lia.
  - apply (dijkstra_rejects 5 [[(1, 1)]; []] 2 2 H2); lia.
Defined.

(** ** Termination *)

(** X13: whatever the graph, the weights (negative ones and cycles of negative
    weight included) and the arguments, some number of rounds is enough
    for the [while] loop: with it [dijkstra] has an outcome, and more
    rounds give the same outcome. Every push lowers an entry of [dis], and
    the entries are [int]s. *)
Theorem dijkstra_terminates (adj : list (list (Z * Z))) (V s : Z) :
  ∃ fuel,
    Dijkstra.dijkstra fuel adj V s ≠ Diverge ∧
    ∀ fuel', (fuel ≤ fuel')%nat →
             Dijkstra.dijkstra fuel' adj V s = Dijkstra.dijkstra fuel adj V s.
Proof.
  unfold Dijkstra.dijkstra.
  destruct (decide (Int32.to_size_t V ≤ Int32.max_size)) as [Hm|Hm];
    [|by exists O].
  unfold Vec.resize, Vec.set. case_decide as Hs; [|by exists O].
  change (<[Z.to_nat s:=0]> ?l) with (upd l s 0).
  destruct (enough_fuel
              (upd (replicate (Z.to_nat (Int32.to_size_t V)) Int32.INT_MAX) s 0)
              (Dijkstra.push (0, s) [])) as [fuel Hfuel].
  exists fuel.
  pose proof (while_loop_returns adj fuel _ _ (measure_start_int _ s) Hfuel).
  split; [done|]. intros fuel' Hle. by apply while_loop_more.
Qed.

(** ** What the result satisfies, for every graph *)

(** X14: when [dijkstra] returns [dis], [dis] has [V] entries, the entry of the
    source is at most 0, and every node with an entry [x] other than
    [INT_MAX] is settled: it has a row in [adj], and for each pair
    [(w, v)] of the row the entry of [v] is at most [x + w] (on [int]). *)
Theorem dijkstra_settles (fuel : nat) (adj : list (list (Z * Z))) (V s : Z)
    (dis : list Z) :
  Int32.in_int V →
  Dijkstra.dijkstra fuel adj V s = Ret dis →
  Z.of_nat (length dis) = V ∧
  (∃ x, Vec.get dis s = Some x ∧ x ≤ 0) ∧
  ∀ u x, Vec.get dis u = Some x → x ≠ Int32.INT_MAX →
         Dijkstra.settled adj dis u x.
Proof.
  intros HV Hd.
  destruct (dijkstra_Ret_range _ _ _ _ _ HV Hd) as [HV' Hs].
  destruct (loop_inv_exit fuel adj V s dis HV' Hs Hd) as (Hlen & _ & Hsrc & Ht).
  split; [done|]. split; [done|]. intros u x Hu Hx.
  destruct (Ht u x Hu Hx) as [Hin|[H|[]]]; [|done].
  by apply elem_of_nil in Hin.
Qed.

Lemma dijkstra_settles_witness :
  let adj := [[(4, 1); (1, 2)]; [(-3, 0)]; [(2, 1)]] in
  Int32.in_int 3 ∧
  Dijkstra.dijkstra 9 adj 3 0 = Ret [0; 3; 1] ∧
  Z.of_nat (length [0; 3; 1]) = 3 ∧
  (∃ x, Vec.get [0; 3; 1] 0 = Some x ∧ x ≤ 0) ∧
  ∀ u x, Vec.get [0; 3; 1] u = Some x → x ≠ Int32.INT_MAX →
         Dijkstra.settled adj [0; 3; 1] u x.
Proof.
  assert (Int32.in_int 3) as H1 by (by vm_compute).
  split; [done|]. split; [by vm_compute|].
  apply (dijkstra_settles 9 _ 3 0 _ H1). by vm_compute.
Defined.

(** ** Graphs that fit *)

(** X15: with a source among [0..V-1] and a graph that fits ([adj] has a row
    for each of these nodes, and their pairs name these nodes), [dijkstra]
    returns, whatever the weights: some number of rounds is enough, and
    with it or more the result is one vector of [V] entries. *)
Theorem dijkstra_returns (adj : list (list (Z * Z))) (V s : Z) :
  V ≤ Int32.INT_MAX → 0 ≤ s < V → Dijkstra.fits adj V →
  ∃ fuel dis,
    Z.of_nat (length dis) = V ∧
    ∀ fuel', (fuel ≤ fuel')%nat → Dijkstra.dijkstra fuel' adj V s = Ret dis.
Proof.
  intros HV Hs Hfit.
  destruct (returns_fits adj V s HV Hs Hfit) as (fuel & dis & Hd & Hmore).
  exists fuel, dis. split; [|done].
  apply (loop_inv_exit fuel adj V s dis); [lia|done|done].
Qed.

Lemma fits_example :
  Dijkstra.fits [[(4, 1); (1, 2)]; [(-3, 0)]; [(2, 1)]] 3.
Proof.
  split; [by vm_compute|]. intros u w v Hu (es & Hrow & Hin).
  assert (u = 0 ∨ u = 1 ∨ u = 2) as [-> | [-> | ->]] by lia;
    vm_compute in Hrow; injection Hrow as <-;
    repeat (apply elem_of_cons in Hin as [Hin|Hin];
            [injection Hin as -> ->; lia|]);
    by apply elem_of_nil in Hin.
Defined.

Lemma dijkstra_returns_witness :
  let adj := [[(4, 1); (1, 2)]; [(-3, 0)]; [(2, 1)]] in
  3 ≤ Int32.INT_MAX ∧ 0 ≤ 0 < 3 ∧ Dijkstra.fits adj 3 ∧
  ∃ fuel dis,
    Z.of_nat (length dis) = 3 ∧
    ∀ fuel', (fuel ≤ fuel')%nat → Dijkstra.dijkstra fuel' adj 3 0 = Ret dis.
Proof.
  assert (3 ≤ Int32.INT_MAX) as H1 by (by vm_compute).
  assert (0 ≤ 0 < 3) as H2 by lia.
  split; [done|]. split; [done|]. split; [apply fits_example|].
  apply (dijkstra_returns _ 3 0 H1 H2 fits_example).
Defined.

(** ** Weights that are not negative: least weights *)

(** X16: with a source among [0..V-1], a graph that fits, no negative weight,
    and no least weight of a walk from [s] that an edge takes to [INT_MAX]
    or above, [dijkstra] returns the least weights: the entry of a node
    that no walk from [s] reaches is [INT_MAX], the entry of every other
    node is the least weight of the walks from [s] to it. *)
Theorem dijkstra_shortest (adj : list (list (Z * Z))) (V s : Z) :
  V ≤ Int32.INT_MAX → 0 ≤ s < V → Dijkstra.fits adj V →
  Dijkstra.nonneg adj →
  (∀ u D w v, Dijkstra.shortest adj s u D → Dijkstra.edge adj u w v →
              D + w < Int32.INT_MAX) →
  ∃ fuel dis,
    (∀ fuel', (fuel ≤ fuel')%nat → Dijkstra.dijkstra fuel' adj V s = Ret dis) ∧
    Z.of_nat (length dis) = V ∧
    ∀ v, 0 ≤ v < V →
         ∃ x, Vec.get dis v = Some x ∧
              ((x = Int32.INT_MAX ∧ ∀ W, ¬ Dijkstra.walk adj s v W) ∨
               (x ≠ Int32.INT_MAX ∧ Dijkstra.shortest adj s v x)).
Proof.
  intros HV Hs Hfit Hnn Hsafe.
  destruct (returns_fits adj V s HV Hs Hfit) as (fuel & dis & Hd & Hmore).
  exists fuel, dis. split; [done|].
  split; [apply (loop_inv_exit fuel adj V s dis); [lia|done|done]|].
  rewrite dijkstra_start in Hd by lia.
  assert (Dijkstra.loop_inv adj V s dis [] ∧ Dijkstra.least_inv adj s dis [])
    as [Hinv Hex].
  { apply (while_loop_rule
             (λ dis1 pq1, Dijkstra.loop_inv adj V s dis1 pq1 ∧
                          Dijkstra.least_inv adj s dis1 pq1) adj)
      with (4 := Hd).
    - intros d node pq dis1 x [Hi He] Hx Hgt. split.
      + by apply (loop_inv_stale adj V s d node pq dis1 x).
      + by apply (least_inv_stale adj s d node pq dis1 x).
    - intros d node pq dis1 x es dis' pq' [Hi He] Hx Hgt Hrow Hr. split.
      + by apply (loop_inv_round adj V s d node pq dis1 x es).
      + by apply (least_inv_round adj V s d node pq dis1 x es).
    - split.
      + replace V with (Z.of_nat (Z.to_nat V)) at 1 by lia.
        apply loop_inv_start. lia.
      + apply least_inv_start. lia. }
  pose proof Hinv as (Hlen & _).
  intros v Hv. destruct (get_inside dis v) as [x Hx].
  { unfold inside. lia. }
  exists x. split; [done|].
  destruct (decide (x = Int32.INT_MAX)) as [->|HxM].
  - left. split; [done|]. intros W Hwalk.
    destruct (reached_at_exit adj V s dis v W Hnn Hsafe Hinv Hex Hwalk)
      as (x' & Hx' & Hne).
    congruence.
  - right. split; [done|].
    destruct Hex as (_ & _ & _ & _ & He).
    destruct (He v x Hx HxM) as [Hin|Hsh]; [|done].
    by apply elem_of_nil in Hin.
Qed.

Lemma edges_example u w v :
  Dijkstra.edge [[(4, 1); (1, 2)]; []; [(2, 1)]; []] u w v →
  (u = 0 ∧ w = 4 ∧ v = 1) ∨ (u = 0 ∧ w = 1 ∧ v = 2) ∨
  (u = 2 ∧ w = 2 ∧ v = 1).
Proof.
  intros (es & Hrow & Hin). unfold Dijkstra.row in Hrow.
  case_decide as H0; [|done].
  destruct (Z.to_nat u) as [|[|[|[|n]]]] eqn:Hu; simpl in Hrow;
    try done; injection Hrow as <-;
    repeat (apply elem_of_cons in Hin as [Hin|Hin];
            [injection Hin as -> ->|]);
    try (by apply elem_of_nil in Hin).
  - left. lia.
  - right. left. lia.
  - right. right. lia.
Defined.

Lemma dijkstra_shortest_witness :
  let adj := [[(4, 1); (1, 2)]; []; [(2, 1)]; []] in
  4 ≤ Int32.INT_MAX ∧ 0 ≤ 0 < 4 ∧ Dijkstra.fits adj 4 ∧
  Dijkstra.nonneg adj ∧
  (∀ u D w v, Dijkstra.shortest adj 0 u D → Dijkstra.edge adj u w v →
              D + w < Int32.INT_MAX) ∧
  ∃ fuel dis,
    (∀ fuel', (fuel ≤ fuel')%nat → Dijkstra.dijkstra fuel' adj 4 0 = Ret dis) ∧
    Z.of_nat (length dis) = 4 ∧
    ∀ v, 0 ≤ v < 4 →
         ∃ x, Vec.get dis v = Some x ∧
              ((x = Int32.INT_MAX ∧ ∀ W, ¬ Dijkstra.walk adj 0 v W) ∨
               (x ≠ Int32.INT_MAX ∧ Dijkstra.shortest adj 0 v x)).
Proof.
  intros adj.
  assert (4 ≤ Int32.INT_MAX) as H1 by (by vm_compute).
  assert (0 ≤ 0 < 4) as H2 by lia.
  assert (Dijkstra.fits adj 4) as H3.
  { split; [by vm_compute|]. intros u w v _ He.
    destruct (edges_example u w v He) as [?|[?|?]]; lia. }
  assert (Dijkstra.nonneg adj) as H4.
  { intros u w v He. destruct (edges_example u w v He) as [?|[?|?]]; lia. }
  assert (∀ u D w v, Dijkstra.shortest adj 0 u D → Dijkstra.edge adj u w v →
                     D + w < Int32.INT_MAX) as H5.
  { intros u D w v [_ Hmin] He.
    assert (Dijkstra.walk adj 0 2 (0 + 1)) as Hw2.
    { apply (Dijkstra.walk_step adj 0 0 2 1 0); [apply Dijkstra.walk_here|].
      exists [(4, 1); (1, 2)]. split; [done|].
      apply list_elem_of_further, list_elem_of_here. }
    unfold Int32.INT_MAX.
    destruct (edges_example u w v He) as [(-> & -> & ->)|[(-> & -> & ->)|(-> & -> & ->)]].
    - pose proof (Hmin 0 (Dijkstra.walk_here adj 0)). lia.
    - pose proof (Hmin 0 (Dijkstra.walk_here adj 0)). lia.
    - pose proof (Hmin _ Hw2). lia. }
  split; [done|]. split; [done|]. split; [done|]. split; [done|].
  split; [done|].
  apply (dijkstra_shortest adj 4 0 H1 H2 H3 H4 H5).
Defined.

(** * Notifications *)

Module NotificationFacts.

Import Notification.

Lemma append_assoc (a b c : string) : (a +:+ b) +:+ c = a +:+ (b +:+ c).
Proof.
  induction a as [|x a IH]; [done|].
  change (String x ((a +:+ b) +:+ c) = String x (a +:+ b +:+ c)).
  by rewrite IH.
Qed.

Lemma append_empty_r (a : string) : a +:+ "" = a.
Proof.
  induction a as [|x a IH]; [done|].
  change (String x (a +:+ "") = String x a). by rewrite IH.
Qed.

Lemma join_app (l k : list string) : join (l ++ k) = join l +:+ join k.
Proof.
  induction l as [|a l IH]; simpl; [done|].
  change (join (a :: l ++ k)) with (a +:+ join (l ++ k)).
  change (join (a :: l)) with (a +:+ join l).
  by rewrite IH, append_assoc.
Qed.

End NotificationFacts.

Import NotificationFacts.

(** ** The content of a decorated notification *)

(** X17: the content of a notification is one timestamp for each timestamp
    decorator, then the text of the notification inside, then the
    signatures from the inside out: where the timestamp decorators stand
    among the signature decorators makes no difference. *)
Theorem getContent_layers (n : Notification.INotification) :
  Notification.getContent n
  = Notification.join (replicate (Notification.stamps n) Notification.stamp)
    +:+ Notification.text_of n
    +:+ Notification.join
          (Notification.signed <$> Notification.signatures n).
Proof.
  induction n as [text|n IH|n IH signature]; simpl.
  - by rewrite append_empty_r.
  - rewrite IH.
    change (Notification.join (?a :: ?l))
      with (a +:+ Notification.join l).
    by rewrite !append_assoc.
  - rewrite IH, fmap_app, join_app.
    change (Notification.join (Notification.signed <$> [signature]))
      with (Notification.signed signature +:+ "").
    rewrite append_empty_r. unfold Notification.signed.
    by rewrite !append_assoc.
Qed.
